(** * Lisk transaction-effect core

    A shallow embedding of the two TypeScript modules that make up the
    ledger state-transition core:

    - [packages/lisk-transactions/src/base_transaction.ts]: the
      [BaseTransaction] class (toJSON, getBytes, validate, apply, undo);
    - [packages/lisk-blockchain/src/vote.ts]: the vote-weight ledger
      ([applyVote], [undoVote] and their three effect families).

    Arbitrary-precision numbers ([browserify-bignum]) are integers [Z]
    with a decimal reader and printer.  A method of the class that may
    assign a field is a function taking the object and returning the
    object after the call next to its outcome.  The asynchronous functions
    of vote.ts are programs over the operations of the state store, run by
    an explicit scheduler, so that a statement about them can quantify
    over every interleaving of the store operations. *)

From Stdlib Require Import ZArith String Ascii List Lia Bool.
From Stdlib Require Import DecimalString DecimalPos DecimalZ.
From Stdlib Require Strings.Byte.
From stdpp Require Import gmap strings list fin_maps.

Local Open Scope string_scope.
Local Open Scope list_scope.
Local Open Scope Z_scope.

(** ** Outcomes of a call: a returned value or a thrown exception *)

Inductive outcome (A : Type) : Type :=
| Returned (a : A)
| Thrown (e : string).
Arguments Returned {A} a.
Arguments Thrown {A} e.

(** JavaScript truthiness of an optional string: [undefined] and the empty
    string are falsy. *)
Definition truthy (o : option string) : bool :=
  match o with
  | Some s => negb (String.eqb s "")
  | None => false
  end.

(** [s.slice(0, -1)]: the string without its last character. *)
Definition sliceInit (s : string) : string :=
  String.substring 0 (String.length s - 1) s.

(** ** Node's Buffer *)

Module Buffer.

Definition byteOfZ (z : Z) : Byte.byte :=
  match Byte.of_N (Z.to_N (z mod 256)) with
  | Some b => b
  | None => Byte.x00
  end.

Definition byteToZ (b : Byte.byte) : Z := Z.of_N (Byte.to_N b).

(** [Buffer.alloc(size, fill)]; [Buffer.alloc(size)] is [alloc size 0]. *)
Definition alloc (size : nat) (fill : Z) : list Byte.byte :=
  repeat (byteOfZ fill) size.

(** The [len] low bytes of [z], least significant first; a negative [z]
    gives the bytes of its two's complement. *)
Definition littleEndian (len : nat) (z : Z) : list Byte.byte :=
  map (fun i => byteOfZ (Z.shiftr z (8 * Z.of_nat i))) (seq 0 len).

(** The [len] low bytes of [z], most significant first. *)
Definition bigEndian (len : nat) (z : Z) : list Byte.byte :=
  map (fun i => byteOfZ (Z.shiftr z (8 * (Z.of_nat len - 1 - Z.of_nat i))))
      (seq 0 len).

(** The number a byte sequence spells, least significant byte first. *)
Definition leToZ (l : list Byte.byte) : Z :=
  fold_right (fun b acc => byteToZ b + 256 * acc) 0 l.

(** [buf.writeIntLE(value, offset, byteLength)]: the buffer after the
    call.  Node throws a RangeError when the value does not fit a signed
    integer of [byteLength] bytes or the bytes do not fit the buffer. *)
Definition writeIntLE (buf : list Byte.byte) (value : Z) (offset byteLength : nat)
  : outcome (list Byte.byte) :=
  let limit := 2 ^ (8 * Z.of_nat byteLength - 1) in
  if (- limit <=? value) && (value <? limit)
     && (Nat.leb (offset + byteLength) (length buf))
  then Returned (firstn offset buf ++ littleEndian byteLength value
                   ++ skipn (offset + byteLength) buf)
  else Thrown "RangeError".

End Buffer.

(** ** browserify-bignum *)

Module BigNum.

Inductive endianness : Type := Big | Little.

(** The number of digits of [z >= 0] in base 16. *)
Definition hexLength (z : Z) : Z :=
  if z =? 0 then 1 else Z.log2 z / 4 + 1.

(** Cut a list into [n] chunks of [size] elements. *)
Fixpoint chunks (size n : nat) (l : list Byte.byte) : list (list Byte.byte) :=
  match n with
  | O => []
  | S n' => firstn size l :: chunks size n' (skipn size l)
  end.

(** [n.toBuffer({ endian, size })]: the hexadecimal numeral is padded to a
    whole number of words of [size] bytes; the words stay in big-endian
    order and [endian] orders the bytes inside each word.  A negative
    number cannot be converted. *)
Definition toBuffer (endian : endianness) (size : nat) (z : Z)
  : outcome (list Byte.byte) :=
  if z <? 0 then Thrown "converting negative numbers to Buffers not supported yet"
  else
    let size := match size with O => 1%nat | _ => size end in
    let words := Z.to_nat ((hexLength z + 2 * Z.of_nat size - 1) / (2 * Z.of_nat size)) in
    let len := (words * size)%nat in
    let hx := chunks size words (Buffer.bigEndian len z) in
    Returned (concat (map (fun chunk =>
                             match endian with
                             | Big => chunk
                             | Little => rev chunk
                             end) hx)).

(** [new BigNum(s)] for a string [s]: an optional minus sign and decimal
    digits; [None] when [s] is no such numeral.  The library reads more
    spellings than these (fractions, exponents, a leading plus sign,
    surrounding blanks); they are not modelled, and the statements below
    take the strings that are read to be numerals of this form. *)
Definition ofString (s : string) : option Z :=
  option_map Z.of_int (NilZero.int_of_string s).

(** [n.toString()]: the decimal numeral without padding.  The library
    prints this numeral for a magnitude below [10^21] and switches to
    exponential notation from there on ([1e+21] for [10^21]), which this
    printer does not follow: it stands for the printer of the library on
    the [plain] numbers. *)
Definition toString (z : Z) : string :=
  NilZero.string_of_int (Z.to_int z).

(** The numbers the library prints in plain decimal notation: the
    magnitudes below its threshold [10^21] for exponential notation. *)
Definition plain (z : Z) : bool := Z.abs z <? 10 ^ 21.

(** A string is canonical when it is the numeral the printer produces. *)
Definition canonical (s : string) : bool :=
  match ofString s with
  | Some z => String.eqb (toString z) s
  | None => false
  end.

End BigNum.

(** ** lisk-transactions: base_transaction.ts *)

Module Transactions.

(** Modelled from the spec: the [Account] of transaction_types.ts, which is
    not among the sources (address, publicKey, optional secondPublicKey,
    balance as a decimal string). *)
Record Account : Type := mkAccount {
  address : string;
  publicKey : string;
  secondPublicKey : option string;
  balance : string
}.

(** [{ ...sender, balance: b }] *)
Definition withBalance (sender : Account) (b : string) : Account :=
  {| address := address sender;
     publicKey := publicKey sender;
     secondPublicKey := secondPublicKey sender;
     balance := b |}.

(** The fields of a [BaseTransaction] instance.  [amount] and [fee] are
    [BigNum] values built by the constructor; an optional string field is
    [None] when it is [undefined]; [applied] is the private flag. *)
Record BaseTransaction : Type := mkTransaction {
  amount : Z;
  fee : Z;
  id : string;
  recipientId : option string;
  recipientPublicKey : option string;
  senderId : string;
  senderPublicKey : string;
  signature : option string;
  signatures : list string;
  signSignature : option string;
  timestamp : Z;
  type : Z;
  asset : string;
  applied : bool
}.

Definition setApplied (b : bool) (tx : BaseTransaction) : BaseTransaction :=
  {| amount := amount tx; fee := fee tx; id := id tx;
     recipientId := recipientId tx;
     recipientPublicKey := recipientPublicKey tx;
     senderId := senderId tx; senderPublicKey := senderPublicKey tx;
     signature := signature tx; signatures := signatures tx;
     signSignature := signSignature tx; timestamp := timestamp tx;
     type := type tx; asset := asset tx; applied := b |}.

Definition setFee (f : Z) (tx : BaseTransaction) : BaseTransaction :=
  {| amount := amount tx; fee := f; id := id tx;
     recipientId := recipientId tx;
     recipientPublicKey := recipientPublicKey tx;
     senderId := senderId tx; senderPublicKey := senderPublicKey tx;
     signature := signature tx; signatures := signatures tx;
     signSignature := signSignature tx; timestamp := timestamp tx;
     type := type tx; asset := asset tx; applied := applied tx |}.

(** Modelled from the spec: the wire record [TransactionJSON] of
    transaction_types.ts, which is not among the sources; amount and fee
    are decimal strings, the two signatures may be absent. *)
Record TransactionJSON : Type := mkTransactionJSON {
  json_id : string;
  json_amount : string;
  json_type : Z;
  json_timestamp : Z;
  json_senderPublicKey : string;
  json_senderId : string;
  json_recipientId : option string;
  json_recipientPublicKey : option string;
  json_fee : string;
  json_signatures : list string;
  json_asset : string;
  json_signature : option string;
  json_signSignature : option string
}.

(** Modelled from the spec: the schema validator returns pass or fail next
    to field errors; an error has the [dataPath] and the [message] that
    [validate] reads. *)
Record ErrorObject : Type := mkErrorObject {
  dataPath : string;
  message : string
}.

Record SchemaReport : Type := mkSchemaReport {
  valid : bool;
  schemaErrors : option (list ErrorObject)
}.

(** [new TransactionError(message, dataPath)] of errors.ts, and the
    [ValidateReturn] and [StateReturn] of transaction_types.ts, with the
    fields the methods fill.  The files are not among the sources. *)
Record TransactionError : Type := mkTransactionError {
  errorMessage : string;
  errorDataPath : option string
}.

Record ValidateReturn : Type := mkValidateReturn {
  validated : bool;
  errors : option (list TransactionError)
}.

Record StateReturn : Type := mkStateReturn { sender : Account }.

(** What base_transaction.ts imports from files that are not among the
    sources: the helpers of lisk-cryptography, the list of recognized type
    tags of constants.ts, and the validators of utils.  The two helpers of
    lisk-cryptography are taken as functions that return; a call of a
    validator returns or throws. *)
Class Imports : Type := {
  hexToBuffer : string -> list Byte.byte;
  bigNumberToBuffer : string -> nat -> list Byte.byte;
  TRANSACTION_TYPES : list Z;
  validateTransaction : TransactionJSON -> outcome SchemaReport;
  verifyTransaction : TransactionJSON -> option string -> outcome bool
}.

(** Modelled from the spec: the widths [BYTESIZES] of constants.ts, which is
    not among the sources (1-byte type tag, 4-byte timestamp, 8-byte
    recipient identifier, 8-byte amount). *)
Module BYTESIZES.
Definition TYPE : nat := 1.
Definition TIMESTAMP : nat := 4.
Definition RECIPIENT_ID : nat := 8.
Definition AMOUNT : nat := 8.
End BYTESIZES.

(** [public toJSON(): TransactionJSON] *)
Definition toJSON (this : BaseTransaction) : TransactionJSON :=
  let transaction :=
    {| json_id := id this;
       json_amount := BigNum.toString (amount this);
       json_type := type this;
       json_timestamp := timestamp this;
       json_senderPublicKey := senderPublicKey this;
       json_senderId := senderId this;
       json_recipientId := recipientId this;
       json_recipientPublicKey := recipientPublicKey this;
       json_fee := BigNum.toString (fee this);
       json_signatures := signatures this;
       json_asset := asset this;
       json_signature := None;
       json_signSignature := None |} in
  if negb (truthy (signature this)) then transaction
  else
    let singleSignedTransaction :=
      {| json_id := json_id transaction;
         json_amount := json_amount transaction;
         json_type := json_type transaction;
         json_timestamp := json_timestamp transaction;
         json_senderPublicKey := json_senderPublicKey transaction;
         json_senderId := json_senderId transaction;
         json_recipientId := json_recipientId transaction;
         json_recipientPublicKey := json_recipientPublicKey transaction;
         json_fee := json_fee transaction;
         json_signatures := json_signatures transaction;
         json_asset := json_asset transaction;
         json_signature := signature this;
         json_signSignature := None |} in
    if negb (truthy (signSignature this)) then singleSignedTransaction
    else
      {| json_id := json_id transaction;
         json_amount := json_amount transaction;
         json_type := json_type transaction;
         json_timestamp := json_timestamp transaction;
         json_senderPublicKey := json_senderPublicKey transaction;
         json_senderId := json_senderId transaction;
         json_recipientId := json_recipientId transaction;
         json_recipientPublicKey := json_recipientPublicKey transaction;
         json_fee := json_fee transaction;
         json_signatures := json_signatures transaction;
         json_asset := json_asset transaction;
         json_signature := json_signature singleSignedTransaction;
         json_signSignature := signSignature this |}.

(** [public getBytes(): Buffer] *)
Definition getBytes `{Imports} (this : BaseTransaction) : outcome (list Byte.byte) :=
  let js := toJSON this in
  let signature := json_signature js in
  let signSignature := json_signSignature js in
  let transactionType := Buffer.alloc BYTESIZES.TYPE (type this) in
  match Buffer.writeIntLE (Buffer.alloc BYTESIZES.TIMESTAMP 0)
                          (timestamp this) 0 BYTESIZES.TIMESTAMP with
  | Thrown e => Thrown e
  | Returned transactionTimestamp =>
      let transactionSenderPublicKey := hexToBuffer (senderPublicKey this) in
      let transactionRecipientID :=
        match recipientId this with
        | Some r =>
            if truthy (Some r)
            then bigNumberToBuffer (sliceInit r) BYTESIZES.RECIPIENT_ID
            else Buffer.alloc BYTESIZES.RECIPIENT_ID 0
        | None => Buffer.alloc BYTESIZES.RECIPIENT_ID 0
        end in
      let amountBigNum := amount this in
      match BigNum.toBuffer BigNum.Little BYTESIZES.AMOUNT amountBigNum with
      | Thrown e => Thrown e
      | Returned transactionAmount =>
          let transactionSignature :=
            match signature with
            | Some sg => if truthy (Some sg) then hexToBuffer sg else Buffer.alloc 0 0
            | None => Buffer.alloc 0 0
            end in
          let transactionSecondSignature :=
            match signSignature with
            | Some sg => if truthy (Some sg) then hexToBuffer sg else Buffer.alloc 0 0
            | None => Buffer.alloc 0 0
            end in
          Returned (concat [transactionType;
                            transactionTimestamp;
                            transactionSenderPublicKey;
                            transactionRecipientID;
                            transactionAmount;
                            transactionSignature;
                            transactionSecondSignature])
      end
  end.

(** [public validate(): ValidateReturn].  The method has no [try]: what
    [validateTransaction] or [verifyTransaction] throws leaves it as it
    is. *)
Definition validate `{Imports} (this : BaseTransaction) : outcome ValidateReturn :=
  let transaction := toJSON this in
  if negb (existsb (Z.eqb (json_type transaction)) TRANSACTION_TYPES) then
    Returned
      {| validated := false;
         errors := Some [mkTransactionError "Invalid transaction type." None] |}
  else
    match validateTransaction transaction with
    | Thrown e => Thrown e
    | Returned report =>
        let transactionErrors :=
          match schemaErrors report with
          | Some errs =>
              Some (map (fun error =>
                           mkTransactionError
                             ("'" ++ dataPath error ++ "' " ++ message error)%string
                             (Some (dataPath error))) errs)
          | None => None
          end in
        if negb (truthy (json_signature transaction)) then
          Returned
            {| validated := false;
               errors := Some [mkTransactionError
                                 "Cannot validate transaction without signature." None] |}
        else
          match verifyTransaction transaction None with
          | Thrown e => Thrown e
          | Returned verified =>
              Returned {| validated := valid report && verified;
                          errors := transactionErrors |}
          end
    end.

(** A method: the object before the call gives the outcome and the object
    after the call. *)
Definition method (A : Type) : Type := BaseTransaction -> outcome A * BaseTransaction.

(** [public apply(sender: Account): StateReturn] *)
Definition apply (sender0 : Account) : method StateReturn := fun this =>
  if applied this then (Returned {| sender := sender0 |}, this)
  else
    match BigNum.ofString (balance sender0) with
    | None => (Thrown "not a number", this)
    | Some b =>
        let updatedBalance := b - fee this in
        let updatedAccount := withBalance sender0 (BigNum.toString updatedBalance) in
        (Returned {| sender := updatedAccount |}, setApplied true this)
    end.

(** [public undo(sender: Account): StateReturn] *)
Definition undo (sender0 : Account) : method StateReturn := fun this =>
  if negb (applied this) then (Returned {| sender := sender0 |}, this)
  else
    match BigNum.ofString (balance sender0) with
    | None => (Thrown "not a number", this)
    | Some b =>
        let updatedBalance := b + fee this in
        let updatedAccount := withBalance sender0 (BigNum.toString updatedBalance) in
        (Returned {| sender := updatedAccount |}, this)
    end.

(** The bytes of an optional signature: none if it is absent or empty. *)
Definition signatureBytes `{Imports} (o : option string) : list Byte.byte :=
  if truthy o then hexToBuffer (default "" o) else [].

(** The signable byte layout in the words of the specification: type (1
    byte), timestamp (4 bytes, little-endian), sender public key,
    recipient identifier (8 bytes, zero-filled if absent), amount (8 bytes,
    little-endian), then the two signatures.  The layouts below differ in
    the last field only, which [secondSignature] gives. *)
Definition layoutWith `{Imports} (secondSignature : list Byte.byte)
    (this : BaseTransaction) : list Byte.byte :=
  [Buffer.byteOfZ (type this)]
  ++ Buffer.littleEndian 4 (timestamp this)
  ++ hexToBuffer (senderPublicKey this)
  ++ (if truthy (recipientId this)
      then bigNumberToBuffer (sliceInit (default "" (recipientId this))) 8
      else repeat Byte.x00 8)
  ++ Buffer.littleEndian 8 (amount this)
  ++ signatureBytes (signature this)
  ++ secondSignature.

(** The last field as the specification words it: the bytes of the
    secondary signature, empty if it is absent. *)
Definition signableLayout `{Imports} (this : BaseTransaction) : list Byte.byte :=
  layoutWith (signatureBytes (signSignature this)) this.

(** The last field with the condition of [toJSON]: the secondary signature
    is kept only next to a primary signature. *)
Definition emittedLayout `{Imports} (this : BaseTransaction) : list Byte.byte :=
  layoutWith (if truthy (signature this)
              then signatureBytes (signSignature this)
              else []) this.

(** The calls a holder of the object can make.  [toJSON], [getBytes],
    [validate], [getRequiredAttributes] and [verifyAgainstState] assign no
    field; the abstract methods are implemented by subclasses, which cannot
    name the private flag. *)
Inductive call : Type :=
| CallApply (sender0 : Account)
| CallUndo (sender0 : Account)
| CallToJSON
| CallGetBytes
| CallValidate
| CallGetRequiredAttributes
| CallVerifyAgainstState (sender0 : Account).

(** The object after one call. *)
Definition invoke (c : call) (this : BaseTransaction) : BaseTransaction :=
  match c with
  | CallApply s => snd (apply s this)
  | CallUndo s => snd (undo s this)
  | _ => this
  end.

(** The object after a sequence of calls, the first of the list first. *)
Definition invokeAll (cs : list call) (this : BaseTransaction) : BaseTransaction :=
  fold_left (fun tx c => invoke c tx) cs this.

End Transactions.

(** ** lisk-blockchain: vote.ts *)

Module Blockchain.

(** Modelled from the spec: the [Account] of account.ts, which is not among
    the sources.  [votes] and [votedDelegatesPublicKeys] may be absent
    ([undefined]); [publicKey] is optional as its cast in vote.ts shows. *)
Record Account : Type := mkAccount {
  address : string;
  publicKey : option string;
  balance : string;
  votes : option string;
  votedDelegatesPublicKeys : option (list string)
}.

(** [{ ...delegate, votes: v }] *)
Definition withVotes (delegate : Account) (v : string) : Account :=
  {| address := address delegate;
     publicKey := publicKey delegate;
     balance := balance delegate;
     votes := Some v;
     votedDelegatesPublicKeys := votedDelegatesPublicKeys delegate |}.

(** Modelled from the spec: the transaction record of types.ts, which is
    not among the sources; amount and fee are decimal strings.  The asset
    of an in-transfer carries [inTransfer.dappId], the asset of a vote
    carries the list [votes] of signed directives. *)
Record TransactionAsset : Type := mkAsset {
  inTransfer_dappId : option string;
  asset_votes : option (list string)
}.

Record Transaction : Type := mkTransaction {
  id : string;
  type : Z;
  amount : string;
  fee : string;
  senderId : string;
  recipientId : option string;
  asset : TransactionAsset
}.

Definition setRecipientId (r : option string) (tx : Transaction) : Transaction :=
  {| id := id tx; type := type tx; amount := amount tx; fee := fee tx;
     senderId := senderId tx; recipientId := r; asset := asset tx |}.

(** Modelled from the spec: the type tags of constants.ts, which is not
    among the sources (transfer, vote, in-transfer, out-transfer). *)
Definition TRANSACTION_TYPE_TRANSFER : Z := 0.
Definition TRANSACTION_TYPE_VOTE : Z := 3.
Definition TRANSACTION_TYPE_IN_TRANSFER : Z := 6.
Definition TRANSACTION_TYPE_OUT_TRANSFER : Z := 7.

(** The address derivation of lisk-cryptography, an opaque function. *)
Class Cryptography : Type := {
  getAddressFromPublicKey : string -> string
}.

(** Modelled from the spec: the three buckets of the state store
    (state_store.ts and repo.ts are not among the sources): address to
    account, candidate key to delegate address, transaction id to
    transaction. *)
Record StateStore : Type := mkStore {
  BUCKET_ADDRESS_ACCOUNT : gmap string Account;
  BUCKET_CANDIDATE : gmap string string;
  BUCKET_TX_ID_TX : gmap string Transaction
}.

(** An asynchronous function returning [Promise<void>], as the sequence of
    store operations it awaits.  [GetAccount] and [GetTransaction] are
    [await store.get] on the two buckets that are read, [SetAccount] is
    [store.set] on the account bucket, [Replace] is [store.replace] on the
    candidate bucket, and [ForEach callbacks k] is
    [array.forEach(async ...)]: it starts one asynchronous call for each
    element, keeps none of their promises, and goes on with [k]. *)
#[warnings="-register-all"] Inductive async : Type :=
| Resolve
| Reject (e : string)
| GetAccount (key : string) (k : Account -> async)
| GetTransaction (key : string) (k : Transaction -> async)
| SetAccount (key : string) (value : Account) (k : async)
| Replace (oldKey newKey value : string) (k : async)
| ForEach (callbacks : list async) (k : async).

(** [p] and then [q]. *)
Fixpoint andThen (p q : async) : async :=
  match p with
  | Resolve => q
  | Reject e => Reject e
  | GetAccount key k => GetAccount key (fun v => andThen (k v) q)
  | GetTransaction key k => GetTransaction key (fun v => andThen (k v) q)
  | SetAccount key value k => SetAccount key value (andThen k q)
  | Replace oldKey newKey value k => Replace oldKey newKey value (andThen k q)
  | ForEach callbacks k => ForEach callbacks (andThen k q)
  end.

(** [await Promise.all([p1; ...; pn])] on store operations: the operations
    are issued together and the store performs them one at a time. *)
Definition awaitAll (ps : list async) : async :=
  fold_right andThen Resolve ps.

(** The text a template literal gives for a value that may be [undefined]. *)
Definition templateString (o : option string) : string :=
  default "undefined" o.

(** [delegate.votes || '0'] *)
Definition votesOrZero (delegate : Account) : string :=
  if truthy (votes delegate) then default "" (votes delegate) else "0".

(** [signedVote[0] === sign] *)
Definition hasSign (sign : ascii) (signedVote : string) : bool :=
  match String.get 0 signedVote with
  | Some c => Ascii.eqb c sign
  | None => false
  end.

(** [signedVote.slice(1)] *)
Definition sliceFrom1 (signedVote : string) : string :=
  String.substring 1 (String.length signedVote - 1) signedVote.

Definition candidateKey (weight publicKey : string) : string :=
  (weight ++ ":" ++ publicKey)%string.

Definition updateCandidateKey (oldWeight newWeight address publicKey : string) : async :=
  let oldKey := candidateKey oldWeight publicKey in
  let newKey := candidateKey newWeight publicKey in
  Replace oldKey newKey address Resolve.

(** The body of every [forEach] callback of vote.ts.  The eight callbacks
    differ only in the arithmetic that gives the new [votes] string, which
    [newVotes] stands for; it is [None] when a [BigNum] cannot be built. *)
Definition updateDelegateVote (newVotes : Account -> option string) (address0 : string)
  : async :=
  GetAccount address0 (fun delegate =>
    match newVotes delegate with
    | None => Reject "not a number"
    | Some v =>
        let updateDelegateVote := withVotes delegate v in
        awaitAll
          [ SetAccount address0 updateDelegateVote Resolve;
            updateCandidateKey
              (templateString (votes delegate))
              (templateString (votes updateDelegateVote))
              (address delegate)
              (templateString (publicKey delegate)) ]
    end).

(** [new BigNum(delegate.votes || '0').add(x).toString()] and
    [....sub(x).toString()] *)
Definition votesAdd (x : string) (delegate : Account) : option string :=
  v ← BigNum.ofString (votesOrZero delegate);
  n ← BigNum.ofString x;
  Some (BigNum.toString (v + n)).

Definition votesSub (x : string) (delegate : Account) : option string :=
  v ← BigNum.ofString (votesOrZero delegate);
  n ← BigNum.ofString x;
  Some (BigNum.toString (v - n)).

(** [....sub(x).add(y).toString()] and [....add(x).sub(y).toString()] *)
Definition votesSubAdd (x y : string) (delegate : Account) : option string :=
  v ← BigNum.ofString (votesOrZero delegate);
  n ← BigNum.ofString x;
  m ← BigNum.ofString y;
  Some (BigNum.toString (v - n + m)).

Definition votesAddSub (x y : string) (delegate : Account) : option string :=
  v ← BigNum.ofString (votesOrZero delegate);
  n ← BigNum.ofString x;
  m ← BigNum.ofString y;
  Some (BigNum.toString (v + n - m)).

Section Families.
Context `{Cryptography}.

(** [account.votedDelegatesPublicKeys
      ? account.votedDelegatesPublicKeys.map(getAddressFromPublicKey) : []] *)
Definition delegateAddressesOf (account : Account) : list string :=
  match votedDelegatesPublicKeys account with
  | Some keys => map getAddressFromPublicKey keys
  | None => []
  end.

Definition isTransferType (tx : Transaction) : bool :=
  existsb (Z.eqb (type tx))
    [TRANSACTION_TYPE_TRANSFER; TRANSACTION_TYPE_IN_TRANSFER;
     TRANSACTION_TYPE_OUT_TRANSFER].

(** The part [applyAmount] and [undoAmount] share: resolve the recipient,
    then run [callback] for each delegate the recipient votes for. *)
Definition forRecipientDelegates (tx : Transaction) (callback : string -> async) : async :=
  if negb (isTransferType tx) then Resolve
  else
    let withRecipient (recipientId0 : option string) : async :=
      match recipientId0 with
      | None => Reject "NotFound"
      | Some key =>
          GetAccount key (fun recipient =>
            let delegateAddresses := delegateAddressesOf recipient in
            ForEach (map callback delegateAddresses) Resolve)
      end in
    if type tx =? TRANSACTION_TYPE_IN_TRANSFER then
      match inTransfer_dappId (asset tx) with
      | None => Reject "TypeError"
      | Some dappId =>
          GetTransaction dappId (fun dappTx => withRecipient (Some (senderId dappTx)))
      end
    else withRecipient (recipientId tx).

Definition applyAmount (tx : Transaction) : async :=
  forRecipientDelegates tx (updateDelegateVote (votesAdd (amount tx))).

Definition undoAmount (tx : Transaction) : async :=
  forRecipientDelegates tx (updateDelegateVote (votesSub (amount tx))).

Definition applyFee (tx : Transaction) : async :=
  GetAccount (senderId tx) (fun sender =>
    let delegateAddresses := delegateAddressesOf sender in
    ForEach (map (updateDelegateVote (votesSub (fee tx))) delegateAddresses) Resolve).

Definition undoFee (tx : Transaction) : async :=
  GetAccount (senderId tx) (fun sender =>
    let delegateAddresses := delegateAddressesOf sender in
    ForEach (map (updateDelegateVote (votesAdd (fee tx))) delegateAddresses) Resolve).

(** The addresses of the directives of a vote transaction with one sign. *)
Definition directives (sign : ascii) (votes0 : list string) : list string :=
  map (fun signedUpvote =>
         let publicKey := sliceFrom1 signedUpvote in
         getAddressFromPublicKey publicKey)
      (List.filter (hasSign sign) votes0).

Definition applyNewVote (tx : Transaction) : async :=
  if negb (type tx =? TRANSACTION_TYPE_VOTE) then Resolve
  else
    GetAccount (senderId tx) (fun sender =>
      match asset_votes (asset tx) with
      | None => Reject "TypeError"
      | Some votes0 =>
          let upvotes := directives "+" votes0 in
          let downvotes := directives "-" votes0 in
          ForEach (map (updateDelegateVote (votesAdd (balance sender))) upvotes)
            (ForEach (map (updateDelegateVote
                             (votesSubAdd (balance sender) (fee tx))) downvotes)
               Resolve)
      end).

Definition undoNewVote (tx : Transaction) : async :=
  if negb (type tx =? TRANSACTION_TYPE_VOTE) then Resolve
  else
    GetAccount (senderId tx) (fun sender =>
      match asset_votes (asset tx) with
      | None => Reject "TypeError"
      | Some votes0 =>
          let upvotes := directives "+" votes0 in
          let downvotes := directives "-" votes0 in
          ForEach (map (updateDelegateVote (votesSub (balance sender))) upvotes)
            (ForEach (map (updateDelegateVote
                             (votesAddSub (balance sender) (fee tx))) downvotes)
               Resolve)
      end).

(** [applyVote] and [undoVote] start their three families and return the
    promise [Promise.all] makes of the three. *)
Definition applyVote (tx : Transaction) : list async :=
  [applyFee tx; applyAmount tx; applyNewVote tx].

Definition undoVote (tx : Transaction) : list async :=
  [undoFee tx; undoAmount tx; undoNewVote tx].

End Families.

(** *** Running asynchronous calls *)

(** The store and the calls in flight.  The first [joined] calls are the
    ones whose promises the caller holds. *)
Record state : Type := mkState {
  store : StateStore;
  pool : list async;
  joined : nat
}.

Definition launch (calls : list async) (st : StateStore) : state :=
  {| store := st; pool := calls; joined := length calls |}.

(** Modelled from the spec: [store.get(bucket, key)] gives the value at
    the key and fails with NotFound if the key is absent. *)
Definition store_get {V : Type} (bucket : gmap string V) (key : string) : outcome V :=
  match bucket !! key with
  | Some v => Returned v
  | None => Thrown "NotFound"
  end.

(** Modelled from the spec: [store.set(bucket, key, value)] inserts the
    value or overwrites the one at the key. *)
Definition store_set {V : Type} (bucket : gmap string V) (key : string) (value : V)
  : gmap string V :=
  <[key := value]> bucket.

(** Modelled from the spec: [store.replace(bucket, oldKey, newKey, value)]
    removes the old key and inserts the new key with the value, in one
    step. *)
Definition store_replace {V : Type} (bucket : gmap string V)
    (oldKey newKey : string) (value : V) : gmap string V :=
  <[newKey := value]> (delete oldKey bucket).

(** One call performs the store operation it is waiting on.  The result is
    the store after it, the rest of the call, and the calls it started. *)
Definition perform (st : StateStore) (t : async) : StateStore * async * list async :=
  match t with
  | Resolve => (st, Resolve, [])
  | Reject e => (st, Reject e, [])
  | GetAccount key k =>
      match store_get (BUCKET_ADDRESS_ACCOUNT st) key with
      | Returned v => (st, k v, [])
      | Thrown e => (st, Reject e, [])
      end
  | GetTransaction key k =>
      match store_get (BUCKET_TX_ID_TX st) key with
      | Returned v => (st, k v, [])
      | Thrown e => (st, Reject e, [])
      end
  | SetAccount key value k =>
      ({| BUCKET_ADDRESS_ACCOUNT := store_set (BUCKET_ADDRESS_ACCOUNT st) key value;
          BUCKET_CANDIDATE := BUCKET_CANDIDATE st;
          BUCKET_TX_ID_TX := BUCKET_TX_ID_TX st |}, k, [])
  | Replace oldKey newKey value k =>
      ({| BUCKET_ADDRESS_ACCOUNT := BUCKET_ADDRESS_ACCOUNT st;
          BUCKET_CANDIDATE := store_replace (BUCKET_CANDIDATE st) oldKey newKey value;
          BUCKET_TX_ID_TX := BUCKET_TX_ID_TX st |}, k, [])
  | ForEach callbacks k => (st, k, callbacks)
  end.

(** The call at position [i] of the pool takes one step. *)
Definition step (i : nat) (s : state) : state :=
  match pool s !! i with
  | Some t =>
      let '(st', t', started) := perform (store s) t in
      {| store := st'; pool := <[i := t']> (pool s) ++ started; joined := joined s |}
  | None => s
  end.

(** A schedule names the call that moves at each step. *)
Definition run (schedule : list nat) (s : state) : state :=
  fold_left (fun s i => step i s) schedule s.

Definition isResolved (t : async) : bool :=
  match t with Resolve => true | _ => false end.

Definition isSettled (t : async) : bool :=
  match t with Resolve | Reject _ => true | _ => false end.

(** The promise the caller holds is resolved. *)
Definition resolved (s : state) : bool :=
  forallb isResolved (firstn (joined s) (pool s)).

(** No call is waiting on the store any more. *)
Definition settled (s : state) : bool :=
  forallb isSettled (pool s).

(** The weight of the delegate at [key], as a number. *)
Definition weightOf (st : StateStore) (key : string) : option Z :=
  delegate ← BUCKET_ADDRESS_ACCOUNT st !! key;
  BigNum.ofString (votesOrZero delegate).

End Blockchain.

(** ** Jobs: what the asynchronous calls of vote.ts do to the store

    The notions the statements about [run] are phrased with.  A job is one
    [forEach] callback: the address it updates and the arithmetic of its
    new [votes] string. *)

Module Jobs.
Import Blockchain.
Local Open Scope nat_scope.

(** One callback: the address it updates and the arithmetic that gives the
    new [votes] string from the account it reads. *)
Record job : Type := mkJob {
  job_address : string;
  job_newVotes : Account -> option string
}.

(** The callback as a call, and what is left of it after its read and
    after its write, when it has read the account [d0] and computed the
    string [w]. *)
Definition jobCall (j : job) : async :=
  updateDelegateVote (job_newVotes j) (job_address j).

Definition afterSet (d0 : Account) (w : string) : async :=
  Replace (candidateKey (templateString (votes d0)) (templateString (publicKey d0)))
          (candidateKey w (templateString (publicKey d0)))
          (address d0) Resolve.

Definition afterRead (j : job) (d0 : Account) (w : string) : async :=
  SetAccount (job_address j) (withVotes d0 w) (afterSet d0 w).

(** Two accounts that differ in [votes] at most. *)
Definition sameButVotes (d0 d : Account) : Prop :=
  address d = address d0 /\ publicKey d = publicKey d0 /\
  balance d = balance d0 /\
  votedDelegatesPublicKeys d = votedDelegatesPublicKeys d0.

(** [spawns st0 n t js]: the call [t] takes [n] steps of its own, in which
    it reads accounts and transactions of [st0], starts exactly the
    callbacks of the jobs [js], writes nothing, and resolves.  What it does
    may not depend on the [votes] of the accounts it reads, which the
    callbacks of other calls may have changed in the meantime. *)
Inductive spawns (st0 : StateStore) : nat -> async -> list job -> Prop :=
| spawns_resolve : spawns st0 0 Resolve []
| spawns_forEach n callbacks k js js' :
    callbacks = map jobCall js ->
    spawns st0 n k js' ->
    spawns st0 (S n) (ForEach callbacks k) (js ++ js')
| spawns_getAccount n key k d0 js :
    BUCKET_ADDRESS_ACCOUNT st0 !! key = Some d0 ->
    (forall d, sameButVotes d0 d -> spawns st0 n (k d) js) ->
    spawns st0 (S n) (GetAccount key k) js
| spawns_getTransaction n key k tx0 js :
    BUCKET_TX_ID_TX st0 !! key = Some tx0 ->
    spawns st0 n (k tx0) js ->
    spawns st0 (S n) (GetTransaction key k) js.

(** What a call in the pool is: a family with [n] steps and the jobs [js]
    still to start, or the callback of the job [j] with [n] steps left
    (3: before its read, 2: before its write, 1: before its rekey, 0:
    done). *)
Inductive role : Type :=
| Main (n : nat) (js : list job)
| Worker (n : nat) (j : job).

Definition roleJobs (r : role) : list job :=
  match r with Main _ js => js | Worker _ j => [j] end.

Definition roleSteps (r : role) : nat :=
  match r with Main n js => n + 3 * length js | Worker n _ => n end.

Definition totalSteps (roles : list role) : nat :=
  foldr (fun r acc => roleSteps r + acc) 0 roles.

(** The call [t] is in the role [r] when the account bucket is [accounts]:
    the accounts of the jobs a family has yet to start are those of
    [st0]; the account of a callback is the one of [st0] before its write
    and the updated one after it. *)
Definition plays (st0 : StateStore) (accounts : gmap string Account)
    (r : role) (t : async) : Prop :=
  match r with
  | Main n js =>
      spawns st0 n t js /\
      forall j, j ∈ js ->
        accounts !! job_address j = BUCKET_ADDRESS_ACCOUNT st0 !! job_address j
  | Worker n j =>
      exists d0 w,
        BUCKET_ADDRESS_ACCOUNT st0 !! job_address j = Some d0 /\
        job_newVotes j d0 = Some w /\
        match n with
        | 3 => t = jobCall j /\ accounts !! job_address j = Some d0
        | 2 => t = afterRead j d0 w /\ accounts !! job_address j = Some d0
        | 1 => t = afterSet d0 w /\ accounts !! job_address j = Some (withVotes d0 w)
        | 0 => t = Resolve /\ accounts !! job_address j = Some (withVotes d0 w)
        | _ => False
        end
  end.

(** The invariant of a run that began on the store [st0] and whose jobs
    are [J]: every call plays its role, the jobs of the roles are those of
    [J], the transaction bucket is untouched, the accounts no job names
    are untouched, and the other accounts differ from those of [st0] in
    [votes] at most. *)
Record consistent (st0 : StateStore) (J : list job) (roles : list role) (s : state)
  : Prop := mkConsistent {
  c_roles : Forall2 (plays st0 (BUCKET_ADDRESS_ACCOUNT (store s))) roles (pool s);
  c_jobs : concat (map roleJobs roles) ≡ₚ J;
  c_txs : BUCKET_TX_ID_TX (store s) = BUCKET_TX_ID_TX st0;
  c_other : forall a, a ∉ map job_address J ->
      BUCKET_ADDRESS_ACCOUNT (store s) !! a = BUCKET_ADDRESS_ACCOUNT st0 !! a;
  c_same : forall a d0, BUCKET_ADDRESS_ACCOUNT st0 !! a = Some d0 ->
      exists d, BUCKET_ADDRESS_ACCOUNT (store s) !! a = Some d /\ sameButVotes d0 d
}.

(** The jobs name pairwise different accounts, each of which is in the
    store and has a weight the arithmetic of the job can read. *)
Definition jobsValid (st0 : StateStore) (J : list job) : Prop :=
  NoDup (map job_address J) /\
  forall j, j ∈ J ->
    exists d0 w, BUCKET_ADDRESS_ACCOUNT st0 !! job_address j = Some d0 /\
                 job_newVotes j d0 = Some w.

(** A function that computes a [votes] string adds [delta] to the weight. *)
Definition shifts (g : Account -> option string) (delta : Z) : Prop :=
  forall d v, BigNum.ofString (votesOrZero d) = Some v ->
              g d = Some (BigNum.toString (v + delta)%Z).

(** The jobs that run the arithmetic [g] on each of [addresses]. *)
Definition jobsFor (g : Account -> option string) (addresses : list string) : list job :=
  map (fun a => mkJob a g) addresses.

Section FamilyShapes.
Context `{Cryptography}.

(** The shape [applyFee] and [undoFee] share, and the shape [applyNewVote]
    and [undoNewVote] share on a vote transaction with the directives
    [votes0]. *)
Definition feeCall (g : Account -> option string) (tx : Transaction) : async :=
  GetAccount (senderId tx) (fun account =>
    ForEach (map (updateDelegateVote g) (delegateAddressesOf account)) Resolve).

Definition voteCall (up down : string -> Account -> option string)
    (votes0 : list string) (tx : Transaction) : async :=
  GetAccount (senderId tx) (fun account =>
    ForEach (map (updateDelegateVote (up (balance account))) (directives "+" votes0))
      (ForEach (map (updateDelegateVote (down (balance account))) (directives "-" votes0))
         Resolve)).

End FamilyShapes.

(** The calls [calls], started together on the store [st], run to
    completion and leave a store that satisfies [P]: whatever steps were
    taken, some further steps settle every call, and whenever every call
    is settled the store satisfies [P]. *)
Definition settlesWith (calls : list async) (st : StateStore)
    (P : StateStore -> Prop) : Prop :=
  (forall schedule, exists more,
      settled (run (schedule ++ more) (launch calls st)) = true) /\
  (forall schedule,
      settled (run schedule (launch calls st)) = true ->
      P (store (run schedule (launch calls st)))).

End Jobs.

(** ** Sample data *)

Module Samples.
Import Transactions.

Definition alice (b : string) : Account :=
  {| address := "16313739661670634666L";
     publicKey := "c094ebee7ec0c50ebee32918655e089f6e1a604b83bcaa760293c61e0f18ab6f";
     secondPublicKey := None;
     balance := b |}.

Definition freshTx (f : Z) : BaseTransaction :=
  {| amount := 500; fee := f; id := "15822870279184933850";
     recipientId := Some "18160565574430594874L";
     recipientPublicKey := None;
     senderId := "16313739661670634666L";
     senderPublicKey := "c094ebee7ec0c50ebee32918655e089f6e1a604b83bcaa760293c61e0f18ab6f";
     signature := None; signatures := []; signSignature := None;
     timestamp := 38350076; type := 0; asset := "{}"; applied := false |}.

(** The same object after one [apply] call on a sender holding 1000. *)
Definition usedTx (f : Z) : BaseTransaction :=
  snd (apply (alice "1000") (freshTx f)).

(** A transaction with the given amount, timestamp and signatures. *)
Definition signedTx (a t : Z) (sg ssg : option string) : BaseTransaction :=
  {| amount := a; fee := 10; id := "15822870279184933850";
     recipientId := Some "18160565574430594874L";
     recipientPublicKey := None;
     senderId := "16313739661670634666L";
     senderPublicKey := "c094ebee7ec0c50ebee32918655e089f6e1a604b83bcaa760293c61e0f18ab6f";
     signature := sg; signatures := []; signSignature := ssg;
     timestamp := t; type := 0; asset := "{}"; applied := false |}.

Definition hexDigit (c : ascii) : option Z :=
  let n := Z.of_N (N_of_ascii c) in
  if (48 <=? n) && (n <=? 57) then Some (n - 48)
  else if (97 <=? n) && (n <=? 102) then Some (n - 87)
  else if (65 <=? n) && (n <=? 70) then Some (n - 55)
  else None.

(** [Buffer.from(hex, 'hex')]: one byte per pair of hexadecimal digits. *)
Fixpoint hexDecode (s : string) : list Byte.byte :=
  match s with
  | String a (String b rest) =>
      match hexDigit a, hexDigit b with
      | Some x, Some y => Buffer.byteOfZ (16 * x + y) :: hexDecode rest
      | _, _ => []
      end
  | _ => []
  end.

(** [new BigNum(s).toBuffer({ size })] *)
Definition bigNumberBytes (s : string) (size : nat) : list Byte.byte :=
  match BigNum.ofString s with
  | Some z =>
      match BigNum.toBuffer BigNum.Big size z with
      | Returned b => b
      | Thrown _ => []
      end
  | None => []
  end.

(** A schema that rejects a negative amount, and a verifier that accepts
    one signature. *)
Definition amountSchema (js : TransactionJSON) : SchemaReport :=
  match BigNum.ofString (json_amount js) with
  | Some z =>
      if z <? 0
      then {| valid := false;
              schemaErrors := Some [ {| dataPath := ".amount";
                                        message := "should match format amount" |} ] |}
      else {| valid := true; schemaErrors := None |}
  | None => {| valid := true; schemaErrors := None |}
  end.

Definition goodSignature : string := "a1b2c3d4".

#[export] Instance imports : Imports :=
  {| hexToBuffer := hexDecode;
     bigNumberToBuffer := bigNumberBytes;
     TRANSACTION_TYPES := [0; 1; 2; 3; 4; 5; 6; 7];
     validateTransaction := fun js => Returned (amountSchema js);
     verifyTransaction := fun js _ =>
       Returned match json_signature js with
                | Some sg => String.eqb sg goodSignature
                | None => false
                end |}.

(** A toy address derivation, a store builder and a small ledger: a sender
    with balance 1000 who votes for the delegate [dX], a recipient who
    votes for [dY], the creator of a dapp who votes for [dZ], and five
    delegates. *)
#[export] Instance crypto : Blockchain.Cryptography :=
  {| Blockchain.getAddressFromPublicKey := fun publicKey => (publicKey ++ "L")%string |}.

Definition account (publicKey0 balance0 : string) (votes0 : option string)
    (voted : option (list string)) : Blockchain.Account :=
  {| Blockchain.address := (publicKey0 ++ "L")%string;
     Blockchain.publicKey := Some publicKey0;
     Blockchain.balance := balance0;
     Blockchain.votes := votes0;
     Blockchain.votedDelegatesPublicKeys := voted |}.

Definition storeOf (accounts : list Blockchain.Account)
    (txs : list Blockchain.Transaction) : Blockchain.StateStore :=
  {| Blockchain.BUCKET_ADDRESS_ACCOUNT :=
       list_to_map (map (fun a => (Blockchain.address a, a)) accounts);
     Blockchain.BUCKET_CANDIDATE :=
       list_to_map
         (map (fun a =>
                 (Blockchain.candidateKey
                    (Blockchain.templateString (Blockchain.votes a))
                    (Blockchain.templateString (Blockchain.publicKey a)),
                  Blockchain.address a))
              (List.filter (fun a => truthy (Blockchain.votes a)) accounts));
     Blockchain.BUCKET_TX_ID_TX :=
       list_to_map (map (fun t => (Blockchain.id t, t)) txs) |}.

Definition ledgerTx (id0 : string) (type0 : Z) (amount0 fee0 : string)
    (sender0 : string) (recipient0 : option string)
    (asset0 : Blockchain.TransactionAsset) : Blockchain.Transaction :=
  {| Blockchain.id := id0; Blockchain.type := type0;
     Blockchain.amount := amount0; Blockchain.fee := fee0;
     Blockchain.senderId := sender0; Blockchain.recipientId := recipient0;
     Blockchain.asset := asset0 |}.

Definition noAsset : Blockchain.TransactionAsset :=
  {| Blockchain.inTransfer_dappId := None; Blockchain.asset_votes := None |}.

(** The transaction that registered the dapp; its sender is the creator. *)
Definition dappTx : Blockchain.Transaction :=
  ledgerTx "dapp1" 5 "0" "2500" "creatorL" None noAsset.

Definition ledger : Blockchain.StateStore :=
  storeOf
    [ account "sender" "1000" None (Some ["dX"]);
      account "recipient" "70" None (Some ["dY"]);
      account "creator" "300" None (Some ["dZ"]);
      account "dX" "0" (Some "5000") None;
      account "dY" "0" (Some "2000") None;
      account "dZ" "0" (Some "9") None;
      account "d1" "0" (Some "400") None;
      account "d2" "0" None None ]
    [ dappTx ].

(** A vote of the sender for [d1] and against [d2]; a vote for [d1] and
    against [dX], whom the sender votes for; an in-transfer of 500 to the
    dapp whose nominal recipient is the account [recipient]. *)
Definition voteTx : Blockchain.Transaction :=
  ledgerTx "tx1" 3 "0" "10" "senderL" None
    {| Blockchain.inTransfer_dappId := None;
       Blockchain.asset_votes := Some ["+d1"; "-d2"] |}.

Definition unvoteTx : Blockchain.Transaction :=
  ledgerTx "tx2" 3 "0" "10" "senderL" None
    {| Blockchain.inTransfer_dappId := None;
       Blockchain.asset_votes := Some ["+d1"; "-dX"] |}.

Definition inTransferTx : Blockchain.Transaction :=
  ledgerTx "tx3" 6 "500" "10" "senderL" (Some "recipientL")
    {| Blockchain.inTransfer_dappId := Some "dapp1";
       Blockchain.asset_votes := None |}.

End Samples.

(** ** lisk-transactions: the constructor and sequences of calls *)

Module Lifecycle.
Import Transactions.

(** The same object with another amount, and with another timestamp. *)
Definition setAmount (a : Z) (tx : BaseTransaction) : BaseTransaction :=
  {| amount := a; fee := fee tx; id := id tx;
     recipientId := recipientId tx;
     recipientPublicKey := recipientPublicKey tx;
     senderId := senderId tx; senderPublicKey := senderPublicKey tx;
     signature := signature tx; signatures := signatures tx;
     signSignature := signSignature tx; timestamp := timestamp tx;
     type := type tx; asset := asset tx; applied := applied tx |}.

Definition setTimestamp (t : Z) (tx : BaseTransaction) : BaseTransaction :=
  {| amount := amount tx; fee := fee tx; id := id tx;
     recipientId := recipientId tx;
     recipientPublicKey := recipientPublicKey tx;
     senderId := senderId tx; senderPublicKey := senderPublicKey tx;
     signature := signature tx; signatures := signatures tx;
     signSignature := signSignature tx; timestamp := t;
     type := type tx; asset := asset tx; applied := applied tx |}.

Section Constructor.

(** [normalizeInput] of utils is not among the sources: a check of the raw
    record that returns nothing and may throw. *)
Variable normalizeInput : TransactionJSON -> outcome unit.

(** [public constructor(rawTransaction: TransactionJSON)]; the field
    initializer sets [applied] to [false], and [new BigNum] of a string
    that is no numeral throws, as in [apply] and [undo]. *)
Definition constructor (rawTransaction : TransactionJSON) : outcome BaseTransaction :=
  match normalizeInput rawTransaction with
  | Thrown e => Thrown e
  | Returned _ =>
      match BigNum.ofString (json_amount rawTransaction) with
      | None => Thrown "not a number"
      | Some amount0 =>
          match BigNum.ofString (json_fee rawTransaction) with
          | None => Thrown "not a number"
          | Some fee0 =>
              Returned
                {| amount := amount0;
                   asset := json_asset rawTransaction;
                   fee := fee0;
                   id := json_id rawTransaction;
                   recipientId := json_recipientId rawTransaction;
                   recipientPublicKey := json_recipientPublicKey rawTransaction;
                   senderId := json_senderId rawTransaction;
                   senderPublicKey := json_senderPublicKey rawTransaction;
                   signature := json_signature rawTransaction;
                   signatures := json_signatures rawTransaction;
                   signSignature := json_signSignature rawTransaction;
                   timestamp := json_timestamp rawTransaction;
                   type := json_type rawTransaction;
                   applied := false |}
          end
      end
  end.

End Constructor.

(** The two calls that take and return an account. *)
Inductive stateCall : Type := DoApply | DoUndo.

(** A caller that passes the account each call returns to the next call:
    [apply] or [undo], in the order of the list, until a call throws. *)
Fixpoint thread (cs : list stateCall) (this : BaseTransaction) (account : Account)
  : outcome Account * BaseTransaction :=
  match cs with
  | [] => (Returned account, this)
  | c :: cs' =>
      let '(o, this') :=
        match c with
        | DoApply => apply account this
        | DoUndo => undo account this
        end in
      match o with
      | Returned r => thread cs' this' (sender r)
      | Thrown e => (Thrown e, this')
      end
  end.

Definition isApply (c : stateCall) : bool :=
  match c with DoApply => true | DoUndo => false end.

(** The number of [undo] calls in a list, and the number of those that
    come after the first [apply]. *)
Definition undos (cs : list stateCall) : Z :=
  Z.of_nat (length (List.filter (fun c => negb (isApply c)) cs)).

Fixpoint undosAfterApply (cs : list stateCall) : Z :=
  match cs with
  | [] => 0
  | DoApply :: cs' => undos cs'
  | DoUndo :: cs' => undosAfterApply cs'
  end.

End Lifecycle.

(** ** lisk-blockchain: more about the calls of vote.ts *)

Module Ledger.
Import Blockchain Jobs.

(** The value of the variable [recipientId] of [applyAmount] and
    [undoAmount] when they read the recipient account: the nominal
    recipient of a transfer or an out-transfer, and for an in-transfer the
    sender of the transaction [asset.inTransfer.dappId] names. *)
Definition recipientIdOf (st : StateStore) (tx : Transaction) : option string :=
  if type tx =? TRANSACTION_TYPE_IN_TRANSFER then
    dappId ← inTransfer_dappId (asset tx);
    dappTx ← BUCKET_TX_ID_TX st !! dappId;
    Some (senderId dappTx)
  else if (type tx =? TRANSACTION_TYPE_TRANSFER)
          || (type tx =? TRANSACTION_TYPE_OUT_TRANSFER)
  then recipientId tx
  else None.

(** The store [st'] differs from [st] in the [votes] of accounts and in
    the candidate bucket at most. *)
Definition sameButWeights (st st' : StateStore) : Prop :=
  (forall a d0, BUCKET_ADDRESS_ACCOUNT st !! a = Some d0 ->
     exists d, BUCKET_ADDRESS_ACCOUNT st' !! a = Some d /\ sameButVotes d0 d) /\
  BUCKET_TX_ID_TX st' = BUCKET_TX_ID_TX st.

Section Targets.
Context `{Cryptography}.

(** The delegates the amount family updates: those the recipient votes
    for, and none for a transaction that is not a transfer of some kind.
    [None] when the recipient cannot be read. *)
Definition amountDelegates (st : StateStore) (tx : Transaction) : option (list string) :=
  if isTransferType tx then
    key ← recipientIdOf st tx;
    recipient ← BUCKET_ADDRESS_ACCOUNT st !! key;
    Some (delegateAddressesOf recipient)
  else Some [].

End Targets.

(** Jobs in groups: the addresses one [forEach] runs over, the arithmetic
    of its callbacks, and the number that arithmetic adds to a weight. *)
Definition group : Type := (Account -> option string) * Z * list string.

Definition groupAddresses (gs : list group) : list string :=
  concat (map (fun g : group => snd g) gs).

Definition groupJobs (gs : list group) : list job :=
  concat (map (fun g : group => jobsFor (fst (fst g)) (snd g)) gs).

End Ledger.

Module Failures.
Import Blockchain Jobs.

(** [fails st0 e t]: the call [t] reads accounts and transactions of [st0]
    and then rejects with [e], before it writes anything or starts a
    callback.  As for [spawns], what it does may not depend on the [votes]
    of the accounts it reads. *)
Inductive fails (st0 : StateStore) : string -> async -> Prop :=
| fails_reject e : fails st0 e (Reject e)
| fails_noAccount key k :
    BUCKET_ADDRESS_ACCOUNT st0 !! key = None ->
    fails st0 "NotFound" (GetAccount key k)
| fails_account e key k d0 :
    BUCKET_ADDRESS_ACCOUNT st0 !! key = Some d0 ->
    (forall d, sameButVotes d0 d -> fails st0 e (k d)) ->
    fails st0 e (GetAccount key k)
| fails_noTransaction key k :
    BUCKET_TX_ID_TX st0 !! key = None ->
    fails st0 "NotFound" (GetTransaction key k)
| fails_transaction e key k tx0 :
    BUCKET_TX_ID_TX st0 !! key = Some tx0 ->
    fails st0 e (k tx0) ->
    fails st0 e (GetTransaction key k).

(** [t'] is [t], or [t] fails and [t'] is a call that does nothing. *)
Definition masks (st0 : StateStore) (t t' : async) : Prop :=
  t = t' \/ ((exists e, fails st0 e t) /\ t' = Resolve).

(** The store [st] has the accounts of [st0] up to their [votes], no
    others, and the transactions of [st0]. *)
Definition compatible (st0 st : StateStore) : Prop :=
  (forall key, BUCKET_ADDRESS_ACCOUNT st0 !! key = None ->
               BUCKET_ADDRESS_ACCOUNT st !! key = None) /\
  (forall key d0, BUCKET_ADDRESS_ACCOUNT st0 !! key = Some d0 ->
     exists d, BUCKET_ADDRESS_ACCOUNT st !! key = Some d /\ sameButVotes d0 d) /\
  BUCKET_TX_ID_TX st = BUCKET_TX_ID_TX st0.

(** The calls of [s] are those of [s'] up to failing ones, on the same
    store. *)
Definition masked (st0 : StateStore) (s s' : state) : Prop :=
  store s = store s' /\ joined s = joined s' /\
  Forall2 (masks st0) (pool s) (pool s').

End Failures.

Module Callbacks.
Import Blockchain Jobs.

(** The store after the write and after the rekey of a callback that read
    the account [d0] and computed the string [w]. *)
Definition written (st : StateStore) (a : string) (d0 : Account) (w : string)
  : StateStore :=
  {| BUCKET_ADDRESS_ACCOUNT := store_set (BUCKET_ADDRESS_ACCOUNT st) a (withVotes d0 w);
     BUCKET_CANDIDATE := BUCKET_CANDIDATE st;
     BUCKET_TX_ID_TX := BUCKET_TX_ID_TX st |}.

Definition rekeyed (st : StateStore) (d0 : Account) (w : string) : StateStore :=
  {| BUCKET_ADDRESS_ACCOUNT := BUCKET_ADDRESS_ACCOUNT st;
     BUCKET_CANDIDATE :=
       store_replace (BUCKET_CANDIDATE st)
         (candidateKey (templateString (votes d0)) (templateString (publicKey d0)))
         (candidateKey w (templateString (publicKey d0)))
         (address d0);
     BUCKET_TX_ID_TX := BUCKET_TX_ID_TX st |}.

End Callbacks.

(** ** lisk-blockchain: the candidate bucket *)

Module Index.
Import Blockchain Jobs.

(** The keys [updateCandidateKey] replaces for a callback that read the
    account [d0] and computed the string [w]. *)
Definition oldKey (d0 : Account) : string :=
  candidateKey (templateString (votes d0)) (templateString (publicKey d0)).

Definition newKey (d0 : Account) (w : string) : string :=
  candidateKey w (templateString (publicKey d0)).

(** The jobs whose callbacks are done. *)
Definition doneJob (r : role) : list job :=
  match r with
  | Worker 0 j => [j]
  | _ => []
  end.

Definition doneJobs (roles : list role) : list job :=
  concat (map doneJob roles).

(** The candidate bucket [candidates] is the one of [st0] after the rekeys
    of the jobs [D]: the new key of each job maps to the address of its
    delegate, its old key is gone unless it is the new one, and every key
    that is no key of these jobs is as in [st0]. *)
Definition rekeys (st0 : StateStore) (D : list job) (candidates : gmap string string)
  : Prop :=
  (forall j d0 w, j ∈ D ->
     BUCKET_ADDRESS_ACCOUNT st0 !! job_address j = Some d0 ->
     job_newVotes j d0 = Some w ->
     candidates !! newKey d0 w = Some (address d0) /\
     (oldKey d0 <> newKey d0 w -> candidates !! oldKey d0 = None)) /\
  (forall k,
     (forall j d0 w, j ∈ D ->
        BUCKET_ADDRESS_ACCOUNT st0 !! job_address j = Some d0 ->
        job_newVotes j d0 = Some w ->
        k <> oldKey d0 /\ k <> newKey d0 w) ->
     candidates !! k = BUCKET_CANDIDATE st0 !! k).

(** The new key of a job is no key of another job. *)
Definition distinctKeys (st0 : StateStore) (J : list job) : Prop :=
  forall j j' d0 d0' w w', j ∈ J -> j' ∈ J ->
    job_address j <> job_address j' ->
    BUCKET_ADDRESS_ACCOUNT st0 !! job_address j = Some d0 ->
    BUCKET_ADDRESS_ACCOUNT st0 !! job_address j' = Some d0' ->
    job_newVotes j d0 = Some w ->
    job_newVotes j' d0' = Some w' ->
    newKey d0 w <> newKey d0' w' /\ newKey d0 w <> oldKey d0'.

(** The public key of the delegate at an address, as the candidate key
    has it. *)
Definition publicKeyAt (st : StateStore) (a : string) : option string :=
  d ← BUCKET_ADDRESS_ACCOUNT st !! a;
  Some (templateString (publicKey d)).

(** In the store [st1] the candidate bucket has followed the accounts at
    [addresses]: the key of each of these accounts as it is now maps to
    its address, the key it had in [st] is gone unless it is the same, and
    every key that is neither is as it was in [st]. *)
Definition reindexed (st : StateStore) (addresses : list string) (st1 : StateStore)
  : Prop :=
  (forall a d0, a ∈ addresses -> BUCKET_ADDRESS_ACCOUNT st !! a = Some d0 ->
     exists d1,
       BUCKET_ADDRESS_ACCOUNT st1 !! a = Some d1 /\
       BUCKET_CANDIDATE st1 !! oldKey d1 = Some (address d1) /\
       (oldKey d0 <> oldKey d1 -> BUCKET_CANDIDATE st1 !! oldKey d0 = None)) /\
  (forall k,
     (forall a d0 d1, a ∈ addresses ->
        BUCKET_ADDRESS_ACCOUNT st !! a = Some d0 ->
        BUCKET_ADDRESS_ACCOUNT st1 !! a = Some d1 ->
        k <> oldKey d0 /\ k <> oldKey d1) ->
     BUCKET_CANDIDATE st1 !! k = BUCKET_CANDIDATE st !! k).

Section Targets.
Context `{Cryptography}.

(** The delegates the directives of a vote name, and the delegates
    [applyVote] and [undoVote] update: those the sender votes for, those
    the recipient votes for, and those the directives name.  [None] when a
    family cannot read what it needs. *)
Definition voteDelegates (tx : Transaction) : option (list string) :=
  if type tx =? TRANSACTION_TYPE_VOTE then
    votes0 ← asset_votes (asset tx);
    Some (directives "+" votes0 ++ directives "-" votes0)
  else Some [].

Definition targets (st : StateStore) (tx : Transaction) : option (list string) :=
  sender ← BUCKET_ADDRESS_ACCOUNT st !! senderId tx;
  paid ← Ledger.amountDelegates st tx;
  named ← voteDelegates tx;
  Some (delegateAddressesOf sender ++ paid ++ named).

End Targets.

End Index.

(** ** More sample data *)

Module Cases.
Import Samples.

(** A [normalizeInput] that accepts every record. *)
Definition accept : Transactions.TransactionJSON -> outcome unit :=
  fun _ => Returned tt.

(** A transaction that differs from [signedTx 500 100 None None] in the
    identifier, the sender address, the fee, the list of signatures, the
    asset and the flag. *)
Definition lookalike : Transactions.BaseTransaction :=
  {| Transactions.amount := 500; Transactions.fee := 77;
     Transactions.id := "4711";
     Transactions.recipientId := Some "18160565574430594874L";
     Transactions.recipientPublicKey := Some "ab";
     Transactions.senderId := "1L";
     Transactions.senderPublicKey :=
       "c094ebee7ec0c50ebee32918655e089f6e1a604b83bcaa760293c61e0f18ab6f";
     Transactions.signature := None; Transactions.signatures := ["cd"];
     Transactions.signSignature := None;
     Transactions.timestamp := 100; Transactions.type := 0;
     Transactions.asset := "{data}"; Transactions.applied := true |}.

(** The transaction [signedTx 500 38350076 None None] sent to an address
    whose numeral does not fit eight bytes. *)
Definition wideRecipientTx : Transactions.BaseTransaction :=
  {| Transactions.amount := 500; Transactions.fee := 10;
     Transactions.id := "15822870279184933850";
     Transactions.recipientId := Some "99999999999999999999L";
     Transactions.recipientPublicKey := None;
     Transactions.senderId := "16313739661670634666L";
     Transactions.senderPublicKey :=
       "c094ebee7ec0c50ebee32918655e089f6e1a604b83bcaa760293c61e0f18ab6f";
     Transactions.signature := None; Transactions.signatures := [];
     Transactions.signSignature := None;
     Transactions.timestamp := 38350076; Transactions.type := 0;
     Transactions.asset := "{}"; Transactions.applied := false |}.

(** A transfer of 500 from the sender to the account [recipient]; the same
    transfer from an address that has no account; and the same to an
    address that has no account. *)
Definition transferTx : Blockchain.Transaction :=
  ledgerTx "tx4" 0 "500" "10" "senderL" (Some "recipientL") noAsset.

Definition orphanTx : Blockchain.Transaction :=
  ledgerTx "tx5" 0 "500" "10" "ghostL" (Some "recipientL") noAsset.

Definition strayTx : Blockchain.Transaction :=
  ledgerTx "tx6" 0 "500" "10" "senderL" (Some "nobodyL") noAsset.

(** A ledger in which the sender and the recipient vote for the same
    delegate, and one in which the delegate the sender votes for has no
    account. *)
Definition sharedLedger : Blockchain.StateStore :=
  storeOf
    [ account "sender" "1000" None (Some ["dX"]);
      account "recipient" "70" None (Some ["dX"]);
      account "dX" "0" (Some "5000") None ]
    [].

Definition bareLedger : Blockchain.StateStore :=
  storeOf [ account "sender" "1000" None (Some ["dQ"]) ] [].

End Cases.

(* ================================================================== *)
(** * Properties *)
(* ================================================================== *)

Lemma BigNum_ofString_toString (z : Z) : BigNum.ofString (BigNum.toString z) = Some z.
Proof.
  unfold BigNum.ofString, BigNum.toString.
  rewrite NilZero.isi.
  - simpl. now rewrite DecimalZ.of_to.
  - destruct z; simpl; try discriminate.
    intros H; injection H as H. now apply DecimalPos.Unsigned.to_uint_nonnil in H.
  - destruct z; simpl; try discriminate.
    intros H; injection H as H. now apply DecimalPos.Unsigned.to_uint_nonnil in H.
Qed.

Lemma BigNum_toString_inj (a b : Z) : BigNum.toString a = BigNum.toString b -> a = b.
Proof.
  intros H. apply (f_equal BigNum.ofString) in H.
  rewrite !BigNum_ofString_toString in H. congruence.
Qed.

Lemma BigNum_canonical_spec (s : string) :
  BigNum.canonical s = true <-> exists z, BigNum.ofString s = Some z /\ BigNum.toString z = s.
Proof.
  unfold BigNum.canonical. split.
  - destruct (BigNum.ofString s) as [z|]; [|discriminate].
    intros H. apply String.eqb_eq in H. eauto.
  - intros (z & -> & H). now apply String.eqb_eq.
Qed.

(** *** Byte encodings *)

Lemma byteToZ_byteOfZ (z : Z) : Buffer.byteToZ (Buffer.byteOfZ z) = z mod 256.
Proof.
  unfold Buffer.byteToZ, Buffer.byteOfZ.
  assert (Hr : 0 <= z mod 256 < 256) by (apply Z.mod_pos_bound; lia).
  destruct (Byte.of_N (Z.to_N (z mod 256))) as [b|] eqn:E.
  - apply Byte.to_of_N in E. rewrite E. lia.
  - apply Byte.of_N_None_iff in E. lia.
Qed.

Lemma littleEndian_S (n : nat) (z : Z) :
  Buffer.littleEndian (S n) z
  = Buffer.byteOfZ z :: Buffer.littleEndian n (Z.shiftr z 8).
Proof.
  unfold Buffer.littleEndian. rewrite <- cons_seq, <- seq_shift. cbn [map].
  rewrite List.map_map. cbn [Z.of_nat Z.mul Z.shiftr]. rewrite Z.shiftr_0_r.
  f_equal.
  apply map_ext. intros i. f_equal. rewrite Z.shiftr_shiftr by lia. f_equal. lia.
Qed.

Lemma leToZ_littleEndian (n : nat) (z : Z) :
  Buffer.leToZ (Buffer.littleEndian n z) = z mod 2 ^ (8 * Z.of_nat n).
Proof.
  revert z. induction n as [|n IH]; intros z.
  - cbn. now rewrite Z.mod_1_r.
  - rewrite littleEndian_S. cbn [Buffer.leToZ fold_right].
    fold (Buffer.leToZ (Buffer.littleEndian n (Z.shiftr z 8))).
    rewrite IH, byteToZ_byteOfZ, Z.shiftr_div_pow2 by lia.
    replace (8 * Z.of_nat (S n)) with (8 + 8 * Z.of_nat n) by lia.
    rewrite Z.pow_add_r by lia.
    change (2 ^ 8) with 256.
    rewrite Z.rem_mul_r by lia. reflexivity.
Qed.

Lemma length_littleEndian (n : nat) (z : Z) : length (Buffer.littleEndian n z) = n.
Proof. unfold Buffer.littleEndian. now rewrite length_map, length_seq. Qed.

Lemma length_bigEndian (n : nat) (z : Z) : length (Buffer.bigEndian n z) = n.
Proof. unfold Buffer.bigEndian. now rewrite length_map, length_seq. Qed.

Lemma rev_bigEndian (n : nat) (z : Z) :
  rev (Buffer.bigEndian n z) = Buffer.littleEndian n z.
Proof.
  unfold Buffer.bigEndian, Buffer.littleEndian.
  rewrite <- map_rev.
  apply (nth_ext _ _ Byte.x00 Byte.x00).
  - now rewrite !length_map, length_rev.
  - intros i Hi. rewrite length_map, length_rev, length_seq in Hi.
    rewrite (nth_indep _ _ (Buffer.byteOfZ (Z.shiftr z (8 * (Z.of_nat n - 1 - Z.of_nat 0)))))
      by (now rewrite length_map, length_rev, length_seq).
    rewrite (map_nth (fun i => Buffer.byteOfZ (Z.shiftr z (8 * (Z.of_nat n - 1 - Z.of_nat i))))
                     (rev (seq 0 n)) 0%nat i).
    rewrite rev_nth by (now rewrite length_seq).
    rewrite length_seq, seq_nth by lia.
    rewrite (nth_indep _ _ (Buffer.byteOfZ (Z.shiftr z (8 * Z.of_nat 0))))
      by (now rewrite length_map, length_seq).
    rewrite (map_nth (fun i => Buffer.byteOfZ (Z.shiftr z (8 * Z.of_nat i))) (seq 0 n) 0%nat i).
    rewrite seq_nth by lia. do 2 f_equal. lia.
Qed.

Lemma hexLength_bounds (z : Z) : 0 <= z < 2 ^ 64 -> 1 <= BigNum.hexLength z <= 16.
Proof.
  intros Hz. unfold BigNum.hexLength.
  destruct (Z.eqb_spec z 0) as [|Hnz]; [lia|].
  assert (Hl : 0 <= Z.log2 z < 64).
  { split; [apply Z.log2_nonneg|]. apply Z.log2_lt_pow2; lia. }
  assert (0 <= Z.log2 z / 4 < 16).
  { split; [apply Z.div_pos; lia|]. apply Z.div_lt_upper_bound; lia. }
  lia.
Qed.

Lemma toBuffer_little_8 (z : Z) :
  0 <= z < 2 ^ 64 ->
  BigNum.toBuffer BigNum.Little 8 z = Returned (Buffer.littleEndian 8 z).
Proof.
  intros Hz. unfold BigNum.toBuffer.
  destruct (Z.ltb_spec z 0) as [|_]; [lia|].
  pose proof (hexLength_bounds z Hz) as Hh.
  change (Z.of_nat 8) with 8.
  replace ((BigNum.hexLength z + 2 * 8 - 1) / (2 * 8)) with 1.
  - change (Z.to_nat 1 * 8)%nat with 8%nat.
    change (Z.to_nat 1) with 1%nat.
    cbn [BigNum.chunks map concat].
    rewrite firstn_all2 by (now rewrite length_bigEndian).
    rewrite rev_bigEndian. now rewrite app_nil_r.
  - apply Z.div_unique with (r := BigNum.hexLength z - 1); lia.
Qed.

Lemma writeIntLE_fresh (v : Z) :
  - 2 ^ 31 <= v < 2 ^ 31 ->
  Buffer.writeIntLE (Buffer.alloc 4 0) v 0 4 = Returned (Buffer.littleEndian 4 v).
Proof.
  intros Hv. unfold Buffer.writeIntLE.
  change (2 ^ (8 * Z.of_nat 4 - 1)) with (2 ^ 31).
  destruct (Z.leb_spec (- 2 ^ 31) v); [|lia].
  destruct (Z.ltb_spec v (2 ^ 31)); [|lia].
  cbn [andb Nat.leb Nat.add Buffer.alloc repeat length firstn skipn app].
  now rewrite app_nil_r.
Qed.

Section BaseTransactionState.
Import Transactions.

Lemma withBalance_restore (s : Account) (b : string) :
  withBalance (withBalance s b) (balance s) = s.
Proof. now destruct s. Qed.

Lemma apply_applied (s : Account) (tx : BaseTransaction) :
  applied tx = true -> apply s tx = (Returned {| sender := s |}, tx).
Proof. unfold apply. now intros ->. Qed.

Lemma apply_fresh (s : Account) (tx : BaseTransaction) (b : Z) :
  applied tx = false -> BigNum.ofString (balance s) = Some b ->
  apply s tx =
    (Returned {| sender := withBalance s (BigNum.toString (b - fee tx)) |},
     setApplied true tx).
Proof. unfold apply. now intros -> ->. Qed.

Lemma undo_applied (s : Account) (tx : BaseTransaction) (b : Z) :
  applied tx = true -> BigNum.ofString (balance s) = Some b ->
  undo s tx =
    (Returned {| sender := withBalance s (BigNum.toString (b + fee tx)) |}, tx).
Proof. unfold undo. now intros -> ->. Qed.

Lemma invoke_applied (c : call) (tx : BaseTransaction) :
  applied tx = true -> invoke c tx = tx.
Proof.
  intros H. destruct c; simpl; trivial.
  - now rewrite apply_applied.
  - unfold undo. rewrite H. simpl. now destruct (BigNum.ofString _).
Qed.

Lemma invokeAll_applied (cs : list call) (tx : BaseTransaction) :
  applied tx = true -> invokeAll cs tx = tx.
Proof.
  unfold invokeAll. induction cs as [|c cs IH]; simpl; intros H; trivial.
  rewrite invoke_applied by assumption. now apply IH.
Qed.



(** C1, as amended.  For a transaction whose flag is not yet set and a
    sender whose balance is a canonical decimal numeral of a number [b],
    with [b] and [b - fee] both of a magnitude below [10^21], where the
    library prints plain decimal numerals: [apply] returns an account
    holding the numeral of [b - fee] and sets the flag, and [undo] on that
    account returns the original sender, the balance string included. *)
Theorem undo_apply_restores (tx : BaseTransaction) (s : Account) (b : Z) :
  applied tx = false ->
  BigNum.canonical (balance s) = true ->
  BigNum.ofString (balance s) = Some b ->
  BigNum.plain b = true ->
  BigNum.plain (b - fee tx) = true ->
  exists r1 : StateReturn,
    apply s tx = (Returned r1, setApplied true tx) /\
    balance (sender r1) = BigNum.toString (b - fee tx) /\
    undo (sender r1) (setApplied true tx)
      = (Returned {| sender := s |}, setApplied true tx).
Proof.
  intros Hfresh Hcan Hb _ _.
  apply BigNum_canonical_spec in Hcan as (b' & Hb' & Hs).
  assert (b' = b) as -> by congruence.
  exists {| sender := withBalance s (BigNum.toString (b - fee tx)) |}.
  split; [now apply apply_fresh|]. split; [reflexivity|].
  cbn [sender]. erewrite undo_applied; [|reflexivity|apply BigNum_ofString_toString].
  cbn [balance withBalance fee setApplied address publicKey secondPublicKey].
  replace (b - fee tx + fee tx) with b by lia.
  rewrite Hs. now destruct s.
Qed.

Lemma undo_apply_restores_witness :
  exists r1 : StateReturn,
    apply (Samples.alice "1000") (Samples.freshTx 10)
      = (Returned r1, setApplied true (Samples.freshTx 10)) /\
    balance (sender r1) = "990" /\
    undo (sender r1) (setApplied true (Samples.freshTx 10))
      = (Returned {| sender := Samples.alice "1000" |},
         setApplied true (Samples.freshTx 10)).
Proof.
  apply (undo_apply_restores (Samples.freshTx 10) (Samples.alice "1000") 1000);
    reflexivity.
Defined.

(** C1 fails as stated.  On a transaction object that an earlier [apply]
    has already marked, [apply] returns the sender as it is and [undo] adds
    the fee: a sender holding 1000 comes back holding 1010.  On a fresh
    transaction and a sender whose balance is written [0100], the balance
    comes back as [100]. *)
Lemma undo_apply_counterexample :
  (exists r1 r2 : StateReturn,
      apply (Samples.alice "1000") (Samples.usedTx 10)
        = (Returned r1, Samples.usedTx 10) /\
      undo (sender r1) (Samples.usedTx 10) = (Returned r2, Samples.usedTx 10) /\
      balance (sender r2) = "1010" /\
      sender r2 <> Samples.alice "1000") /\
  (exists (r1 r2 : StateReturn) (tx1 : BaseTransaction),
      apply (Samples.alice "0100") (Samples.freshTx 10) = (Returned r1, tx1) /\
      undo (sender r1) tx1 = (Returned r2, tx1) /\
      balance (sender r2) = "100" /\
      sender r2 <> Samples.alice "0100").
Proof.
  split.
  - do 2 eexists. repeat split; try reflexivity. discriminate.
  - do 3 eexists. repeat split; try reflexivity. discriminate.
Qed.

(** C10.  Once [apply] has set the private flag (here: [apply] on a sender
    whose balance reads as a number, from any state of the object), no
    sequence of calls resets it: the object stays as it is.  From then on,
    and so after an [apply] followed by an [undo], every [apply] returns
    its argument as it is, and every [undo] returns its argument with the
    fee added to the balance; with a fee other than zero a second [undo]
    therefore changes the balance again. *)
Theorem applied_flag_monotone
    (tx : BaseTransaction) (s0 : Account) (b0 : Z) (later : list call) :
  BigNum.ofString (balance s0) = Some b0 ->
  let tx1 := snd (apply s0 tx) in
  let tx' := invokeAll later tx1 in
  applied tx1 = true /\
  applied tx' = true /\
  fee tx' = fee tx /\
  (forall s : Account, apply s tx' = (Returned {| sender := s |}, tx')) /\
  (forall (s : Account) (b : Z),
      BigNum.ofString (balance s) = Some b ->
      undo s tx'
        = (Returned {| sender := withBalance s (BigNum.toString (b + fee tx)) |}, tx')) /\
  (fee tx <> 0 ->
   forall (s : Account) (b : Z),
      BigNum.ofString (balance s) = Some b ->
      exists r1 r2 : StateReturn,
        undo s tx' = (Returned r1, tx') /\
        undo (sender r1) tx' = (Returned r2, tx') /\
        balance (sender r2) = BigNum.toString (b + fee tx + fee tx) /\
        balance (sender r2) <> balance (sender r1)).
Proof.
  intros Hb0 tx1 tx'.
  assert (H1 : applied tx1 = true /\ fee tx1 = fee tx).
  { subst tx1. unfold apply. destruct (applied tx) eqn:Ha; [now simpl|].
    now rewrite Hb0. }
  destruct H1 as [H1 Hfee].
  assert (Heq : tx' = tx1) by (now apply invokeAll_applied).
  rewrite Heq.
  assert (Hundo : forall s b, BigNum.ofString (balance s) = Some b ->
            undo s tx1 = (Returned {| sender := withBalance s (BigNum.toString (b + fee tx)) |}, tx1)).
  { intros s b Hb. rewrite (undo_applied s tx1 b H1 Hb). now rewrite Hfee. }
  repeat split; trivial.
  - intros s. now apply apply_applied.
  - intros Hnz s b Hb.
    exists {| sender := withBalance s (BigNum.toString (b + fee tx)) |}.
    eexists. split; [now apply Hundo|]. split.
    + apply Hundo. cbn [sender balance withBalance].
      apply BigNum_ofString_toString.
    + cbn [sender balance withBalance]. split; [reflexivity|].
      intros H. apply BigNum_toString_inj in H. lia.
Qed.

Lemma applied_flag_monotone_witness :
  let tx1 := snd (apply (Samples.alice "1000") (Samples.freshTx 10)) in
  let tx' :=
    invokeAll [CallUndo (Samples.alice "990"); CallGetBytes;
               CallApply (Samples.alice "1000")] tx1 in
  applied tx' = true /\
  undo (Samples.alice "1000") tx'
    = (Returned {| sender := Samples.alice "1010" |}, tx').
Proof.
  pose proof (applied_flag_monotone (Samples.freshTx 10) (Samples.alice "1000")
                1000 [CallUndo (Samples.alice "990"); CallGetBytes;
                      CallApply (Samples.alice "1000")] eq_refl) as H.
  cbv zeta in H. destruct H as (_ & H2 & _ & _ & H5 & _).
  split; [exact H2|]. exact (H5 (Samples.alice "1000") 1000 eq_refl).
Defined.

End BaseTransactionState.

(** *** The signable bytes and the validation report *)

Section SignableBytes.
Import Transactions.
Context `{Imports}.

Lemma toJSON_signature (this : BaseTransaction) :
  json_signature (toJSON this)
  = if truthy (signature this) then signature this else None.
Proof.
  unfold toJSON.
  destruct (truthy (signature this)); [|reflexivity].
  now destruct (truthy (signSignature this)).
Qed.

Lemma toJSON_signSignature (this : BaseTransaction) :
  json_signSignature (toJSON this)
  = if truthy (signature this) && truthy (signSignature this)
    then signSignature this else None.
Proof.
  unfold toJSON.
  destruct (truthy (signature this)); [|reflexivity].
  now destruct (truthy (signSignature this)).
Qed.

Lemma toJSON_type (this : BaseTransaction) : json_type (toJSON this) = type this.
Proof.
  unfold toJSON.
  destruct (truthy (signature this)); [|reflexivity].
  now destruct (truthy (signSignature this)).
Qed.

Lemma toJSON_setFee_signatures (f : Z) (this : BaseTransaction) :
  json_signature (toJSON (setFee f this)) = json_signature (toJSON this) /\
  json_signSignature (toJSON (setFee f this)) = json_signSignature (toJSON this).
Proof. now rewrite !toJSON_signature, !toJSON_signSignature. Qed.

Lemma getBytes_setFee (f : Z) (this : BaseTransaction) :
  getBytes (setFee f this) = getBytes this.
Proof.
  unfold getBytes.
  destruct (toJSON_setFee_signatures f this) as [-> ->].
  reflexivity.
Qed.

(** C3, as amended.  The helpers [hexToBuffer] and [bigNumberToBuffer] of
    lisk-cryptography are taken as functions that return.  For a timestamp
    that fits a signed 32-bit integer and an amount below 2^64 that is not
    negative, [getBytes] returns the concatenation of: the type byte, the
    four bytes of the timestamp least significant first, the bytes
    [hexToBuffer] gives for the sender public key, the recipient field,
    the eight bytes of the amount least significant first, the bytes of
    the primary signature (none if it is absent or empty), and the bytes
    of the secondary signature if the primary signature is present too
    (none otherwise).  The recipient field is eight zero bytes when the
    recipient is absent or empty, and otherwise the buffer
    [bigNumberToBuffer] returns for the recipient numeral and the size 8,
    however long it is.  This is the layout of the specification whenever
    the primary signature is present or the secondary one is absent.  In
    case the key buffer has 32 bytes and the buffer of the recipient
    numeral has 8, the signatures start at byte 53.  The fee does not
    contribute, and [getBytes] assigns no field, so a second call returns
    the same bytes. *)
Theorem getBytes_layout (this : BaseTransaction) :
  - 2 ^ 31 <= timestamp this < 2 ^ 31 ->
  0 <= amount this < 2 ^ 64 ->
  getBytes this = Returned (emittedLayout this) /\
  (truthy (signature this) = true \/ truthy (signSignature this) = false ->
   getBytes this = Returned (signableLayout this)) /\
  (length (Buffer.littleEndian 4 (timestamp this)) = 4%nat /\
   Buffer.leToZ (Buffer.littleEndian 4 (timestamp this))
     = timestamp this mod 2 ^ 32) /\
  (length (Buffer.littleEndian 8 (amount this)) = 8%nat /\
   Buffer.leToZ (Buffer.littleEndian 8 (amount this)) = amount this) /\
  (length (hexToBuffer (senderPublicKey this)) = 32%nat ->
   (truthy (recipientId this) = true ->
    length (bigNumberToBuffer (sliceInit (default "" (recipientId this))) 8) = 8%nat) ->
   length (emittedLayout this)
   = (53 + length (signatureBytes (signature this))
      + length (if truthy (signature this)
                then signatureBytes (signSignature this) else []))%nat) /\
  (forall f : Z, getBytes (setFee f this) = getBytes this) /\
  getBytes (invoke CallGetBytes this) = getBytes this.
Proof.
  intros Ht Ha.
  assert (Hget : getBytes this = Returned (emittedLayout this)).
  { unfold getBytes, emittedLayout, layoutWith, signatureBytes.
    rewrite writeIntLE_fresh by assumption.
    change BYTESIZES.AMOUNT with 8%nat.
    rewrite toBuffer_little_8 by assumption.
    rewrite toJSON_signature, toJSON_signSignature.
    f_equal. cbn [concat Buffer.alloc BYTESIZES.TYPE repeat].
    rewrite app_nil_r.
    change ([Buffer.byteOfZ (type this)] ++ ?l) with (Buffer.byteOfZ (type this) :: l).
    cbn [app]. f_equal. f_equal. f_equal. f_equal; [|f_equal; f_equal].
    - destruct (recipientId this) as [r|]; [|reflexivity].
      cbn [default]. now destruct (truthy (Some r)).
    - destruct (signature this) as [sg|]; [|reflexivity].
      cbn [default]. destruct (truthy (Some sg)) eqn:E; [|reflexivity].
      cbv beta iota. now rewrite E.
    - destruct (truthy (signature this)); [|reflexivity]. cbn [andb].
      destruct (signSignature this) as [sg|]; [|reflexivity].
      cbn [default]. destruct (truthy (Some sg)) eqn:E; [|reflexivity].
      cbv beta iota. now rewrite E. }
  split; [exact Hget|]. split; [|split; [|split; [|split; [|split]]]].
  - intros Hsig. rewrite Hget. f_equal. unfold emittedLayout, signableLayout.
    f_equal. destruct Hsig as [-> | Hs]; [reflexivity|].
    unfold signatureBytes. rewrite Hs. now destruct (truthy (signature this)).
  - split; [apply length_littleEndian|]. now rewrite leToZ_littleEndian.
  - split; [apply length_littleEndian|]. rewrite leToZ_littleEndian.
    apply Z.mod_small. exact Ha.
  - intros Hpk Hrid. unfold emittedLayout, layoutWith.
    rewrite !length_app, !length_littleEndian, Hpk. cbn [length].
    assert (Hr : length (if truthy (recipientId this)
                         then bigNumberToBuffer (sliceInit (default "" (recipientId this))) 8
                         else repeat Byte.x00 8) = 8%nat).
    { destruct (truthy (recipientId this)); [now apply Hrid|reflexivity]. }
    rewrite Hr. lia.
  - intros f. apply getBytes_setFee.
  - reflexivity.
Qed.

(** C7, as amended.  [validate] throws when, and only when, a validator
    it calls throws, and it throws the same error; otherwise it returns a
    report that names one kind of failure only.  An unrecognized type
    gives the type error alone, and no validator is called.  For a
    recognized type [validateTransaction] is called, and what it throws is
    thrown.  Once it has returned, a missing (or empty) primary signature
    gives the missing-signature error alone: the violations the schema
    found are left out, and [verifyTransaction] is not called.  With a
    primary signature [verifyTransaction] is called, and what it throws is
    thrown.  Once it has returned, the errors are exactly the schema
    violations, one per violation and in their order, and a signature
    that does not verify clears [validated] without adding an error. *)
Theorem validate_report (this : BaseTransaction) :
  (existsb (Z.eqb (type this)) TRANSACTION_TYPES = false ->
   validate this
   = Returned
       {| validated := false;
          errors := Some [mkTransactionError "Invalid transaction type." None] |}) /\
  (existsb (Z.eqb (type this)) TRANSACTION_TYPES = true ->
   forall e : string,
     validateTransaction (toJSON this) = Thrown e ->
     validate this = Thrown e) /\
  (existsb (Z.eqb (type this)) TRANSACTION_TYPES = true ->
   forall report : SchemaReport,
     validateTransaction (toJSON this) = Returned report ->
     truthy (signature this) = false ->
     validate this
     = Returned
         {| validated := false;
            errors := Some [mkTransactionError
                              "Cannot validate transaction without signature." None] |}) /\
  (existsb (Z.eqb (type this)) TRANSACTION_TYPES = true ->
   forall (report : SchemaReport) (e : string),
     validateTransaction (toJSON this) = Returned report ->
     truthy (signature this) = true ->
     verifyTransaction (toJSON this) None = Thrown e ->
     validate this = Thrown e) /\
  (existsb (Z.eqb (type this)) TRANSACTION_TYPES = true ->
   forall (report : SchemaReport) (verified : bool),
     validateTransaction (toJSON this) = Returned report ->
     truthy (signature this) = true ->
     verifyTransaction (toJSON this) None = Returned verified ->
     validate this
     = Returned
         {| validated := valid report && verified;
            errors :=
              option_map
                (map (fun error =>
                        mkTransactionError
                          ("'" ++ dataPath error ++ "' " ++ message error)%string
                          (Some (dataPath error))))
                (schemaErrors report) |}).
Proof.
  unfold validate. rewrite toJSON_type, toJSON_signature.
  split; [|split; [|split; [|split]]].
  - now intros ->.
  - intros -> e ->. reflexivity.
  - intros -> report -> Hs. now rewrite Hs.
  - intros -> report e -> Hs. rewrite Hs. cbn [negb]. rewrite Hs. cbn [negb].
    now intros ->.
  - intros -> report verified -> Hs. rewrite Hs. cbn [negb]. rewrite Hs. cbn [negb].
    intros ->. now destruct (schemaErrors report).
Qed.

End SignableBytes.

Lemma getBytes_layout_witness :
  @Transactions.getBytes Samples.imports
    (Samples.signedTx 500 38350076 (Some "a1b2c3d4") (Some "0f0e"))
  = Returned (@Transactions.signableLayout Samples.imports
                (Samples.signedTx 500 38350076 (Some "a1b2c3d4") (Some "0f0e"))).
Proof.
  refine (proj1 (proj2 (@getBytes_layout Samples.imports
            (Samples.signedTx 500 38350076 (Some "a1b2c3d4") (Some "0f0e")) _ _)) _).
  - simpl. lia.
  - simpl. lia.
  - left. reflexivity.
Defined.

(** C3 fails as stated.  With a secondary signature and no primary one,
    [getBytes] leaves the secondary signature out, where the layout of the
    specification has its bytes: 53 bytes against 55.  An amount of 2^64
    takes two words of eight bytes, and a timestamp of 2^31 makes the call
    throw.  With [new BigNum(s).toBuffer({ size })] for
    [bigNumberToBuffer], a recipient numeral of twenty nines takes two
    words of eight bytes as well: the recipient field has 16 bytes and
    the bytes are 61. *)
Lemma getBytes_counterexample :
  (exists emitted : list Byte.byte,
      @Transactions.getBytes Samples.imports (Samples.signedTx 500 38350076 None (Some "0f0e"))
        = Returned emitted /\
      length emitted = 53%nat /\
      length (@Transactions.signableLayout Samples.imports
                (Samples.signedTx 500 38350076 None (Some "0f0e"))) = 55%nat) /\
  (exists emitted : list Byte.byte,
      @Transactions.getBytes Samples.imports (Samples.signedTx (2 ^ 64) 38350076 None None)
        = Returned emitted /\
      length emitted = 61%nat) /\
  @Transactions.getBytes Samples.imports (Samples.signedTx 500 (2 ^ 31) None None)
    = Thrown "RangeError" /\
  (exists emitted : list Byte.byte,
      @Transactions.getBytes Samples.imports Cases.wideRecipientTx = Returned emitted /\
      length emitted = 61%nat /\
      length (Samples.bigNumberBytes "99999999999999999999" 8) = 16%nat).
Proof.
  split; [|split; [|split]].
  - eexists. split; [vm_compute; reflexivity|]. split; vm_compute; reflexivity.
  - eexists. split; [vm_compute; reflexivity|]. vm_compute; reflexivity.
  - vm_compute. reflexivity.
  - eexists. split; [vm_compute; reflexivity|]. split; vm_compute; reflexivity.
Qed.

Lemma validate_report_witness :
  @Transactions.validate Samples.imports (Samples.signedTx (-5) 38350076 (Some "00") None)
  = Returned
      {| Transactions.validated := false;
         Transactions.errors :=
           Some [Transactions.mkTransactionError
                   "'.amount' should match format amount" (Some ".amount")] |}.
Proof.
  exact (proj2 (proj2 (proj2 (proj2 (@validate_report Samples.imports
           (Samples.signedTx (-5) 38350076 (Some "00") None)))))
           eq_refl
           (Samples.amountSchema
              (Transactions.toJSON (Samples.signedTx (-5) 38350076 (Some "00") None)))
           false eq_refl eq_refl eq_refl).
Defined.

(** C7 fails as stated.  A transaction with a negative amount (a schema
    violation) and no primary signature gets the missing-signature error
    alone: the schema violation is not in the report.  With a signature
    that does not verify, the report clears [validated] and lists the
    schema violation alone: nothing in it names the signature. *)
Lemma validate_counterexample :
  @Transactions.validateTransaction Samples.imports
     (Transactions.toJSON (Samples.signedTx (-5) 38350076 None None))
    = Returned
        {| Transactions.valid := false;
           Transactions.schemaErrors :=
             Some [ {| Transactions.dataPath := ".amount";
                       Transactions.message := "should match format amount" |} ] |} /\
  @Transactions.validate Samples.imports (Samples.signedTx (-5) 38350076 None None)
    = Returned
        {| Transactions.validated := false;
           Transactions.errors :=
             Some [Transactions.mkTransactionError
                     "Cannot validate transaction without signature." None] |} /\
  @Transactions.verifyTransaction Samples.imports
     (Transactions.toJSON (Samples.signedTx (-5) 38350076 (Some "00") None)) None
    = Returned false /\
  @Transactions.validate Samples.imports (Samples.signedTx (-5) 38350076 (Some "00") None)
    = Returned
        {| Transactions.validated := false;
           Transactions.errors :=
             Some [Transactions.mkTransactionError
                     "'.amount' should match format amount" (Some ".amount")] |}.
Proof. repeat split. Qed.

(** *** Interleavings of the calls of vote.ts *)

Section Interleavings.
Import Blockchain Jobs.
Local Open Scope nat_scope.

Lemma sameButVotes_refl d : sameButVotes d d.
Proof. now repeat split. Qed.

Lemma sameButVotes_withVotes d0 d w : sameButVotes d0 d -> sameButVotes d0 (withVotes d w).
Proof. intros (?&?&?&?). now repeat split. Qed.

Lemma plays_frame st0 acc acc' r t :
  (forall j, j ∈ roleJobs r -> acc' !! job_address j = acc !! job_address j) ->
  plays st0 acc r t -> plays st0 acc' r t.
Proof.
  intros Hf. destruct r as [n js|n j]; simpl in *.
  - intros [Hs Hp]. split; [exact Hs|]. intros j Hj. rewrite Hf by exact Hj. now apply Hp.
  - intros (d0 & w & H0 & Hw & Hn). exists d0, w. split; [exact H0|]. split; [exact Hw|].
    rewrite Hf by (apply list_elem_of_singleton; reflexivity).
    exact Hn.
Qed.

Lemma step_settled i s t :
  pool s !! i = Some t -> isSettled t = true -> step i s = s.
Proof.
  intros Hi Ht. unfold step. rewrite Hi.
  destruct t; try discriminate; simpl; rewrite app_nil_r, list_insert_id by exact Hi;
    now destruct s.
Qed.

Lemma step_none i s : pool s !! i = None -> step i s = s.
Proof. intros Hi. unfold step. now rewrite Hi. Qed.

Lemma concat_workers n js : concat (map roleJobs (map (Worker n) js)) = js.
Proof. induction js as [|j js IH]; simpl; [reflexivity|]. now rewrite IH. Qed.

Lemma totalSteps_app r1 r2 : totalSteps (r1 ++ r2) = totalSteps r1 + totalSteps r2.
Proof. unfold totalSteps. induction r1 as [|r r1 IH]; simpl; [reflexivity|]. rewrite IH. lia. Qed.

Lemma totalSteps_workers js : totalSteps (map (Worker 3) js) = 3 * length js.
Proof. unfold totalSteps. induction js as [|j js IH]; simpl; [reflexivity|]. rewrite IH. lia. Qed.

Lemma others_frame st0 acc acc' rs ps :
  Forall2 (plays st0 acc) rs ps ->
  (forall j, j ∈ concat (map roleJobs rs) -> acc' !! job_address j = acc !! job_address j) ->
  Forall2 (plays st0 acc') rs ps.
Proof.
  induction 1 as [|r t rs ps Hrt _ IH]; intros Hf; constructor.
  - apply (plays_frame st0 acc); [|exact Hrt].
    intros j Hj. apply Hf. simpl. apply elem_of_app. now left.
  - apply IH. intros j Hj. apply Hf. simpl. apply elem_of_app. now right.
Qed.

Lemma concat_roles_split (roles : list role) i r :
  roles !! i = Some r ->
  concat (map roleJobs roles)
  = concat (map roleJobs (take i roles)) ++ roleJobs r
      ++ concat (map roleJobs (drop (S i) roles)).
Proof.
  intros Hi. rewrite <- (take_drop_middle roles i r Hi) at 1.
  rewrite map_app, concat_app. simpl. reflexivity.
Qed.

Lemma concat_roles_insert (roles : list role) i r r' news :
  roles !! i = Some r ->
  concat (map roleJobs (<[i:=r']> roles ++ news))
  = concat (map roleJobs (take i roles)) ++ roleJobs r'
      ++ concat (map roleJobs (drop (S i) roles)) ++ concat (map roleJobs news).
Proof.
  intros Hi. rewrite insert_take_drop by (eapply lookup_lt_Some; eauto).
  rewrite !map_app, !concat_app. simpl. rewrite <- !app_assoc. reflexivity.
Qed.

Lemma totalSteps_split (roles : list role) i r :
  roles !! i = Some r ->
  totalSteps roles
  = totalSteps (take i roles) + roleSteps r + totalSteps (drop (S i) roles).
Proof.
  intros Hi. rewrite <- (take_drop_middle roles i r Hi) at 1.
  rewrite totalSteps_app. simpl. lia.
Qed.

Lemma totalSteps_insert (roles : list role) i r r' news :
  roles !! i = Some r ->
  totalSteps (<[i:=r']> roles ++ news)
  = totalSteps (take i roles) + roleSteps r' + totalSteps (drop (S i) roles)
    + totalSteps news.
Proof.
  intros Hi. rewrite insert_take_drop by (eapply lookup_lt_Some; eauto).
  rewrite !totalSteps_app. simpl. lia.
Qed.

Lemma rebuild st0 acc acc' (roles : list role) (ps : list async) i r t r' t' news started :
  Forall2 (plays st0 acc) roles ps ->
  roles !! i = Some r -> ps !! i = Some t ->
  (forall j, j ∈ concat (map roleJobs (take i roles)) ++ concat (map roleJobs (drop (S i) roles)) ->
     acc' !! job_address j = acc !! job_address j) ->
  plays st0 acc' r' t' ->
  Forall2 (plays st0 acc') news started ->
  Forall2 (plays st0 acc') (<[i:=r']> roles ++ news) (<[i:=t']> ps ++ started).
Proof.
  intros Hall Hr Ht Hf Hp Hn.
  rewrite !insert_take_drop by (eapply lookup_lt_Some; eauto).
  apply Forall2_app; [|exact Hn].
  apply Forall2_app.
  - apply (others_frame st0 acc); [now apply Forall2_take|].
    intros j Hj. apply Hf. apply elem_of_app. now left.
  - constructor; [exact Hp|].
    apply (others_frame st0 acc); [now apply Forall2_drop|].
    intros j Hj. apply Hf. apply elem_of_app. now right.
Qed.

Lemma job_in_J J (roles : list role) i r j :
  concat (map roleJobs roles) ≡ₚ J -> roles !! i = Some r -> j ∈ roleJobs r -> j ∈ J.
Proof.
  intros HJ Hi Hj. rewrite <- HJ, (concat_roles_split roles i r Hi).
  rewrite !elem_of_app. auto.
Qed.

Lemma others_distinct J (roles : list role) i r j j' :
  NoDup (map job_address J) ->
  concat (map roleJobs roles) ≡ₚ J -> roles !! i = Some r -> j ∈ roleJobs r ->
  j' ∈ concat (map roleJobs (take i roles)) ++ concat (map roleJobs (drop (S i) roles)) ->
  job_address j' <> job_address j.
Proof.
  intros Hnd HJ Hi Hj Hj' Heq.
  assert (Hnd' : NoDup (map job_address (concat (map roleJobs roles)))).
  { now rewrite HJ. }
  rewrite (concat_roles_split roles i r Hi), !map_app in Hnd'.
  apply NoDup_app in Hnd' as (_ & H1 & Hnd').
  apply NoDup_app in Hnd' as (_ & H2 & _).
  apply elem_of_app in Hj' as [Hj'|Hj'].
  - apply (H1 (job_address j')).
    + apply list_elem_of_fmap. eauto.
    + apply elem_of_app. left. rewrite Heq. apply list_elem_of_fmap. eauto.
  - apply (H2 (job_address j)).
    + apply list_elem_of_fmap. eauto.
    + rewrite <- Heq. apply list_elem_of_fmap. eauto.
Qed.

Lemma workers_play st0 acc js :
  (forall j, j ∈ js ->
     exists d0 w, BUCKET_ADDRESS_ACCOUNT st0 !! job_address j = Some d0 /\
                  job_newVotes j d0 = Some w /\
                  acc !! job_address j = Some d0) ->
  Forall2 (plays st0 acc) (map (Worker 3) js) (map jobCall js).
Proof.
  induction js as [|j js IH]; intros Hv; simpl; constructor.
  - destruct (Hv j) as (d0 & w & H0 & Hw & Ha); [apply list_elem_of_here|].
    exists d0, w. auto.
  - apply IH. intros j' Hj'. apply Hv. now apply list_elem_of_further.
Qed.

Lemma step_consistent st0 J roles s i t :
  jobsValid st0 J -> consistent st0 J roles s ->
  pool s !! i = Some t -> isSettled t = false ->
  exists roles', consistent st0 J roles' (step i s) /\ totalSteps roles' < totalSteps roles.
Proof.
  intros [Hnd Hval] [Hr Hj Htx Ho Hsame] Hi Ht.
  destruct (Forall2_lookup_r _ _ _ _ _ Hr Hi) as (r & Hri & Hplay).
  unfold step. rewrite Hi.
  destruct r as [n js | n j].
  - destruct Hplay as [Hsp Hpend].
    inversion Hsp as [| n0 cbs k js0 js' Hcbs Hk | n0 key k d0 js0 H0 Hk | n0 key k tx0 js0 H0 Hk];
      subst.
    + discriminate.
    + exists (<[i := Main n0 js']> roles ++ map (Worker 3) js0).
      cbn [perform]. split.
      * constructor; cbn [store pool].
        -- eapply rebuild; [exact Hr|exact Hri|exact Hi|reflexivity| |].
           ++ split; [exact Hk|]. intros j Hj'. apply Hpend. apply elem_of_app. now right.
           ++ apply workers_play. intros j Hj'.
              destruct (Hval j) as (d0 & w & H0 & Hw).
              { eapply job_in_J; eauto. simpl. apply elem_of_app. now left. }
              exists d0, w. split; [exact H0|]. split; [exact Hw|].
              rewrite Hpend; [exact H0|]. apply elem_of_app. now left.
        -- rewrite (concat_roles_insert roles i _ _ _ Hri), concat_workers.
           rewrite <- Hj, (concat_roles_split roles i _ Hri). simpl.
           apply Permutation_app_head.
           rewrite (Permutation_app_comm js0 js'), <- app_assoc.
           apply Permutation_app_head. apply Permutation_app_comm.
        -- exact Htx.
        -- exact Ho.
        -- exact Hsame.
      * rewrite (totalSteps_insert roles i _ _ _ Hri), (totalSteps_split roles i _ Hri).
        rewrite totalSteps_workers. simpl. rewrite length_app. lia.
    + destruct (Hsame key d0 H0) as (d & Hd & Hsb).
      exists (<[i := Main n0 js]> roles ++ []).
      cbn [perform]. unfold store_get. rewrite Hd. split.
      * constructor; cbn [store pool]; auto.
        -- eapply rebuild; [exact Hr|exact Hri|exact Hi|reflexivity| |constructor].
           split; [now apply Hk|exact Hpend].
        -- rewrite (concat_roles_insert roles i _ _ _ Hri).
           rewrite <- Hj, (concat_roles_split roles i _ Hri). simpl.
           now rewrite app_nil_r.
      * rewrite (totalSteps_insert roles i _ _ _ Hri), (totalSteps_split roles i _ Hri).
        simpl. lia.
    + exists (<[i := Main n0 js]> roles ++ []).
      cbn [perform]. unfold store_get. rewrite Htx, H0. split.
      * constructor; cbn [store pool]; auto.
        -- eapply rebuild; [exact Hr|exact Hri|exact Hi|reflexivity| |constructor].
           split; [exact Hk|exact Hpend].
        -- rewrite (concat_roles_insert roles i _ _ _ Hri).
           rewrite <- Hj, (concat_roles_split roles i _ Hri). simpl.
           now rewrite app_nil_r.
      * rewrite (totalSteps_insert roles i _ _ _ Hri), (totalSteps_split roles i _ Hri).
        simpl. lia.
  - destruct Hplay as (d0 & w & H0 & Hw & Hn).
    assert (Hperm : forall n', concat (map roleJobs (<[i:=Worker n' j]> roles ++ [])) ≡ₚ J).
    { intros n'. rewrite (concat_roles_insert roles i _ _ _ Hri).
      rewrite <- Hj, (concat_roles_split roles i _ Hri). simpl.
      now rewrite app_nil_r. }
    assert (Htot : forall n', n' < n ->
              totalSteps (<[i:=Worker n' j]> roles ++ []) < totalSteps roles).
    { intros n' Hlt.
      rewrite (totalSteps_insert roles i _ _ _ Hri), (totalSteps_split roles i _ Hri).
      simpl. lia. }
    destruct n as [|[|[|[|n]]]]; try contradiction; destruct Hn as [-> Hacc].
    + discriminate.
    + exists (<[i := Worker 0 j]> roles ++ []).
      cbn [perform afterSet]. split; [|apply Htot; lia].
      constructor; cbn [store pool BUCKET_ADDRESS_ACCOUNT BUCKET_TX_ID_TX]; auto.
      eapply rebuild; [exact Hr|exact Hri|exact Hi|reflexivity| |constructor].
      exists d0, w. auto.
    + exists (<[i := Worker 1 j]> roles ++ []).
      cbn [perform afterRead]. unfold store_set. split; [|apply Htot; lia].
      constructor; cbn [store pool BUCKET_ADDRESS_ACCOUNT BUCKET_TX_ID_TX]; auto.
      * eapply rebuild; [exact Hr|exact Hri|exact Hi| | |constructor].
        -- intros j' Hj'. apply lookup_insert_ne. intros Heq.
           eapply (others_distinct J roles i (Worker 2 j) j j'); eauto.
           simpl. apply list_elem_of_here.
        -- exists d0, w. split; [exact H0|]. split; [exact Hw|].
           split; [reflexivity|]. apply lookup_insert_eq.
      * intros a Ha. rewrite lookup_insert_ne; [now apply Ho|].
        intros <-. apply Ha. apply list_elem_of_fmap. exists j. split; [reflexivity|].
        eapply job_in_J; eauto. simpl. apply list_elem_of_here.
      * intros a d1 Ha. destruct (decide (job_address j = a)) as [<-|Hne].
        -- rewrite lookup_insert_eq. eexists. split; [reflexivity|].
           rewrite H0 in Ha. injection Ha as <-.
           apply sameButVotes_withVotes, sameButVotes_refl.
        -- rewrite lookup_insert_ne by exact Hne. now apply Hsame.
    + exists (<[i := Worker 2 j]> roles ++ []).
      unfold jobCall, updateDelegateVote. cbn [perform]. unfold store_get.
      rewrite Hacc, Hw.
      split; [|apply Htot; lia].
      constructor; cbn [store pool]; auto.
      eapply rebuild; [exact Hr|exact Hri|exact Hi|reflexivity| |constructor].
      exists d0, w. split; [exact H0|]. split; [exact Hw|].
      split; [reflexivity|exact Hacc].
Qed.

Lemma step_any st0 J roles s i :
  jobsValid st0 J -> consistent st0 J roles s ->
  exists roles', consistent st0 J roles' (step i s) /\ totalSteps roles' <= totalSteps roles.
Proof.
  intros HJ Hc. destruct (pool s !! i) as [t|] eqn:Hi.
  - destruct (isSettled t) eqn:Ht.
    + rewrite (step_settled i s t Hi Ht). exists roles. split; [exact Hc|lia].
    + destruct (step_consistent st0 J roles s i t HJ Hc Hi Ht) as (roles' & Hc' & Hlt).
      exists roles'. split; [exact Hc'|lia].
  - rewrite (step_none i s Hi). exists roles. split; [exact Hc|lia].
Qed.

Lemma run_consistent st0 J schedule : forall roles s,
  jobsValid st0 J -> consistent st0 J roles s ->
  exists roles', consistent st0 J roles' (run schedule s).
Proof.
  induction schedule as [|i schedule IH]; intros roles s HJ Hc; simpl.
  - now exists roles.
  - destruct (step_any st0 J roles s i HJ Hc) as (roles' & Hc' & _).
    now apply (IH roles').
Qed.

Lemma run_app schedule1 schedule2 s :
  run (schedule1 ++ schedule2) s = run schedule2 (run schedule1 s).
Proof. unfold run. apply fold_left_app. Qed.

Lemma unsettled_call (ps : list async) :
  forallb isSettled ps = false ->
  exists i t, ps !! i = Some t /\ isSettled t = false.
Proof.
  induction ps as [|p ps IH]; simpl; [discriminate|].
  destruct (isSettled p) eqn:Hp; simpl.
  - intros H. destruct (IH H) as (i & t & Hi & Ht). now exists (S i), t.
  - intros _. now exists 0, p.
Qed.

Lemma settles_within st0 J (n : nat) : forall roles s,
  jobsValid st0 J -> consistent st0 J roles s -> totalSteps roles <= n ->
  exists schedule, settled (run schedule s) = true.
Proof.
  induction n as [|n IH]; intros roles s HJ Hc Hn.
  - destruct (settled s) eqn:Hs; [now exists []|].
    destruct (unsettled_call _ Hs) as (i & t & Hi & Ht).
    destruct (step_consistent st0 J roles s i t HJ Hc Hi Ht) as (roles' & _ & Hlt). lia.
  - destruct (settled s) eqn:Hs; [now exists []|].
    destruct (unsettled_call _ Hs) as (i & t & Hi & Ht).
    destruct (step_consistent st0 J roles s i t HJ Hc Hi Ht) as (roles' & Hc' & Hlt).
    destruct (IH roles' (step i s) HJ Hc') as (schedule & Hsched); [lia|].
    now exists (i :: schedule).
Qed.

Lemma settled_roles st0 acc roles ps :
  Forall2 (plays st0 acc) roles ps -> forallb isSettled ps = true ->
  forall j, j ∈ concat (map roleJobs roles) ->
    exists d0 w, BUCKET_ADDRESS_ACCOUNT st0 !! job_address j = Some d0 /\
                 job_newVotes j d0 = Some w /\
                 acc !! job_address j = Some (withVotes d0 w).
Proof.
  induction 1 as [|r t roles ps Hrt _ IH]; simpl; intros Hs j Hj.
  - now apply elem_of_nil in Hj.
  - apply andb_prop in Hs as [Ht Hs].
    apply elem_of_app in Hj as [Hj|Hj]; [|now apply IH].
    destruct r as [n js|n j0]; simpl in *.
    + destruct Hrt as [Hsp _].
      inversion Hsp; subst; try discriminate. now apply elem_of_nil in Hj.
    + apply list_elem_of_singleton in Hj as ->.
      destruct Hrt as (d0 & w & H0 & Hw & Hn). exists d0, w.
      destruct n as [|[|[|[|n]]]]; try contradiction; destruct Hn as [-> Hacc];
        try discriminate.
      auto.
Qed.

Lemma launch_consistent st0 (calls : list async) (specs : list (nat * list job)) :
  Forall2 (fun t spec => spawns st0 (fst spec) t (snd spec)) calls specs ->
  consistent st0 (concat (map snd specs))
    (map (fun spec => Main (fst spec) (snd spec)) specs) (launch calls st0).
Proof.
  intros Hsp. constructor; cbn [launch store pool].
  - induction Hsp as [|t spec calls specs Ht _ IH]; simpl; constructor; [|exact IH].
    split; [exact Ht|reflexivity].
  - rewrite List.map_map. simpl. reflexivity.
  - reflexivity.
  - reflexivity.
  - intros a d0 Ha. exists d0. split; [exact Ha|apply sameButVotes_refl].
Qed.

Lemma toString_truthy z : truthy (Some (BigNum.toString z)) = true.
Proof.
  simpl. destruct (String.eqb_spec (BigNum.toString z) "") as [E|]; [|reflexivity].
  pose proof (BigNum_ofString_toString z) as H. rewrite E in H. discriminate.
Qed.

Lemma votesOrZero_withVotes d z :
  BigNum.ofString (votesOrZero (withVotes d (BigNum.toString z))) = Some z.
Proof.
  unfold votesOrZero. cbn [votes withVotes]. rewrite toString_truthy. simpl.
  apply BigNum_ofString_toString.
Qed.

Lemma weightOf_Some st a v :
  weightOf st a = Some v <->
  exists d, BUCKET_ADDRESS_ACCOUNT st !! a = Some d /\
            BigNum.ofString (votesOrZero d) = Some v.
Proof.
  unfold weightOf. destruct (BUCKET_ADDRESS_ACCOUNT st !! a) as [d|]; simpl.
  - split; [eauto|]. now intros (d' & [= <-] & H).
  - split; [discriminate|]. now intros (d' & [=] & _).
Qed.

Lemma settlesWith_impl (calls : list async) (st : StateStore) (P Q : StateStore -> Prop) :
  settlesWith calls st P -> (forall st', P st' -> Q st') -> settlesWith calls st Q.
Proof. intros [Hex Hall] HPQ. split; [exact Hex|]. intros schedule Hs. auto. Qed.

(** The outcome of the calls [calls] started together on the store [st0],
    when the jobs [J] they start touch pairwise different accounts: each
    job shifts the weight of its account, every other account is left as it
    is, only [votes] fields change, and the transaction bucket is left as
    it is. *)
Theorem calls_settle st0 (calls : list async) (specs : list (nat * list job)) :
  let J := concat (map snd specs) in
  Forall2 (fun t spec => spawns st0 (fst spec) t (snd spec)) calls specs ->
  jobsValid st0 J ->
  settlesWith calls st0 (fun st =>
    (forall j delta v, j ∈ J -> shifts (job_newVotes j) delta ->
        weightOf st0 (job_address j) = Some v ->
        weightOf st (job_address j) = Some (v + delta)%Z) /\
    (forall a, a ∉ map job_address J ->
        BUCKET_ADDRESS_ACCOUNT st !! a = BUCKET_ADDRESS_ACCOUNT st0 !! a) /\
    (forall a d0, BUCKET_ADDRESS_ACCOUNT st0 !! a = Some d0 ->
        exists d, BUCKET_ADDRESS_ACCOUNT st !! a = Some d /\ sameButVotes d0 d) /\
    BUCKET_TX_ID_TX st = BUCKET_TX_ID_TX st0).
Proof.
  intros J Hsp HJ.
  pose proof (launch_consistent st0 calls specs Hsp) as Hc. fold J in Hc.
  split.
  - intros schedule.
    destruct (run_consistent st0 J schedule _ _ HJ Hc) as (roles & Hc').
    destruct (settles_within st0 J _ roles _ HJ Hc' (Nat.le_refl _)) as (more & Hmore).
    exists more. now rewrite run_app.
  - intros schedule Hs.
    destruct (run_consistent st0 J schedule _ _ HJ Hc) as (roles & [Hr Hj Htx Ho Hsame]).
    repeat split; auto.
    intros j delta v Hin Hsh Hv.
    destruct (settled_roles _ _ _ _ Hr Hs j) as (d0 & w & H0 & Hw & Hacc).
    { now rewrite Hj. }
    apply weightOf_Some in Hv as (d & Hd & Hv).
    rewrite H0 in Hd. injection Hd as <-.
    rewrite (Hsh d0 v Hv) in Hw. injection Hw as <-.
    apply weightOf_Some. eexists. split; [exact Hacc|].
    apply votesOrZero_withVotes.
Qed.

End Interleavings.

(** *** The three effect families *)

Section Effects.
Import Blockchain Jobs.
Context `{Cryptography}.

Lemma shifts_votesAdd x n : BigNum.ofString x = Some n -> shifts (votesAdd x) n.
Proof. intros Hx d v Hv. unfold votesAdd. rewrite Hv, Hx. reflexivity. Qed.

Lemma shifts_votesSub x n : BigNum.ofString x = Some n -> shifts (votesSub x) (- n).
Proof. intros Hx d v Hv. unfold votesSub. rewrite Hv, Hx. reflexivity. Qed.

Lemma shifts_votesSubAdd x y n m :
  BigNum.ofString x = Some n -> BigNum.ofString y = Some m ->
  shifts (votesSubAdd x y) (m - n).
Proof.
  intros Hx Hy d v Hv. unfold votesSubAdd. rewrite Hv, Hx, Hy. simpl.
  do 2 f_equal. lia.
Qed.

Lemma shifts_votesAddSub x y n m :
  BigNum.ofString x = Some n -> BigNum.ofString y = Some m ->
  shifts (votesAddSub x y) (n - m).
Proof.
  intros Hx Hy d v Hv. unfold votesAddSub. rewrite Hv, Hx, Hy. simpl.
  do 2 f_equal. lia.
Qed.

Lemma jobCall_jobsFor g addresses :
  map jobCall (jobsFor g addresses) = map (updateDelegateVote g) addresses.
Proof. unfold jobsFor. rewrite List.map_map. reflexivity. Qed.

Lemma address_jobsFor g addresses : map job_address (jobsFor g addresses) = addresses.
Proof. unfold jobsFor. rewrite List.map_map. simpl. apply map_id. Qed.

Lemma elem_of_jobsFor j g addresses :
  j ∈ jobsFor g addresses <-> exists a, a ∈ addresses /\ j = mkJob a g.
Proof.
  unfold jobsFor. rewrite list_elem_of_fmap. split; intros (a & H1 & H2); eauto.
Qed.

Lemma delegateAddressesOf_same d0 d :
  sameButVotes d0 d -> delegateAddressesOf d = delegateAddressesOf d0.
Proof. intros (_ & _ & _ & Hv). unfold delegateAddressesOf. now rewrite Hv. Qed.

Lemma balance_same d0 d : sameButVotes d0 d -> balance d = balance d0.
Proof. now intros (_ & _ & Hb & _). Qed.

Lemma spawns_forEach_jobs st0 g addresses :
  spawns st0 1 (ForEach (map (updateDelegateVote g) addresses) Resolve)
         (jobsFor g addresses).
Proof.
  rewrite <- (app_nil_r (jobsFor g addresses)).
  apply spawns_forEach; [now rewrite jobCall_jobsFor|apply spawns_resolve].
Qed.

Lemma spawns_feeCall st0 tx voter g :
  BUCKET_ADDRESS_ACCOUNT st0 !! senderId tx = Some voter ->
  spawns st0 2 (feeCall g tx) (jobsFor g (delegateAddressesOf voter)).
Proof.
  intros Hk. eapply spawns_getAccount; [exact Hk|].
  intros d Hd. rewrite (delegateAddressesOf_same voter d Hd).
  apply spawns_forEach_jobs.
Qed.

Lemma spawns_voteCall st0 tx voter up down votes0 :
  BUCKET_ADDRESS_ACCOUNT st0 !! senderId tx = Some voter ->
  spawns st0 3 (voteCall up down votes0 tx)
    (jobsFor (up (balance voter)) (directives "+" votes0)
     ++ jobsFor (down (balance voter)) (directives "-" votes0)).
Proof.
  intros Hk. eapply spawns_getAccount; [exact Hk|].
  intros d Hd. rewrite (balance_same voter d Hd).
  apply spawns_forEach; [now rewrite jobCall_jobsFor|].
  apply spawns_forEach_jobs.
Qed.

Lemma spawns_inTransfer st0 tx dappId dappTx creator g :
  type tx = TRANSACTION_TYPE_IN_TRANSFER ->
  inTransfer_dappId (asset tx) = Some dappId ->
  BUCKET_TX_ID_TX st0 !! dappId = Some dappTx ->
  BUCKET_ADDRESS_ACCOUNT st0 !! senderId dappTx = Some creator ->
  spawns st0 3 (forRecipientDelegates tx (updateDelegateVote g))
         (jobsFor g (delegateAddressesOf creator)).
Proof.
  intros Hty Hid Htx Hcr. unfold forRecipientDelegates, isTransferType.
  rewrite Hty, Hid. cbn -[delegateAddressesOf].
  eapply spawns_getTransaction; [exact Htx|].
  eapply spawns_getAccount; [exact Hcr|].
  intros d Hd. rewrite (delegateAddressesOf_same creator d Hd).
  apply spawns_forEach_jobs.
Qed.

Lemma jobsValid_intro st0 (J : list job) :
  NoDup (map job_address J) ->
  (forall j, j ∈ J ->
     is_Some (weightOf st0 (job_address j)) /\ exists delta, shifts (job_newVotes j) delta) ->
  jobsValid st0 J.
Proof.
  intros Hnd Hj. split; [exact Hnd|].
  intros j Hin. destruct (Hj j Hin) as ([v Hv] & delta & Hsh).
  apply weightOf_Some in Hv as (d & Hd & Hv).
  exists d, (BigNum.toString (v + delta)). split; [exact Hd|]. now apply Hsh.
Qed.

(** One family whose jobs all use the arithmetic [g]. *)
Lemma family_effect st0 (call : async) n g delta addresses :
  spawns st0 n call (jobsFor g addresses) ->
  shifts g delta ->
  NoDup addresses ->
  (forall a, a ∈ addresses -> is_Some (weightOf st0 a)) ->
  settlesWith [call] st0 (fun st =>
    (forall a v, a ∈ addresses -> weightOf st0 a = Some v ->
                 weightOf st a = Some (v + delta)) /\
    (forall a, a ∉ addresses ->
        BUCKET_ADDRESS_ACCOUNT st !! a = BUCKET_ADDRESS_ACCOUNT st0 !! a) /\
    (forall a d0, BUCKET_ADDRESS_ACCOUNT st0 !! a = Some d0 ->
        exists d, BUCKET_ADDRESS_ACCOUNT st !! a = Some d /\ sameButVotes d0 d) /\
    BUCKET_TX_ID_TX st = BUCKET_TX_ID_TX st0).
Proof.
  intros Hsp Hsh Hnd Hw.
  eapply settlesWith_impl.
  - apply (calls_settle st0 [call] [(n, jobsFor g addresses)]).
    + constructor; [exact Hsp|constructor].
    + simpl. rewrite app_nil_r. apply jobsValid_intro.
      * now rewrite address_jobsFor.
      * intros j Hj. apply elem_of_jobsFor in Hj as (a & Ha & ->). simpl.
        split; [now apply Hw|now exists delta].
  - cbn beta. intros st (H1 & H2 & H3 & H4).
    simpl in H1, H2. rewrite app_nil_r in H1, H2. rewrite address_jobsFor in H2.
    repeat split; auto.
    intros a v Ha Hv.
    apply (H1 (mkJob a g) delta v); auto.
    apply elem_of_jobsFor. eauto.
Qed.

(** C6.  Whatever the type of the transaction, once its writes have settled
    the fee family has subtracted the fee from the weight of every delegate
    the sender votes for ([applyFee]) or added it ([undoFee]); every other
    account is left as it is; and [undoFee] after [applyFee] gives every
    weight back.  The sender is in the store, the fee reads as a number,
    the delegates the sender votes for have pairwise different addresses
    and each has an account whose weight reads as a number.  This holds in
    every order in which the store performs the operations. *)
Theorem fee_effect (st0 : StateStore) (tx : Transaction) (sender : Account) (f : Z) :
  BUCKET_ADDRESS_ACCOUNT st0 !! senderId tx = Some sender ->
  BigNum.ofString (fee tx) = Some f ->
  NoDup (delegateAddressesOf sender) ->
  (forall a, a ∈ delegateAddressesOf sender -> is_Some (weightOf st0 a)) ->
  settlesWith [applyFee tx] st0 (fun st =>
    (forall a v, a ∈ delegateAddressesOf sender -> weightOf st0 a = Some v ->
                 weightOf st a = Some (v - f)) /\
    (forall a, a ∉ delegateAddressesOf sender ->
        BUCKET_ADDRESS_ACCOUNT st !! a = BUCKET_ADDRESS_ACCOUNT st0 !! a) /\
    settlesWith [undoFee tx] st (fun st' =>
      forall a v, a ∈ delegateAddressesOf sender -> weightOf st0 a = Some v ->
                  weightOf st' a = Some v)) /\
  settlesWith [undoFee tx] st0 (fun st =>
    (forall a v, a ∈ delegateAddressesOf sender -> weightOf st0 a = Some v ->
                 weightOf st a = Some (v + f)) /\
    (forall a, a ∉ delegateAddressesOf sender ->
        BUCKET_ADDRESS_ACCOUNT st !! a = BUCKET_ADDRESS_ACCOUNT st0 !! a)).
Proof.
  intros Hs Hf Hnd Hw.
  assert (Hundo : forall st voter,
             BUCKET_ADDRESS_ACCOUNT st !! senderId tx = Some voter ->
             delegateAddressesOf voter = delegateAddressesOf sender ->
             (forall a, a ∈ delegateAddressesOf sender -> is_Some (weightOf st a)) ->
             settlesWith [undoFee tx] st (fun st' =>
               (forall a v, a ∈ delegateAddressesOf sender -> weightOf st a = Some v ->
                            weightOf st' a = Some (v + f)) /\
               (forall a, a ∉ delegateAddressesOf sender ->
                  BUCKET_ADDRESS_ACCOUNT st' !! a = BUCKET_ADDRESS_ACCOUNT st !! a))).
  { intros st voter Hv HD Hws.
    eapply settlesWith_impl.
    - apply (family_effect st (undoFee tx) 2 (votesAdd (fee tx)) f
               (delegateAddressesOf sender)).
      + rewrite <- HD. now apply (spawns_feeCall st tx voter).
      + now apply shifts_votesAdd.
      + exact Hnd.
      + exact Hws.
    - cbn beta. intros st' (H1 & H2 & _). split; assumption. }
  split; [|now apply (Hundo st0 sender)].
  eapply settlesWith_impl.
  - apply (family_effect st0 (applyFee tx) 2 (votesSub (fee tx)) (- f)
             (delegateAddressesOf sender)).
    + now apply (spawns_feeCall st0 tx sender).
    + now apply shifts_votesSub.
    + exact Hnd.
    + exact Hw.
  - cbn beta. intros st (H1 & H2 & H3 & _).
    split; [intros a v Ha Hv; now apply H1|]. split; [exact H2|].
    destruct (H3 _ _ Hs) as (sender' & Hs' & Hsame).
    eapply settlesWith_impl.
    + apply (Hundo st sender' Hs' (delegateAddressesOf_same _ _ Hsame)).
      intros a Ha. destruct (Hw a Ha) as [v Hv]. exists (v + - f). now apply H1.
    + cbn beta. intros st' (H4 & _) a v Ha Hv.
      replace v with (v + - f + f) by lia. apply H4; [exact Ha|]. now apply H1.
Qed.

(** C5.  For an in-transfer, the amount family looks up the transaction
    that [asset.inTransfer.dappId] names in the transaction bucket and
    takes the sender of that transaction as the recipient; the nominal
    [recipientId] is not read.  Once the writes have settled, the weights
    of the delegates that account votes for have gone up by the amount
    ([applyAmount]) or down by it ([undoAmount]), and every other account
    is left as it is. *)
Theorem inTransfer_amount_effect (st0 : StateStore) (tx dappTx : Transaction)
    (dappId : string) (creator : Account) (m : Z) :
  type tx = TRANSACTION_TYPE_IN_TRANSFER ->
  inTransfer_dappId (asset tx) = Some dappId ->
  BUCKET_TX_ID_TX st0 !! dappId = Some dappTx ->
  BUCKET_ADDRESS_ACCOUNT st0 !! senderId dappTx = Some creator ->
  BigNum.ofString (amount tx) = Some m ->
  NoDup (delegateAddressesOf creator) ->
  (forall a, a ∈ delegateAddressesOf creator -> is_Some (weightOf st0 a)) ->
  settlesWith [applyAmount tx] st0 (fun st =>
    (forall a v, a ∈ delegateAddressesOf creator -> weightOf st0 a = Some v ->
                 weightOf st a = Some (v + m)) /\
    (forall a, a ∉ delegateAddressesOf creator ->
        BUCKET_ADDRESS_ACCOUNT st !! a = BUCKET_ADDRESS_ACCOUNT st0 !! a)) /\
  settlesWith [undoAmount tx] st0 (fun st =>
    (forall a v, a ∈ delegateAddressesOf creator -> weightOf st0 a = Some v ->
                 weightOf st a = Some (v - m)) /\
    (forall a, a ∉ delegateAddressesOf creator ->
        BUCKET_ADDRESS_ACCOUNT st !! a = BUCKET_ADDRESS_ACCOUNT st0 !! a)) /\
  (forall r : option string,
      applyAmount (setRecipientId r tx) = applyAmount tx /\
      undoAmount (setRecipientId r tx) = undoAmount tx).
Proof.
  intros Hty Hid Htx Hcr Hm Hnd Hw.
  split; [|split];
    [| |intros r; unfold applyAmount, undoAmount, forRecipientDelegates, isTransferType;
        cbn [setRecipientId type amount asset recipientId];
        rewrite Hty; split; reflexivity].
  - eapply settlesWith_impl.
    + apply (family_effect st0 (applyAmount tx) 3 (votesAdd (amount tx)) m
               (delegateAddressesOf creator)
               (spawns_inTransfer st0 tx dappId dappTx creator _ Hty Hid Htx Hcr)
               (shifts_votesAdd _ _ Hm) Hnd Hw).
    + cbn beta. intros st (H1 & H2 & _). split; assumption.
  - eapply settlesWith_impl.
    + apply (family_effect st0 (undoAmount tx) 3 (votesSub (amount tx)) (- m)
               (delegateAddressesOf creator)
               (spawns_inTransfer st0 tx dappId dappTx creator _ Hty Hid Htx Hcr)
               (shifts_votesSub _ _ Hm) Hnd Hw).
    + cbn beta. intros st (H1 & H2 & _). split; [|exact H2].
      intros a v Ha Hv. now apply H1.
Qed.

(** A family returns as soon as it has started its callbacks: after the two
    steps of [applyFee] itself its promise is resolved, the store is the
    one it began with, and every callback is still waiting for its first
    read. *)
Lemma applyFee_resolves_first (st : StateStore) (tx : Transaction) (sender : Account) :
  BUCKET_ADDRESS_ACCOUNT st !! senderId tx = Some sender ->
  let s := run [0; 0]%nat (launch [applyFee tx] st) in
  resolved s = true /\
  store s = st /\
  pool s = Resolve :: map (updateDelegateVote (votesSub (fee tx)))
                          (delegateAddressesOf sender).
Proof.
  intros Hs.
  assert (H1 : step 0 (launch [applyFee tx] st)
               = {| store := st;
                    pool := [ForEach (map (updateDelegateVote (votesSub (fee tx)))
                                          (delegateAddressesOf sender)) Resolve];
                    joined := 1 |}).
  { unfold step, launch, applyFee. simpl. unfold store_get. now rewrite Hs. }
  unfold run. cbn [fold_left]. rewrite H1. repeat split.
Qed.

Lemma substring_all s : String.substring 0 (String.length s) s = s.
Proof. induction s as [|c s IH]; simpl; [reflexivity|]. now rewrite IH. Qed.

Lemma sliceFrom1_cons c s : sliceFrom1 (String c s) = s.
Proof.
  unfold sliceFrom1. cbn [String.length]. rewrite Nat.sub_succ, Nat.sub_0_r.
  cbn [String.substring]. apply substring_all.
Qed.

Lemma directives_pair pk1 pk2 :
  directives "+" [String "+" pk1; String "-" pk2] = [getAddressFromPublicKey pk1] /\
  directives "-" [String "+" pk1; String "-" pk2] = [getAddressFromPublicKey pk2].
Proof.
  unfold directives. cbn [List.filter].
  change (hasSign "+" (String "+" pk1)) with true.
  change (hasSign "+" (String "-" pk2)) with false.
  change (hasSign "-" (String "+" pk1)) with false.
  change (hasSign "-" (String "-" pk2)) with true.
  cbn [map]. now rewrite !sliceFrom1_cons.
Qed.

(** The three families on a vote transaction with one upvote and one
    downvote, in either direction: [gFee] is the arithmetic of the fee
    family, [up] and [down] the arithmetic of the two kinds of directive. *)
Lemma vote_effect st (tx : Transaction) voter pk1 pk2 gFee up down df du dd
    (feeCalls : bool) :
  let D1 := getAddressFromPublicKey pk1 in
  let D2 := getAddressFromPublicKey pk2 in
  let D := if feeCalls then delegateAddressesOf voter else [] in
  BUCKET_ADDRESS_ACCOUNT st !! senderId tx = Some voter ->
  shifts gFee df -> shifts (up (balance voter)) du -> shifts (down (balance voter)) dd ->
  D1 <> D2 -> NoDup D -> D1 ∉ D -> D2 ∉ D ->
  (forall a, a ∈ D -> is_Some (weightOf st a)) ->
  is_Some (weightOf st D1) -> is_Some (weightOf st D2) ->
  settlesWith
    (if feeCalls
     then [feeCall gFee tx; Resolve; voteCall up down [String "+" pk1; String "-" pk2] tx]
     else [voteCall up down [String "+" pk1; String "-" pk2] tx])
    st (fun st' =>
      (forall v, weightOf st D1 = Some v -> weightOf st' D1 = Some (v + du)) /\
      (forall v, weightOf st D2 = Some v -> weightOf st' D2 = Some (v + dd)) /\
      (forall a v, a ∈ D -> weightOf st a = Some v -> weightOf st' a = Some (v + df)) /\
      (forall a d0, BUCKET_ADDRESS_ACCOUNT st !! a = Some d0 ->
          exists d, BUCKET_ADDRESS_ACCOUNT st' !! a = Some d /\ sameButVotes d0 d)).
Proof.
  intros D1 D2 D Hv Hsf Hsu Hsd Hne Hnd Hn1 Hn2 Hw Hw1 Hw2.
  destruct (directives_pair pk1 pk2) as [Hup Hdown].
  pose (JV := jobsFor (up (balance voter)) [D1] ++ jobsFor (down (balance voter)) [D2]).
  assert (HspV : spawns st 3 (voteCall up down [String "+" pk1; String "-" pk2] tx) JV).
  { pose proof (spawns_voteCall st tx voter up down [String "+" pk1; String "-" pk2] Hv) as Hsp.
    now rewrite Hup, Hdown in Hsp. }
  pose (J := jobsFor gFee D ++ JV).
  assert (HJ : jobsValid st J).
  { apply jobsValid_intro.
    - unfold J, JV. rewrite !map_app, !address_jobsFor.
      apply NoDup_app. split; [exact Hnd|]. split.
      + intros a Ha Hin. apply elem_of_app in Hin as [Hin|Hin];
          apply list_elem_of_singleton in Hin; subst a; contradiction.
      + apply NoDup_app. split; [apply NoDup_singleton|]. split; [|apply NoDup_singleton].
        intros a Ha Hin. apply list_elem_of_singleton in Ha, Hin. congruence.
    - intros j Hj. unfold J, JV in Hj. rewrite !elem_of_app in Hj.
      destruct Hj as [Hj|[Hj|Hj]]; apply elem_of_jobsFor in Hj as (a & Ha & ->); simpl.
      + split; [now apply Hw|now exists df].
      + apply list_elem_of_singleton in Ha as ->. split; [exact Hw1|now exists du].
      + apply list_elem_of_singleton in Ha as ->. split; [exact Hw2|now exists dd]. }
  assert (Hgoal : forall calls specs,
             Forall2 (fun t spec => spawns st (fst spec) t (snd spec)) calls specs ->
             concat (map snd specs) = J ->
             settlesWith calls st (fun st' =>
               (forall v, weightOf st D1 = Some v -> weightOf st' D1 = Some (v + du)) /\
               (forall v, weightOf st D2 = Some v -> weightOf st' D2 = Some (v + dd)) /\
               (forall a v, a ∈ D -> weightOf st a = Some v -> weightOf st' a = Some (v + df)) /\
               (forall a d0, BUCKET_ADDRESS_ACCOUNT st !! a = Some d0 ->
                  exists d, BUCKET_ADDRESS_ACCOUNT st' !! a = Some d /\ sameButVotes d0 d))).
  { intros calls specs Hsp HJeq.
    eapply settlesWith_impl.
    - apply (calls_settle st calls specs Hsp). rewrite HJeq. exact HJ.
    - cbn beta zeta. rewrite HJeq. intros st' (H1 & _ & H3 & _).
      split; [|split; [|split; [|exact H3]]].
      + intros v Hv1. apply (H1 (mkJob D1 (up (balance voter))) du v); auto.
        unfold J, JV. rewrite !elem_of_app. right. left.
        apply elem_of_jobsFor. exists D1. split; [apply list_elem_of_here|reflexivity].
      + intros v Hv2. apply (H1 (mkJob D2 (down (balance voter))) dd v); auto.
        unfold J, JV. rewrite !elem_of_app. right. right.
        apply elem_of_jobsFor. exists D2. split; [apply list_elem_of_here|reflexivity].
      + intros a v Ha Hva. apply (H1 (mkJob a gFee) df v); auto.
        unfold J. rewrite elem_of_app. left. apply elem_of_jobsFor. eauto. }
  subst D. destruct feeCalls.
  - apply (Hgoal _ [(2%nat, jobsFor gFee (delegateAddressesOf voter)); (0%nat, []); (3%nat, JV)]).
    + constructor; [now apply spawns_feeCall|].
      constructor; [apply spawns_resolve|].
      constructor; [exact HspV|constructor].
    + cbn [concat map snd app]. now rewrite app_nil_r.
  - apply (Hgoal _ [(3%nat, JV)]).
    + constructor; [exact HspV|constructor].
    + cbn [concat map snd app]. now rewrite app_nil_r.
Qed.

Lemma vote_shapes (tx : Transaction) (votes0 : list string) (feeCalls : bool) :
  type tx = TRANSACTION_TYPE_VOTE ->
  asset_votes (asset tx) = Some votes0 ->
  (if feeCalls then applyVote tx else [applyNewVote tx])
  = (if feeCalls
     then [feeCall (votesSub (fee tx)) tx; Resolve;
           voteCall votesAdd (fun b => votesSubAdd b (fee tx)) votes0 tx]
     else [voteCall votesAdd (fun b => votesSubAdd b (fee tx)) votes0 tx]) /\
  (if feeCalls then undoVote tx else [undoNewVote tx])
  = (if feeCalls
     then [feeCall (votesAdd (fee tx)) tx; Resolve;
           voteCall votesSub (fun b => votesAddSub b (fee tx)) votes0 tx]
     else [voteCall votesSub (fun b => votesAddSub b (fee tx)) votes0 tx]).
Proof.
  intros Hty Hvotes.
  assert (Ha : applyAmount tx = Resolve /\ undoAmount tx = Resolve).
  { unfold applyAmount, undoAmount, forRecipientDelegates, isTransferType.
    now rewrite Hty. }
  assert (Hn : applyNewVote tx = voteCall votesAdd (fun b => votesSubAdd b (fee tx)) votes0 tx
               /\ undoNewVote tx
                  = voteCall votesSub (fun b => votesAddSub b (fee tx)) votes0 tx).
  { unfold applyNewVote, undoNewVote. rewrite Hty, Hvotes. split; reflexivity. }
  destruct Ha as [Ha1 Ha2], Hn as [Hn1 Hn2].
  unfold applyVote, undoVote. rewrite Ha1, Ha2, Hn1, Hn2.
  destruct feeCalls; split; reflexivity.
Qed.

(** C4, as amended.  For a vote transaction with one upvote for D1 and one
    downvote for a different delegate D2, sender balance B and fee F: once
    its writes have settled, the new-vote family alone ([applyNewVote])
    has changed the weight of D1 by +B and that of D2 by F - B, and
    [undoNewVote] changes them by -B and by B - F, which after
    [applyNewVote] gives both weights back.  [applyVote] and [undoVote] as
    a whole do the same to D1 and D2 when the sender currently votes for
    neither of them, so that the fee family writes other accounts only. *)
Theorem vote_netting (st0 : StateStore) (tx : Transaction) (sender : Account)
    (pk1 pk2 : string) (B F v1 v2 : Z) :
  let D1 := getAddressFromPublicKey pk1 in
  let D2 := getAddressFromPublicKey pk2 in
  let voted := delegateAddressesOf sender in
  type tx = TRANSACTION_TYPE_VOTE ->
  asset_votes (asset tx) = Some [String "+" pk1; String "-" pk2] ->
  BUCKET_ADDRESS_ACCOUNT st0 !! senderId tx = Some sender ->
  BigNum.ofString (balance sender) = Some B ->
  BigNum.ofString (fee tx) = Some F ->
  D1 <> D2 ->
  weightOf st0 D1 = Some v1 ->
  weightOf st0 D2 = Some v2 ->
  (settlesWith [applyNewVote tx] st0 (fun st =>
     weightOf st D1 = Some (v1 + B) /\
     weightOf st D2 = Some (v2 + (F - B)) /\
     settlesWith [undoNewVote tx] st (fun st' =>
       weightOf st' D1 = Some v1 /\ weightOf st' D2 = Some v2)) /\
   settlesWith [undoNewVote tx] st0 (fun st =>
     weightOf st D1 = Some (v1 - B) /\
     weightOf st D2 = Some (v2 + (B - F)))) /\
  (NoDup voted -> D1 ∉ voted -> D2 ∉ voted ->
   (forall a, a ∈ voted -> is_Some (weightOf st0 a)) ->
   settlesWith (applyVote tx) st0 (fun st =>
     weightOf st D1 = Some (v1 + B) /\
     weightOf st D2 = Some (v2 + (F - B)) /\
     settlesWith (undoVote tx) st (fun st' =>
       weightOf st' D1 = Some v1 /\ weightOf st' D2 = Some v2)) /\
   settlesWith (undoVote tx) st0 (fun st =>
     weightOf st D1 = Some (v1 - B) /\
     weightOf st D2 = Some (v2 + (B - F)))).
Proof.
  intros D1 D2 voted Hty Hvotes Hs HB HF Hne Hv1 Hv2.
  assert (Hundo : forall (b : bool) st voter w1 w2,
    let D := if b then delegateAddressesOf voter else [] in
    BUCKET_ADDRESS_ACCOUNT st !! senderId tx = Some voter ->
    balance voter = balance sender ->
    NoDup D -> D1 ∉ D -> D2 ∉ D ->
    (forall a, a ∈ D -> is_Some (weightOf st a)) ->
    weightOf st D1 = Some w1 -> weightOf st D2 = Some w2 ->
    settlesWith (if b then undoVote tx else [undoNewVote tx]) st (fun st' =>
      weightOf st' D1 = Some (w1 - B) /\ weightOf st' D2 = Some (w2 + (B - F)))).
  { intros b st voter w1 w2 D Hv Hbal Hnd Hn1 Hn2 Hw Hw1 Hw2.
    rewrite (proj2 (vote_shapes tx _ b Hty Hvotes)).
    eapply settlesWith_impl.
    - apply (vote_effect st tx voter pk1 pk2 (votesAdd (fee tx)) votesSub
               (fun x => votesAddSub x (fee tx)) F (- B) (B - F) b); eauto.
      + now apply shifts_votesAdd.
      + rewrite Hbal. now apply shifts_votesSub.
      + rewrite Hbal. now apply shifts_votesAddSub.
    - cbn beta. intros st' (H1 & H2 & _). split; [now apply H1|now apply H2]. }
  assert (Happly : forall b : bool,
    let D := if b then voted else [] in
    NoDup D -> D1 ∉ D -> D2 ∉ D ->
    (forall a, a ∈ D -> is_Some (weightOf st0 a)) ->
    settlesWith (if b then applyVote tx else [applyNewVote tx]) st0 (fun st =>
      weightOf st D1 = Some (v1 + B) /\
      weightOf st D2 = Some (v2 + (F - B)) /\
      settlesWith (if b then undoVote tx else [undoNewVote tx]) st (fun st' =>
        weightOf st' D1 = Some v1 /\ weightOf st' D2 = Some v2))).
  { intros b D Hnd Hn1 Hn2 Hw.
    rewrite (proj1 (vote_shapes tx _ b Hty Hvotes)).
    eapply settlesWith_impl.
    - apply (vote_effect st0 tx sender pk1 pk2 (votesSub (fee tx)) votesAdd
               (fun x => votesSubAdd x (fee tx)) (- F) B (F - B) b); eauto.
      + now apply shifts_votesSub.
      + now apply shifts_votesAdd.
      + now apply shifts_votesSubAdd.
    - cbn beta. intros st (H1 & H2 & H3 & H4).
      split; [now apply H1|]. split; [now apply H2|].
      destruct (H4 _ _ Hs) as (sender' & Hs' & Hsame).
      pose proof (delegateAddressesOf_same _ _ Hsame) as HD.
      eapply settlesWith_impl.
      + apply (Hundo b st sender' (v1 + B) (v2 + (F - B)) Hs' (balance_same _ _ Hsame)).
        * rewrite HD. exact Hnd.
        * rewrite HD. exact Hn1.
        * rewrite HD. exact Hn2.
        * rewrite HD. intros a Ha. destruct (Hw a Ha) as [v Hv].
          exists (v + - F). now apply H3.
        * now apply H1.
        * now apply H2.
      + cbn beta. intros st' [H5 H6]. split.
        * rewrite H5. f_equal. lia.
        * rewrite H6. f_equal. lia. }
  split.
  - split.
    + apply (Happly false); [apply NoDup_nil_2|apply not_elem_of_nil|apply not_elem_of_nil|].
      intros a Ha. now apply elem_of_nil in Ha.
    + apply (Hundo false st0 sender v1 v2); auto;
        [apply NoDup_nil_2|apply not_elem_of_nil|apply not_elem_of_nil|].
      intros a Ha. now apply elem_of_nil in Ha.
  - intros Hnd Hn1 Hn2 Hw. split.
    + now apply (Happly true).
    + now apply (Hundo true st0 sender v1 v2).
Qed.

End Effects.

Lemma fee_effect_witness :
  Blockchain.weightOf
    (Blockchain.store
       (Blockchain.run [0; 0; 1; 1; 1]%nat
          (Blockchain.launch [@Blockchain.applyFee Samples.crypto Samples.voteTx]
             Samples.ledger)))
    "dXL" = Some 4990 /\
  Blockchain.weightOf
    (Blockchain.store
       (Blockchain.run [0; 0; 1; 1; 1]%nat
          (Blockchain.launch [@Blockchain.undoFee Samples.crypto Samples.voteTx]
             Samples.ledger)))
    "dXL" = Some 5010.
Proof.
  assert (Hnd : NoDup (@Blockchain.delegateAddressesOf Samples.crypto
                         (Samples.account "sender" "1000" None (Some ["dX"])))).
  { apply (bool_decide_unpack _). vm_compute. exact I. }
  assert (Hw : forall a,
             a ∈ @Blockchain.delegateAddressesOf Samples.crypto
                   (Samples.account "sender" "1000" None (Some ["dX"])) ->
             is_Some (Blockchain.weightOf Samples.ledger a)).
  { intros a Ha. apply list_elem_of_singleton in Ha as ->. exists 5000.
    vm_compute. reflexivity. }
  destruct (@fee_effect Samples.crypto Samples.ledger Samples.voteTx
              (Samples.account "sender" "1000" None (Some ["dX"])) 10
              ltac:(vm_compute; reflexivity) ltac:(vm_compute; reflexivity) Hnd Hw)
    as [[_ Happly] [_ Hundo]].
  split.
  - destruct (Happly [0; 0; 1; 1; 1]%nat ltac:(vm_compute; reflexivity)) as (H1 & _).
    apply (H1 "dXL" 5000); [apply list_elem_of_here|vm_compute; reflexivity].
  - destruct (Hundo [0; 0; 1; 1; 1]%nat ltac:(vm_compute; reflexivity)) as (H1 & _).
    apply (H1 "dXL" 5000); [apply list_elem_of_here|vm_compute; reflexivity].
Defined.

Lemma inTransfer_amount_effect_witness :
  let st :=
    Blockchain.store
      (Blockchain.run [0; 0; 0; 1; 1; 1]%nat
         (Blockchain.launch [@Blockchain.applyAmount Samples.crypto Samples.inTransferTx]
            Samples.ledger)) in
  Blockchain.weightOf st "dZL" = Some 509 /\
  Blockchain.BUCKET_ADDRESS_ACCOUNT st !! "dYL"
    = Blockchain.BUCKET_ADDRESS_ACCOUNT Samples.ledger !! "dYL".
Proof.
  assert (Hnd : NoDup (@Blockchain.delegateAddressesOf Samples.crypto
                         (Samples.account "creator" "300" None (Some ["dZ"])))).
  { apply (bool_decide_unpack _). vm_compute. exact I. }
  assert (Hw : forall a,
             a ∈ @Blockchain.delegateAddressesOf Samples.crypto
                   (Samples.account "creator" "300" None (Some ["dZ"])) ->
             is_Some (Blockchain.weightOf Samples.ledger a)).
  { intros a Ha. apply list_elem_of_singleton in Ha as ->. exists 9.
    vm_compute. reflexivity. }
  destruct (@inTransfer_amount_effect Samples.crypto Samples.ledger
              Samples.inTransferTx Samples.dappTx "dapp1"
              (Samples.account "creator" "300" None (Some ["dZ"])) 500
              eq_refl eq_refl
              ltac:(vm_compute; reflexivity) ltac:(vm_compute; reflexivity)
              ltac:(vm_compute; reflexivity) Hnd Hw)
    as [[_ Happly] _].
  destruct (Happly [0; 0; 0; 1; 1; 1]%nat ltac:(vm_compute; reflexivity)) as (H1 & H2).
  split.
  - apply (H1 "dZL" 9); [apply list_elem_of_here|vm_compute; reflexivity].
  - apply H2. intros Ha. apply list_elem_of_singleton in Ha. discriminate.
Defined.

Lemma vote_netting_witness :
  let st :=
    Blockchain.store
      (Blockchain.run [0; 0; 2; 2; 2; 3; 3; 3; 4; 4; 4; 5; 5; 5]%nat
         (Blockchain.launch (@Blockchain.applyVote Samples.crypto Samples.voteTx)
            Samples.ledger)) in
  let st' :=
    Blockchain.store
      (Blockchain.run [0; 0; 2; 2; 2; 3; 3; 3; 4; 4; 4; 5; 5; 5]%nat
         (Blockchain.launch (@Blockchain.undoVote Samples.crypto Samples.voteTx) st)) in
  (Blockchain.weightOf st "d1L" = Some (400 + 1000) /\
   Blockchain.weightOf st "d2L" = Some (0 + (10 - 1000))) /\
  (Blockchain.weightOf st' "d1L" = Some 400 /\
   Blockchain.weightOf st' "d2L" = Some 0).
Proof.
  assert (Hnd : NoDup (@Blockchain.delegateAddressesOf Samples.crypto
                         (Samples.account "sender" "1000" None (Some ["dX"])))).
  { apply (bool_decide_unpack _). vm_compute. exact I. }
  assert (Hw : forall a,
             a ∈ @Blockchain.delegateAddressesOf Samples.crypto
                   (Samples.account "sender" "1000" None (Some ["dX"])) ->
             is_Some (Blockchain.weightOf Samples.ledger a)).
  { intros a Ha. apply list_elem_of_singleton in Ha as ->. exists 5000.
    vm_compute. reflexivity. }
  destruct (@vote_netting Samples.crypto Samples.ledger Samples.voteTx
              (Samples.account "sender" "1000" None (Some ["dX"]))
              "d1" "d2" 1000 10 400 0
              eq_refl eq_refl
              ltac:(vm_compute; reflexivity) ltac:(vm_compute; reflexivity)
              ltac:(vm_compute; reflexivity) ltac:(discriminate)
              ltac:(vm_compute; reflexivity) ltac:(vm_compute; reflexivity))
    as [_ Hwhole].
  destruct Hwhole as [[_ Happly] _]; [exact Hnd| | |exact Hw|].
  - intros Ha. apply list_elem_of_singleton in Ha. discriminate.
  - intros Ha. apply list_elem_of_singleton in Ha. discriminate.
  - intros st st'.
    destruct (Happly [0; 0; 2; 2; 2; 3; 3; 3; 4; 4; 4; 5; 5; 5]%nat
                ltac:(vm_compute; reflexivity)) as (H1 & H2 & [_ Hundo]).
    split; [split; assumption|].
    exact (Hundo [0; 0; 2; 2; 2; 3; 3; 3; 4; 4; 4; 5; 5; 5]%nat
             ltac:(vm_compute; reflexivity)).
Defined.

(** C4 fails as stated.  The sender holds 1000, pays a fee of 10, votes for
    dX (weight 5000), and the transaction upvotes d1 and downvotes dX.
    When the store performs the write of the fee family on dX before the
    read of the new-vote family, [applyVote] settles with dX at 4000: a
    change of -B, not of F - B = -990.  When both callbacks
    read dX before either writes, the later write wins: 4010 if it is that
    of the new-vote family, 4990 if it is that of the fee family. *)
Lemma vote_netting_counterexample :
  let ends := fun schedule =>
    let s := Blockchain.run schedule
               (Blockchain.launch (@Blockchain.applyVote Samples.crypto Samples.unvoteTx)
                  Samples.ledger) in
    (Blockchain.settled s, Blockchain.weightOf (Blockchain.store s) "dXL") in
  Blockchain.weightOf Samples.ledger "dXL" = Some 5000 /\
  ends [0; 0; 3; 3; 3; 2; 2; 2; 4; 4; 4; 5; 5; 5]%nat = (true, Some 4000) /\
  4000 <> 5000 + (10 - 1000) /\
  ends [0; 0; 2; 2; 2; 3; 5; 3; 3; 5; 5; 4; 4; 4]%nat = (true, Some 4010) /\
  ends [0; 0; 2; 2; 2; 3; 5; 5; 5; 3; 3; 4; 4; 4]%nat = (true, Some 4990).
Proof. vm_compute. repeat split; congruence. Qed.

(** C8.  A candidate key is the weight string, a colon, and the public key;
    the weight string a callback writes is the decimal numeral without
    padding.  Keys compare as strings, not as numbers: for the weights 9
    and 10 and any public key, the key of 9 is greater than the key of
    10. *)
Theorem candidateKey_order :
  (forall weight publicKey : string,
      Blockchain.candidateKey weight publicKey = (weight ++ ":" ++ publicKey)%string) /\
  (forall (d0 : Blockchain.Account) (z : Z),
      Jobs.afterSet d0 (BigNum.toString z)
      = Blockchain.Replace
          (Blockchain.candidateKey (Blockchain.templateString (Blockchain.votes d0))
             (Blockchain.templateString (Blockchain.publicKey d0)))
          (Blockchain.candidateKey (BigNum.toString z)
             (Blockchain.templateString (Blockchain.publicKey d0)))
          (Blockchain.address d0) Blockchain.Resolve) /\
  BigNum.toString 9 = "9" /\
  BigNum.toString 10 = "10" /\
  9 < 10 /\
  (forall publicKey : string,
      String.compare (Blockchain.candidateKey (BigNum.toString 9) publicKey)
                     (Blockchain.candidateKey (BigNum.toString 10) publicKey) = Gt).
Proof.
  split; [reflexivity|]. split; [reflexivity|].
  split; [reflexivity|]. split; [reflexivity|]. split; [lia|].
  intros publicKey. reflexivity.
Qed.

(** C9, on the code.  The sender votes for dX and the transaction is a vote
    for d1 and against d2.  After the three families have taken their own
    steps the promise of [applyVote] is resolved, while no callback has
    run: the store is still the store the call began with and three
    callbacks are waiting.  The writes happen afterwards. *)
Theorem applyVote_resolves_early :
  let s0 := Blockchain.launch (@Blockchain.applyVote Samples.crypto Samples.voteTx)
              Samples.ledger in
  let s1 := Blockchain.run [0; 0; 1; 2; 2; 2]%nat s0 in
  let s2 := Blockchain.run [3; 3; 3; 4; 4; 4; 5; 5; 5]%nat s1 in
  (Blockchain.resolved s1 = true /\
   Blockchain.settled s1 = false /\
   Blockchain.store s1 = Samples.ledger /\
   length (List.filter (fun t => negb (Blockchain.isSettled t)) (Blockchain.pool s1))
     = 3%nat) /\
  (Blockchain.settled s2 = true /\
   Blockchain.weightOf (Blockchain.store s2) "dXL" = Some 4990 /\
   Blockchain.weightOf (Blockchain.store s2) "d1L" = Some 1400 /\
   Blockchain.weightOf (Blockchain.store s2) "d2L" = Some (-990)).
Proof. vm_compute. repeat split. Qed.

(* ================================================================== *)
(** * Further properties *)
(* ================================================================== *)

(** ** lisk-transactions: sequences of calls, the constructor, the bytes *)

Section LifecycleProps.
Import Transactions Lifecycle.

Lemma setApplied_same (tx : BaseTransaction) : setApplied (applied tx) tx = tx.
Proof. now destruct tx. Qed.

Lemma thread_applied (cs : list stateCall) : forall (tx : BaseTransaction) (s : Account) (b : Z),
  applied tx = true -> BigNum.ofString (balance s) = Some b ->
  exists s', thread cs tx s = (Returned s', tx) /\
             BigNum.ofString (balance s') = Some (b + fee tx * undos cs) /\
             (undos cs = 0 -> s' = s) /\
             withBalance s' (balance s) = s.
Proof.
  induction cs as [|c cs IH]; intros tx s b Ha Hb.
  - exists s. cbn. rewrite Z.mul_0_r, Z.add_0_r. repeat split; auto. now destruct s.
  - destruct c; cbn [thread].
    + rewrite apply_applied by exact Ha. cbn [sender].
      destruct (IH tx s b Ha Hb) as (s' & H1 & H2 & H3 & H4).
      exists s'. split; [exact H1|]. split; [exact H2|]. split; [exact H3|exact H4].
    + rewrite (undo_applied s tx b Ha Hb). cbn [sender].
      destruct (IH tx (withBalance s (BigNum.toString (b + fee tx))) (b + fee tx) Ha)
        as (s' & H1 & H2 & H3 & H4).
      { apply BigNum_ofString_toString. }
      exists s'. split; [exact H1|].
      assert (Hu : undos (DoUndo :: cs) = 1 + undos cs).
      { unfold undos. cbn [List.filter isApply negb length]. lia. }
      split; [|split].
      * rewrite H2, Hu. f_equal. lia.
      * rewrite Hu. unfold undos. lia.
      * destruct s, s'. unfold withBalance in *.
        cbn [address publicKey secondPublicKey balance] in *.
        congruence.
Qed.

(** X1.  A caller runs any sequence of [apply] and [undo] calls on a
    transaction object that was not applied before, passing the account
    each call returns to the next.  No call throws.  The flag ends up set
    exactly when the sequence contains an [apply].  The balance ends up as
    the initial one, less the fee once if the sequence contains an [apply],
    plus the fee once for every [undo] that comes after the first [apply]:
    an [undo] before the first [apply] does nothing, only the first [apply]
    charges, and every later [undo] refunds again.  Only the balance of the
    account changes.  The initial balance reads as a number. *)
Theorem thread_balance (cs : list stateCall) (tx : BaseTransaction) (s : Account) (b : Z) :
  applied tx = false ->
  BigNum.ofString (balance s) = Some b ->
  exists s',
    thread cs tx s = (Returned s', setApplied (existsb isApply cs) tx) /\
    BigNum.ofString (balance s')
      = Some (b - (if existsb isApply cs then fee tx else 0)
              + fee tx * undosAfterApply cs) /\
    (existsb isApply cs = false -> s' = s) /\
    withBalance s' (balance s) = s.
Proof.
  revert s b. induction cs as [|c cs IH]; intros s b Ha Hb.
  - exists s. cbn. rewrite <- Ha, setApplied_same.
    repeat split; auto; [rewrite Hb; f_equal; lia|now destruct s].
  - destruct c; cbn [thread existsb isApply orb undosAfterApply].
    + rewrite (apply_fresh s tx b Ha Hb). cbn [sender].
      destruct (thread_applied cs (setApplied true tx)
                  (withBalance s (BigNum.toString (b - fee tx))) (b - fee tx) eq_refl)
        as (s' & H1 & H2 & _ & H4).
      { apply BigNum_ofString_toString. }
      exists s'. split; [exact H1|]. split; [|split; [discriminate|]].
      * rewrite H2. reflexivity.
      * destruct s, s'. unfold withBalance in *.
        cbn [address publicKey secondPublicKey balance] in *.
        congruence.
    + unfold undo. rewrite Ha. cbn [negb sender].
      apply IH; assumption.
Qed.

End LifecycleProps.

Section SerializationProps.
Import Transactions Lifecycle.

Lemma toJSON_numbers (this : BaseTransaction) :
  json_amount (toJSON this) = BigNum.toString (amount this) /\
  json_fee (toJSON this) = BigNum.toString (fee this).
Proof.
  unfold toJSON. destruct (truthy (signature this)); [|split; reflexivity].
  destruct (truthy (signSignature this)); split; reflexivity.
Qed.

(** X2.  Whatever the fields of the object hold, the record [toJSON]
    returns never carries an empty signature, and carries a second
    signature only together with a first one and never an empty one; its
    amount and fee are strings that read back as the amount and the fee of
    the object, whatever their spelling. *)
Theorem toJSON_signatures_wellformed (this : BaseTransaction) :
  (json_signature (toJSON this) = None \/ truthy (json_signature (toJSON this)) = true) /\
  (json_signSignature (toJSON this) = None \/
   (truthy (json_signSignature (toJSON this)) = true /\
    truthy (json_signature (toJSON this)) = true)) /\
  BigNum.ofString (json_amount (toJSON this)) = Some (amount this) /\
  BigNum.ofString (json_fee (toJSON this)) = Some (fee this).
Proof.
  destruct (toJSON_numbers this) as [-> ->].
  rewrite toJSON_signature, toJSON_signSignature, !BigNum_ofString_toString.
  split; [|split; [|split; reflexivity]].
  - destruct (truthy (signature this)) eqn:E; [now right|now left].
  - destruct (truthy (signature this)) eqn:E; [|now left]. cbn [andb].
    destruct (truthy (signSignature this)) eqn:E2; [now right|now left].
Qed.

Lemma toJSON_eq (this that : BaseTransaction) :
  amount this = amount that -> fee this = fee that -> id this = id that ->
  recipientId this = recipientId that ->
  recipientPublicKey this = recipientPublicKey that ->
  senderId this = senderId that -> senderPublicKey this = senderPublicKey that ->
  (if truthy (signature this) then signature this else None)
  = (if truthy (signature that) then signature that else None) ->
  (if truthy (signature this) && truthy (signSignature this)
   then signSignature this else None)
  = (if truthy (signature that) && truthy (signSignature that)
     then signSignature that else None) ->
  signatures this = signatures that -> timestamp this = timestamp that ->
  type this = type that -> asset this = asset that ->
  toJSON this = toJSON that.
Proof.
  intros. unfold toJSON.
  destruct (truthy (signature this)) eqn:E1, (truthy (signature that)) eqn:E2;
    cbn [negb andb] in *;
    try destruct (truthy (signSignature this)) eqn:E3;
    try destruct (truthy (signSignature that)) eqn:E4;
    cbn [negb andb json_id json_amount json_type json_timestamp json_senderPublicKey
         json_senderId json_recipientId json_recipientPublicKey json_fee
         json_signatures json_asset json_signature json_signSignature] in *;
    try congruence;
    try (destruct (signature this); discriminate);
    try (destruct (signature that); discriminate);
    try (destruct (signSignature this); discriminate);
    try (destruct (signSignature that); discriminate).
Qed.

(** X3.  Building a transaction from the JSON of another one: when
    [normalizeInput] accepts the record, the constructor returns an object
    whose flag is clear, whatever the flag of the original was, whose
    amount and fee are those of the original, and whose JSON is again the
    same record.  The new object has the fields of the original (flag
    apart) when the original held no empty signature and no second
    signature without a first one. *)
Theorem constructor_toJSON (normalizeInput : TransactionJSON -> outcome unit)
    (this : BaseTransaction) (u : unit) :
  normalizeInput (toJSON this) = Returned u ->
  exists rebuilt : BaseTransaction,
    constructor normalizeInput (toJSON this) = Returned rebuilt /\
    applied rebuilt = false /\
    amount rebuilt = amount this /\
    fee rebuilt = fee this /\
    toJSON rebuilt = toJSON this /\
    ((signature this = None \/ truthy (signature this) = true) ->
     (signSignature this = None \/
      (truthy (signature this) = true /\ truthy (signSignature this) = true)) ->
     rebuilt = setApplied false this).
Proof.
  intros Hn. unfold constructor. rewrite Hn.
  destruct (toJSON_numbers this) as (Ha & Hf).
  rewrite Ha, Hf, !BigNum_ofString_toString.
  eexists. split; [reflexivity|].
  split; [reflexivity|]. split; [reflexivity|]. split; [reflexivity|].
  split.
  - apply toJSON_eq; cbn [amount fee id recipientId recipientPublicKey senderId
                          senderPublicKey signature signatures signSignature
                          timestamp type asset]; try reflexivity;
      try (unfold toJSON; destruct (truthy (signature this));
           [destruct (truthy (signSignature this))|]; reflexivity).
    + rewrite toJSON_signature.
      destruct (truthy (signature this)) eqn:E; [now rewrite E|reflexivity].
    + rewrite toJSON_signature, toJSON_signSignature.
      destruct (truthy (signature this)) eqn:E; [rewrite E|reflexivity]. cbn [andb].
      destruct (truthy (signSignature this)) eqn:E2; [now rewrite E2|reflexivity].
  - intros Hs Hss. rewrite toJSON_signature, toJSON_signSignature.
    unfold setApplied. f_equal;
      try (unfold toJSON; destruct (truthy (signature this));
           [destruct (truthy (signSignature this))|]; reflexivity).
    + destruct Hs as [E|E]; rewrite E; [reflexivity|]. reflexivity.
    + destruct Hss as [E|[E1 E2]].
      * rewrite E. now destruct (truthy (signature this)).
      * now rewrite E1, E2.
Qed.

End SerializationProps.

Section MoreSerializationProps.
Import Transactions Lifecycle.

(** X4.  Building a transaction from a raw record and writing it back:
    when [normalizeInput] accepts the record, its amount and fee are
    numerals without padding of numbers of a magnitude below [10^21],
    where the library prints plain decimal numerals, its signature is
    absent or not empty, and its second signature is absent or comes not
    empty with a signature, the constructor returns an object whose flag
    is clear, whose amount and fee are those numbers, and whose [toJSON]
    is the raw record, field by field. *)
Theorem constructor_roundtrip (normalizeInput : TransactionJSON -> outcome unit)
    (raw : TransactionJSON) (u : unit) (a f : Z) :
  normalizeInput raw = Returned u ->
  BigNum.canonical (json_amount raw) = true ->
  BigNum.canonical (json_fee raw) = true ->
  BigNum.ofString (json_amount raw) = Some a ->
  BigNum.ofString (json_fee raw) = Some f ->
  BigNum.plain a = true ->
  BigNum.plain f = true ->
  (json_signature raw = None \/ truthy (json_signature raw) = true) ->
  (json_signSignature raw = None \/
   (truthy (json_signature raw) = true /\ truthy (json_signSignature raw) = true)) ->
  exists this : BaseTransaction,
    constructor normalizeInput raw = Returned this /\
    applied this = false /\
    amount this = a /\
    fee this = f /\
    toJSON this = raw.
Proof.
  intros Hn Hca Hcf Ha Hf _ _ Hs Hss. unfold constructor. rewrite Hn.
  apply BigNum_canonical_spec in Hca as (a' & Ha' & Hpa).
  apply BigNum_canonical_spec in Hcf as (f' & Hf' & Hpf).
  assert (a' = a) as -> by congruence.
  assert (f' = f) as -> by congruence.
  rewrite Ha, Hf. eexists. split; [reflexivity|]. split; [reflexivity|].
  split; [reflexivity|]. split; [reflexivity|].
  unfold toJSON.
  cbn [amount fee id recipientId recipientPublicKey senderId senderPublicKey
       signature signatures signSignature timestamp type asset].
  rewrite Hpa, Hpf.
  destruct raw as [i am ty ts spk sid rid rpk fe sgs ast sg ssg].
  cbn [json_id json_amount json_type json_timestamp json_senderPublicKey
       json_senderId json_recipientId json_recipientPublicKey json_fee
       json_signatures json_asset json_signature json_signSignature] in *.
  destruct Hs as [-> | Es].
  - cbn [truthy negb]. destruct Hss as [-> | [E _]]; [reflexivity|discriminate].
  - rewrite Es. cbn [negb]. destruct Hss as [-> | [_ E]].
    + reflexivity.
    + rewrite E. reflexivity.
Qed.

Lemma getBytes_emitted `{Imports} (this : BaseTransaction) :
  - 2 ^ 31 <= timestamp this < 2 ^ 31 ->
  0 <= amount this < 2 ^ 64 ->
  getBytes this = Returned (emittedLayout this).
Proof.
  intros Ht Ha.
  unfold getBytes, emittedLayout, layoutWith, signatureBytes.
  rewrite writeIntLE_fresh by assumption.
  change BYTESIZES.AMOUNT with 8%nat.
  rewrite toBuffer_little_8 by assumption.
  rewrite toJSON_signature, toJSON_signSignature.
  f_equal. cbn [concat Buffer.alloc BYTESIZES.TYPE repeat].
  rewrite app_nil_r.
  change ([Buffer.byteOfZ (type this)] ++ ?l) with (Buffer.byteOfZ (type this) :: l).
  cbn [app]. f_equal. f_equal. f_equal. f_equal; [|f_equal; f_equal].
  - destruct (recipientId this) as [r|]; [|reflexivity].
    cbn [default]. now destruct (truthy (Some r)).
  - destruct (signature this) as [sg|]; [|reflexivity].
    cbn [default]. destruct (truthy (Some sg)) eqn:E; [|reflexivity].
    cbv beta iota. now rewrite E.
  - destruct (truthy (signature this)); [|reflexivity]. cbn [andb].
    destruct (signSignature this) as [sg|]; [|reflexivity].
    cbn [default]. destruct (truthy (Some sg)) eqn:E; [|reflexivity].
    cbv beta iota. now rewrite E.
Qed.

Lemma Returned_inj {A : Type} (a b : A) : Returned a = Returned b -> a = b.
Proof. now intros [= ->]. Qed.

Lemma littleEndian_inj (n : nat) (a b : Z) :
  Buffer.littleEndian n a = Buffer.littleEndian n b ->
  a mod 2 ^ (8 * Z.of_nat n) = b mod 2 ^ (8 * Z.of_nat n).
Proof. intros E. rewrite <- !leToZ_littleEndian. now rewrite E. Qed.

(** X5.  The bytes tell amounts apart and timestamps apart: two
    transactions that differ in the amount only, both amounts not negative
    and below 2^64, have different bytes, and so have two transactions that
    differ in the timestamp only, both timestamps signed 32-bit integers.
    The other field of the two is in its range as well, so that [getBytes]
    returns; the helpers of lisk-cryptography are functions that return. *)
Theorem getBytes_separates `{Imports} (this : BaseTransaction) :
  (forall a a' : Z,
      - 2 ^ 31 <= timestamp this < 2 ^ 31 ->
      0 <= a < 2 ^ 64 -> 0 <= a' < 2 ^ 64 ->
      getBytes (setAmount a this) = getBytes (setAmount a' this) -> a = a') /\
  (forall t t' : Z,
      0 <= amount this < 2 ^ 64 ->
      - 2 ^ 31 <= t < 2 ^ 31 -> - 2 ^ 31 <= t' < 2 ^ 31 ->
      getBytes (setTimestamp t this) = getBytes (setTimestamp t' this) -> t = t').
Proof.
  split.
  - intros a a' Ht Ha Ha'.
    rewrite !getBytes_emitted by assumption.
    unfold emittedLayout, layoutWith.
    cbn [setAmount amount fee id recipientId recipientPublicKey senderId
         senderPublicKey signature signatures signSignature timestamp type asset].
    intros E. apply Returned_inj in E.
    do 4 apply app_inv_head in E.
    apply app_inv_tail in E. apply littleEndian_inj in E.
    change (2 ^ (8 * Z.of_nat 8)) with (2 ^ 64) in E.
    rewrite !Z.mod_small in E by assumption. exact E.
  - intros t t' Ha Ht Ht'.
    rewrite !getBytes_emitted by assumption.
    unfold emittedLayout, layoutWith.
    cbn [setTimestamp amount fee id recipientId recipientPublicKey senderId
         senderPublicKey signature signatures signSignature timestamp type asset].
    intros E. apply Returned_inj in E.
    apply app_inv_head in E.
    apply app_inv_tail in E. apply littleEndian_inj in E.
    change (2 ^ (8 * Z.of_nat 4)) with (2 ^ 32) in E.
    assert (E2 : (t + 2 ^ 31) mod 2 ^ 32 = (t' + 2 ^ 31) mod 2 ^ 32).
    { rewrite <- (Zplus_mod_idemp_l t), <- (Zplus_mod_idemp_l t'). now rewrite E. }
    rewrite !Z.mod_small in E2 by lia. lia.
Qed.

(** X6.  [getBytes] returns bytes exactly when the timestamp is a signed
    32-bit integer and the amount is not negative (an amount of 2^64 or
    more included), the helpers of lisk-cryptography being functions that
    return.  Outside that, it throws the range error of [writeIntLE] for
    the timestamp, and for a timestamp in range and a negative amount the
    error of [toBuffer]. *)
Theorem getBytes_returns `{Imports} (this : BaseTransaction) :
  ((exists bytes, getBytes this = Returned bytes) <->
   (- 2 ^ 31 <= timestamp this < 2 ^ 31 /\ 0 <= amount this)) /\
  (~ (- 2 ^ 31 <= timestamp this < 2 ^ 31) -> getBytes this = Thrown "RangeError") /\
  (- 2 ^ 31 <= timestamp this < 2 ^ 31 -> amount this < 0 ->
   getBytes this = Thrown "converting negative numbers to Buffers not supported yet").
Proof.
  assert (Hw : forall v,
             (- 2 ^ 31 <= v < 2 ^ 31 ->
              Buffer.writeIntLE (Buffer.alloc 4 0) v 0 4 = Returned (Buffer.littleEndian 4 v)) /\
             (~ (- 2 ^ 31 <= v < 2 ^ 31) ->
              Buffer.writeIntLE (Buffer.alloc 4 0) v 0 4 = Thrown "RangeError")).
  { intros v. split; [apply writeIntLE_fresh|].
    intros Hv. unfold Buffer.writeIntLE.
    change (2 ^ (8 * Z.of_nat 4 - 1)) with (2 ^ 31).
    destruct (Z.leb_spec (- 2 ^ 31) v); [|reflexivity].
    destruct (Z.ltb_spec v (2 ^ 31)); [lia|reflexivity]. }
  assert (Hthrow1 : ~ (- 2 ^ 31 <= timestamp this < 2 ^ 31) ->
                    getBytes this = Thrown "RangeError").
  { intros Ht. unfold getBytes. change BYTESIZES.TIMESTAMP with 4%nat.
    now rewrite (proj2 (Hw _) Ht). }
  assert (Hthrow2 : - 2 ^ 31 <= timestamp this < 2 ^ 31 -> amount this < 0 ->
            getBytes this = Thrown "converting negative numbers to Buffers not supported yet").
  { intros Ht Ha. unfold getBytes. change BYTESIZES.TIMESTAMP with 4%nat.
    rewrite (proj1 (Hw _) Ht). unfold BigNum.toBuffer.
    destruct (Z.ltb_spec (amount this) 0); [reflexivity|lia]. }
  split; [|split; assumption].
  split.
  - intros [bytes Hb].
    destruct (Z_le_dec (- 2 ^ 31) (timestamp this)) as [H1|H1];
      [|rewrite Hthrow1 in Hb by lia; discriminate].
    destruct (Z_lt_dec (timestamp this) (2 ^ 31)) as [H2|H2];
      [|rewrite Hthrow1 in Hb by lia; discriminate].
    destruct (Z_le_dec 0 (amount this)) as [H3|H3]; [lia|].
    rewrite Hthrow2 in Hb by lia. discriminate.
  - intros [Ht Ha]. unfold getBytes. change BYTESIZES.TIMESTAMP with 4%nat.
    rewrite (proj1 (Hw _) Ht). unfold BigNum.toBuffer.
    destruct (Z.ltb_spec (amount this) 0); [lia|]. eexists. reflexivity.
Qed.

(** X17.  [getBytes] reads seven fields and no other: two transactions
    with the same type, timestamp, sender public key, recipient, amount,
    signature and second signature give the same outcome, bytes or error,
    whatever their identifier, sender address, recipient public key, fee,
    list of signatures, asset and flag are.  The asset in particular is
    not among the bytes. *)
Theorem getBytes_reads `{Imports} (this that : BaseTransaction) :
  type this = type that ->
  timestamp this = timestamp that ->
  senderPublicKey this = senderPublicKey that ->
  recipientId this = recipientId that ->
  amount this = amount that ->
  signature this = signature that ->
  signSignature this = signSignature that ->
  getBytes this = getBytes that.
Proof.
  intros Hty Hts Hpk Hr Ha Hs Hss. unfold getBytes.
  rewrite !toJSON_signature, !toJSON_signSignature.
  now rewrite Hty, Hts, Hpk, Hr, Ha, Hs, Hss.
Qed.

End MoreSerializationProps.

(** ** lisk-blockchain: the families on every type of transaction *)

Section MoreEffects.
Import Blockchain Jobs Ledger.
Context `{Cryptography}.

Lemma spawns_amount st0 tx key recipient g :
  recipientIdOf st0 tx = Some key ->
  BUCKET_ADDRESS_ACCOUNT st0 !! key = Some recipient ->
  exists n, spawns st0 n (forRecipientDelegates tx (updateDelegateVote g))
                   (jobsFor g (delegateAddressesOf recipient)).
Proof.
  unfold recipientIdOf. intros Hr Hk.
  destruct (Z.eqb_spec (type tx) TRANSACTION_TYPE_IN_TRANSFER) as [Hty|Hty].
  - destruct (inTransfer_dappId (asset tx)) as [dappId|] eqn:Hid; [|discriminate].
    cbn in Hr.
    destruct (BUCKET_TX_ID_TX st0 !! dappId) as [dappTx|] eqn:Htx; [|discriminate].
    cbn in Hr. injection Hr as <-.
    exists 3%nat. now apply (spawns_inTransfer st0 tx dappId dappTx).
  - exists 2%nat. unfold forRecipientDelegates, isTransferType.
    assert (E : existsb (Z.eqb (type tx))
                  [TRANSACTION_TYPE_TRANSFER; TRANSACTION_TYPE_IN_TRANSFER;
                   TRANSACTION_TYPE_OUT_TRANSFER] = true).
    { cbn [existsb].
      destruct (type tx =? TRANSACTION_TYPE_TRANSFER); [reflexivity|].
      destruct (type tx =? TRANSACTION_TYPE_OUT_TRANSFER); [|discriminate].
      now rewrite orb_true_r. }
    rewrite E. cbn [negb].
    destruct (Z.eqb_spec (type tx) TRANSACTION_TYPE_IN_TRANSFER); [contradiction|].
    destruct ((type tx =? TRANSACTION_TYPE_TRANSFER)
              || (type tx =? TRANSACTION_TYPE_OUT_TRANSFER)); [|discriminate].
    rewrite Hr.
    eapply spawns_getAccount; [exact Hk|].
    intros d Hd. rewrite (delegateAddressesOf_same recipient d Hd).
    apply spawns_forEach_jobs.
Qed.

Lemma recipientIdOf_type st tx key :
  recipientIdOf st tx = Some key -> type tx <> TRANSACTION_TYPE_VOTE.
Proof.
  unfold recipientIdOf. intros Hr Hty. rewrite Hty in Hr. discriminate.
Qed.

Lemma recipientIdOf_store st st' tx :
  BUCKET_TX_ID_TX st' = BUCKET_TX_ID_TX st ->
  recipientIdOf st' tx = recipientIdOf st tx.
Proof. intros E. unfold recipientIdOf. now rewrite E. Qed.

Lemma applyNewVote_other (tx : Transaction) :
  type tx <> TRANSACTION_TYPE_VOTE ->
  applyNewVote tx = Resolve /\ undoNewVote tx = Resolve.
Proof.
  intros Hty. unfold applyNewVote, undoNewVote.
  destruct (Z.eqb_spec (type tx) TRANSACTION_TYPE_VOTE); [contradiction|].
  split; reflexivity.
Qed.

Lemma address_groupJobs gs : map job_address (groupJobs gs) = groupAddresses gs.
Proof.
  unfold groupJobs, groupAddresses. induction gs as [|[[g d] l] gs IH]; [reflexivity|].
  cbn [map concat fst snd]. now rewrite map_app, address_jobsFor, IH.
Qed.

Lemma elem_of_groupJobs j gs :
  j ∈ groupJobs gs <->
  exists g d l a, (g, d, l) ∈ gs /\ a ∈ l /\ j = mkJob a g.
Proof.
  unfold groupJobs. induction gs as [|[[g d] l] gs IH]; cbn [map concat fst snd].
  - split; [intros Hj; now apply elem_of_nil in Hj|].
    intros (g & d & l & a & Hg & _). now apply elem_of_nil in Hg.
  - rewrite elem_of_app, elem_of_jobsFor, IH. split.
    + intros [(a & Ha & ->)|(g' & d' & l' & a & Hg & Ha & ->)].
      * exists g, d, l, a. split; [apply list_elem_of_here|auto].
      * exists g', d', l', a. split; [now apply list_elem_of_further|auto].
    + intros (g' & d' & l' & a & Hg & Ha & ->).
      apply elem_of_cons in Hg as [[= -> -> ->]|Hg]; [left; eauto|].
      right. exists g', d', l', a. auto.
Qed.

(** Calls whose jobs come in groups, started together on the store [st]:
    when the groups name pairwise different delegates, every delegate of a
    group has its weight shifted by the number of the group. *)
Lemma groups_effect st (calls : list async) (specs : list (nat * list job))
    (gs : list group) :
  Forall2 (fun t spec => spawns st (fst spec) t (snd spec)) calls specs ->
  concat (map snd specs) = groupJobs gs ->
  (forall g d l, (g, d, l) ∈ gs -> shifts g d) ->
  NoDup (groupAddresses gs) ->
  (forall a, a ∈ groupAddresses gs -> is_Some (weightOf st a)) ->
  settlesWith calls st (fun st' =>
    (forall g d l a v, (g, d, l) ∈ gs -> a ∈ l -> weightOf st a = Some v ->
                       weightOf st' a = Some (v + d)) /\
    (forall a, a ∉ groupAddresses gs ->
        BUCKET_ADDRESS_ACCOUNT st' !! a = BUCKET_ADDRESS_ACCOUNT st !! a) /\
    (forall a d0, BUCKET_ADDRESS_ACCOUNT st !! a = Some d0 ->
        exists d, BUCKET_ADDRESS_ACCOUNT st' !! a = Some d /\ sameButVotes d0 d) /\
    BUCKET_TX_ID_TX st' = BUCKET_TX_ID_TX st).
Proof.
  intros Hsp HJ Hsh Hnd Hw.
  eapply settlesWith_impl.
  - apply (calls_settle st calls specs Hsp). rewrite HJ.
    apply jobsValid_intro.
    + now rewrite address_groupJobs.
    + intros j Hj. apply elem_of_groupJobs in Hj as (g & d & l & a & Hg & Ha & ->).
      cbn [job_address job_newVotes]. split.
      * apply Hw. rewrite <- address_groupJobs. apply list_elem_of_fmap.
        exists (mkJob a g). split; [reflexivity|].
        apply elem_of_groupJobs. exists g, d, l, a. auto.
      * exists d. now apply (Hsh g d l).
  - cbn beta zeta. rewrite HJ, address_groupJobs. intros st' (H1 & H2 & H3 & H4).
    repeat split; auto.
    intros g d l a v Hg Ha Hv.
    apply (H1 (mkJob a g) d v); [|now apply (Hsh g d l)|exact Hv].
    apply elem_of_groupJobs. exists g, d, l, a. auto.
Qed.

Lemma sameButWeights_refl st : sameButWeights st st.
Proof. split; [|reflexivity]. intros a d0 Ha. exists d0. split; [exact Ha|apply sameButVotes_refl]. Qed.

Lemma elem_of_groupAddresses a gs :
  a ∈ groupAddresses gs <-> exists g d l, (g, d, l) ∈ gs /\ a ∈ l.
Proof.
  rewrite <- address_groupJobs, list_elem_of_fmap. split.
  - intros (j & -> & Hj). apply elem_of_groupJobs in Hj as (g & d & l & a & Hg & Ha & ->).
    exists g, d, l. auto.
  - intros (g & d & l & Hg & Ha). exists (mkJob a g). split; [reflexivity|].
    apply elem_of_groupJobs. exists g, d, l, a. auto.
Qed.

Lemma weightOf_same st st' a :
  BUCKET_ADDRESS_ACCOUNT st' !! a = BUCKET_ADDRESS_ACCOUNT st !! a ->
  weightOf st' a = weightOf st a.
Proof. intros E. unfold weightOf. now rewrite E. Qed.

(** Apply and then undo: when the calls of the undo start the jobs of the
    same groups with the opposite numbers, every weight comes back. *)
Lemma round_trip st (applyCalls undoCalls : list async) (gs gsUndo : list group) :
  (exists specs,
      Forall2 (fun t spec => spawns st (fst spec) t (snd spec)) applyCalls specs /\
      concat (map snd specs) = groupJobs gs) ->
  (forall st1, sameButWeights st st1 -> exists specs,
      Forall2 (fun t spec => spawns st1 (fst spec) t (snd spec)) undoCalls specs /\
      concat (map snd specs) = groupJobs gsUndo) ->
  (forall g d l, (g, d, l) ∈ gs -> shifts g d) ->
  (forall g d l, (g, d, l) ∈ gsUndo -> shifts g d) ->
  Forall2 (fun (g gU : group) => snd (fst gU) = - snd (fst g) /\ snd gU = snd g)
          gs gsUndo ->
  NoDup (groupAddresses gs) ->
  (forall a, a ∈ groupAddresses gs -> is_Some (weightOf st a)) ->
  settlesWith applyCalls st (fun st1 =>
    (forall g d l a v, (g, d, l) ∈ gs -> a ∈ l -> weightOf st a = Some v ->
                       weightOf st1 a = Some (v + d)) /\
    (forall a, a ∉ groupAddresses gs ->
        BUCKET_ADDRESS_ACCOUNT st1 !! a = BUCKET_ADDRESS_ACCOUNT st !! a) /\
    settlesWith undoCalls st1 (fun st2 =>
      forall a v, weightOf st a = Some v -> weightOf st2 a = Some v)).
Proof.
  intros (specs & Hsp & HJ) Hundo Hsh HshU HU Hnd Hw.
  assert (HA : groupAddresses gsUndo = groupAddresses gs).
  { unfold groupAddresses. clear -HU.
    induction HU as [|g gU gs gsU [_ E] _ IH]; [reflexivity|].
    cbn [map concat]. now rewrite E, IH. }
  eapply settlesWith_impl.
  - apply (groups_effect st applyCalls specs gs Hsp HJ Hsh Hnd Hw).
  - cbn beta. intros st1 (H1 & H2 & H3 & H4).
    split; [exact H1|]. split; [exact H2|].
    destruct (Hundo st1 (conj H3 H4)) as (specsU & HspU & HJU).
    eapply settlesWith_impl.
    + apply (groups_effect st1 undoCalls specsU gsUndo HspU HJU HshU).
      * now rewrite HA.
      * rewrite HA. intros a Ha. destruct (Hw a Ha) as [v Hv].
        apply elem_of_groupAddresses in Ha as (g & d & l & Hg & Ha).
        exists (v + d). now apply (H1 g d l).
    + cbn beta. rewrite HA. intros st2 (K1 & K2 & _) a v Hv.
      destruct (decide (a ∈ groupAddresses gs)) as [Ha|Ha].
      * apply elem_of_groupAddresses in Ha as (g & d & l & Hg & Ha).
        apply list_elem_of_lookup in Hg as [i Hi].
        destruct (Forall2_lookup_l _ _ _ _ _ HU Hi) as ([[gU dU] lU] & HiU & Hd & Hl).
        cbn [fst snd] in Hd, Hl. subst dU lU.
        replace v with (v + d + - d) by lia.
        apply (K1 gU (- d) l); [now apply (list_elem_of_lookup_2 _ i)|exact Ha|].
        apply (H1 g d l); [now apply (list_elem_of_lookup_2 _ i)|exact Ha|exact Hv].
      * rewrite (weightOf_same st1 st2 a (K2 a Ha)).
        now rewrite (weightOf_same st st1 a (H2 a Ha)).
Qed.

Lemma both_ways st (applyCalls undoCalls : list async) (gs gsUndo : list group) :
  (exists specs,
      Forall2 (fun t spec => spawns st (fst spec) t (snd spec)) applyCalls specs /\
      concat (map snd specs) = groupJobs gs) ->
  (forall st1, sameButWeights st st1 -> exists specs,
      Forall2 (fun t spec => spawns st1 (fst spec) t (snd spec)) undoCalls specs /\
      concat (map snd specs) = groupJobs gsUndo) ->
  (forall g d l, (g, d, l) ∈ gs -> shifts g d) ->
  (forall g d l, (g, d, l) ∈ gsUndo -> shifts g d) ->
  Forall2 (fun (g gU : group) => snd (fst gU) = - snd (fst g) /\ snd gU = snd g)
          gs gsUndo ->
  NoDup (groupAddresses gs) ->
  (forall a, a ∈ groupAddresses gs -> is_Some (weightOf st a)) ->
  settlesWith applyCalls st (fun st1 =>
    (forall g d l a v, (g, d, l) ∈ gs -> a ∈ l -> weightOf st a = Some v ->
                       weightOf st1 a = Some (v + d)) /\
    (forall a, a ∉ groupAddresses gs ->
        BUCKET_ADDRESS_ACCOUNT st1 !! a = BUCKET_ADDRESS_ACCOUNT st !! a) /\
    settlesWith undoCalls st1 (fun st2 =>
      forall a v, weightOf st a = Some v -> weightOf st2 a = Some v)) /\
  settlesWith undoCalls st (fun st1 =>
    (forall g d l a v, (g, d, l) ∈ gsUndo -> a ∈ l -> weightOf st a = Some v ->
                       weightOf st1 a = Some (v + d)) /\
    (forall a, a ∉ groupAddresses gs ->
        BUCKET_ADDRESS_ACCOUNT st1 !! a = BUCKET_ADDRESS_ACCOUNT st !! a)).
Proof.
  intros Happly Hundo Hsh HshU HU Hnd Hw.
  split; [now apply (round_trip st applyCalls undoCalls gs gsUndo)|].
  assert (HA : groupAddresses gsUndo = groupAddresses gs).
  { unfold groupAddresses. clear -HU.
    induction HU as [|g gU gs gsU [_ E] _ IH]; [reflexivity|].
    cbn [map concat]. now rewrite E, IH. }
  destruct (Hundo st (sameButWeights_refl st)) as (specsU & HspU & HJU).
  eapply settlesWith_impl.
  - apply (groups_effect st undoCalls specsU gsUndo HspU HJU HshU); now rewrite HA.
  - cbn beta. rewrite HA. intros st1 (K1 & K2 & _). split; assumption.
Qed.

Lemma spawns_specs1 st n call js :
  spawns st n call js ->
  exists specs,
    Forall2 (fun t spec => spawns st (fst spec) t (snd spec)) [call] specs /\
    concat (map snd specs) = js ++ [].
Proof.
  intros Hsp. exists [(n, js)]. split; [|reflexivity].
  constructor; [exact Hsp|constructor].
Qed.

Lemma spawns_specs3 st n1 n2 n3 c1 c2 c3 js1 js2 js3 :
  spawns st n1 c1 js1 -> spawns st n2 c2 js2 -> spawns st n3 c3 js3 ->
  exists specs,
    Forall2 (fun t spec => spawns st (fst spec) t (snd spec)) [c1; c2; c3] specs /\
    concat (map snd specs) = js1 ++ js2 ++ js3 ++ [].
Proof.
  intros H1 H2 H3. exists [(n1, js1); (n2, js2); (n3, js3)]. split; [|reflexivity].
  repeat (constructor; [assumption|]). constructor.
Qed.

(** X7.  The amount family on a transfer, an in-transfer or an
    out-transfer.  The recipient is the account at [recipientId], and for
    an in-transfer at the sender of the transaction the asset names.  In
    every order of the store operations, once the writes have settled
    [applyAmount] has added the amount to the weight of every delegate the
    recipient votes for and left every other account as it was, and
    [undoAmount] after it gives every weight in the store back;
    [undoAmount] on its own subtracts the amount.  The recipient is in the
    store, the amount reads as a number, the delegates the recipient votes
    for have pairwise different addresses and accounts whose weights read
    as numbers. *)
Theorem amount_effect (st : StateStore) (tx : Transaction) (key : string)
    (recipient : Account) (m : Z) :
  let paid := delegateAddressesOf recipient in
  recipientIdOf st tx = Some key ->
  BUCKET_ADDRESS_ACCOUNT st !! key = Some recipient ->
  BigNum.ofString (amount tx) = Some m ->
  NoDup paid ->
  (forall a, a ∈ paid -> is_Some (weightOf st a)) ->
  settlesWith [applyAmount tx] st (fun st1 =>
    (forall a v, a ∈ paid -> weightOf st a = Some v -> weightOf st1 a = Some (v + m)) /\
    (forall a, a ∉ paid ->
        BUCKET_ADDRESS_ACCOUNT st1 !! a = BUCKET_ADDRESS_ACCOUNT st !! a) /\
    settlesWith [undoAmount tx] st1 (fun st2 =>
      forall a v, weightOf st a = Some v -> weightOf st2 a = Some v)) /\
  settlesWith [undoAmount tx] st (fun st1 =>
    (forall a v, a ∈ paid -> weightOf st a = Some v -> weightOf st1 a = Some (v - m)) /\
    (forall a, a ∉ paid ->
        BUCKET_ADDRESS_ACCOUNT st1 !! a = BUCKET_ADDRESS_ACCOUNT st !! a)).
Proof.
  intros paid Hr Hk Hm Hnd Hw.
  pose (gs := [(votesAdd (amount tx), m, paid)] : list group).
  pose (gsU := [(votesSub (amount tx), - m, paid)] : list group).
  assert (HA : groupAddresses gs = paid).
  { unfold groupAddresses, gs. cbn [map concat snd]. apply app_nil_r. }
  destruct (both_ways st [applyAmount tx] [undoAmount tx] gs gsU) as [Ha Hu].
  - destruct (spawns_amount st tx key recipient (votesAdd (amount tx)) Hr Hk) as [n Hsp].
    now apply (spawns_specs1 st n).
  - intros st1 [Hsame Htx]. destruct (Hsame _ _ Hk) as (recipient' & Hk' & Hs').
    rewrite <- (recipientIdOf_store st st1 tx Htx) in Hr.
    destruct (spawns_amount st1 tx key recipient' (votesSub (amount tx)) Hr Hk')
      as [n Hsp].
    rewrite (delegateAddressesOf_same _ _ Hs') in Hsp.
    now apply (spawns_specs1 st1 n).
  - intros g d l Hg. apply list_elem_of_singleton in Hg as [= -> -> ->].
    now apply shifts_votesAdd.
  - intros g d l Hg. apply list_elem_of_singleton in Hg as [= -> -> ->].
    now apply shifts_votesSub.
  - repeat constructor.
  - now rewrite HA.
  - now rewrite HA.
  - rewrite HA in Ha, Hu. split.
    + eapply settlesWith_impl; [exact Ha|]. cbn beta. intros st1 (H1 & H2 & H3).
      split; [|split; assumption].
      intros a v Hin Hv. apply (H1 (votesAdd (amount tx)) m paid); auto.
      apply list_elem_of_here.
    + eapply settlesWith_impl; [exact Hu|]. cbn beta. intros st1 (H1 & H2).
      split; [|assumption].
      intros a v Hin Hv. apply (H1 (votesSub (amount tx)) (- m) paid); auto.
      apply list_elem_of_here.
Qed.

Lemma spawns_amountDelegates st tx paid g :
  amountDelegates st tx = Some paid ->
  exists n, spawns st n (forRecipientDelegates tx (updateDelegateVote g)) (jobsFor g paid).
Proof.
  unfold amountDelegates. intros Hp.
  destruct (isTransferType tx) eqn:Hty.
  - destruct (recipientIdOf st tx) as [key|] eqn:Hr; [|discriminate]. cbn in Hp.
    destruct (BUCKET_ADDRESS_ACCOUNT st !! key) as [recipient|] eqn:Hk; [|discriminate].
    cbn in Hp. injection Hp as <-. now apply (spawns_amount st tx key).
  - injection Hp as <-. exists 0%nat. unfold forRecipientDelegates. rewrite Hty.
    apply spawns_resolve.
Qed.

Lemma amountDelegates_store st st1 tx paid :
  sameButWeights st st1 ->
  amountDelegates st tx = Some paid -> amountDelegates st1 tx = Some paid.
Proof.
  intros [Hsame Htx]. unfold amountDelegates.
  destruct (isTransferType tx); [|auto].
  rewrite (recipientIdOf_store st st1 tx Htx).
  destruct (recipientIdOf st tx) as [key|]; [|discriminate]. cbn.
  destruct (BUCKET_ADDRESS_ACCOUNT st !! key) as [recipient|] eqn:Hk; [|discriminate].
  destruct (Hsame _ _ Hk) as (recipient' & -> & Hs). cbn.
  now rewrite (delegateAddressesOf_same _ _ Hs).
Qed.

(** X8.  [applyVote] and [undoVote] on a transaction that is not a vote.
    In every order of the store operations, once the writes have settled
    [applyVote] has subtracted the fee from the weight of every delegate
    the sender votes for, added the amount to the weight of every delegate
    the recipient votes for (there are none when the transaction is no
    transfer of any kind), and left every other account as it was;
    [undoVote] after it gives every weight in the store back, and
    [undoVote] on its own does the opposite.  The sender and the recipient
    are in the store, fee and amount read as numbers, and the delegates of
    the two lists together have pairwise different addresses and accounts
    whose weights read as numbers. *)
Theorem applyVote_nonvote (st : StateStore) (tx : Transaction) (sender : Account)
    (paid : list string) (f m : Z) :
  let voted := delegateAddressesOf sender in
  type tx <> TRANSACTION_TYPE_VOTE ->
  BUCKET_ADDRESS_ACCOUNT st !! senderId tx = Some sender ->
  amountDelegates st tx = Some paid ->
  BigNum.ofString (fee tx) = Some f ->
  BigNum.ofString (amount tx) = Some m ->
  NoDup (voted ++ paid) ->
  (forall a, a ∈ voted ++ paid -> is_Some (weightOf st a)) ->
  settlesWith (applyVote tx) st (fun st1 =>
    (forall a v, a ∈ voted -> weightOf st a = Some v -> weightOf st1 a = Some (v - f)) /\
    (forall a v, a ∈ paid -> weightOf st a = Some v -> weightOf st1 a = Some (v + m)) /\
    (forall a, a ∉ voted ++ paid ->
        BUCKET_ADDRESS_ACCOUNT st1 !! a = BUCKET_ADDRESS_ACCOUNT st !! a) /\
    settlesWith (undoVote tx) st1 (fun st2 =>
      forall a v, weightOf st a = Some v -> weightOf st2 a = Some v)) /\
  settlesWith (undoVote tx) st (fun st1 =>
    (forall a v, a ∈ voted -> weightOf st a = Some v -> weightOf st1 a = Some (v + f)) /\
    (forall a v, a ∈ paid -> weightOf st a = Some v -> weightOf st1 a = Some (v - m)) /\
    (forall a, a ∉ voted ++ paid ->
        BUCKET_ADDRESS_ACCOUNT st1 !! a = BUCKET_ADDRESS_ACCOUNT st !! a)).
Proof.
  intros voted Hty Hs Hp Hf Hm Hnd Hw.
  pose (gs := [(votesSub (fee tx), - f, voted); (votesAdd (amount tx), m, paid)]
              : list group).
  pose (gsU := [(votesAdd (fee tx), - - f, voted); (votesSub (amount tx), - m, paid)]
               : list group).
  assert (HA : groupAddresses gs = voted ++ paid).
  { unfold groupAddresses, gs. cbn [map concat snd]. now rewrite app_nil_r. }
  destruct (applyNewVote_other tx Hty) as [Hn1 Hn2].
  unfold applyVote, undoVote. rewrite Hn1, Hn2.
  destruct (both_ways st [applyFee tx; applyAmount tx; Resolve]
              [undoFee tx; undoAmount tx; Resolve] gs gsU) as [Ha Hu].
  - destruct (spawns_amountDelegates st tx paid (votesAdd (amount tx)) Hp) as [n Hsp].
    destruct (spawns_specs3 st 2 n 0 _ _ _ _ _ _
                (spawns_feeCall st tx sender (votesSub (fee tx)) Hs) Hsp
                (spawns_resolve st))
      as (specs & HF & HC).
    exists specs. split; [exact HF|]. rewrite HC. reflexivity.
  - intros st1 Hst1. pose proof (amountDelegates_store st st1 tx paid Hst1 Hp) as Hp1.
    destruct Hst1 as [Hsame Htx].
    destruct (Hsame _ _ Hs) as (sender' & Hs' & Hsd).
    destruct (spawns_amountDelegates st1 tx paid (votesSub (amount tx)) Hp1) as [n Hsp].
    pose proof (spawns_feeCall st1 tx sender' (votesAdd (fee tx)) Hs') as Hfee.
    rewrite (delegateAddressesOf_same _ _ Hsd) in Hfee.
    destruct (spawns_specs3 st1 2 n 0 _ _ _ _ _ _ Hfee Hsp (spawns_resolve st1))
      as (specs & HF & HC).
    exists specs. split; [exact HF|]. rewrite HC. reflexivity.
  - intros g d l Hg. apply elem_of_cons in Hg as [[= -> -> ->]|Hg];
      [now apply shifts_votesSub|].
    apply list_elem_of_singleton in Hg as [= -> -> ->]. now apply shifts_votesAdd.
  - intros g d l Hg. apply elem_of_cons in Hg as [[= -> -> ->]|Hg].
    + rewrite Z.opp_involutive. now apply shifts_votesAdd.
    + apply list_elem_of_singleton in Hg as [= -> -> ->]. now apply shifts_votesSub.
  - repeat constructor.
  - now rewrite HA.
  - now rewrite HA.
  - rewrite HA in Ha, Hu. split.
    + eapply settlesWith_impl; [exact Ha|]. cbn beta. intros st1 (H1 & H2 & H3).
      split; [|split; [|split; assumption]].
      * intros a v Hin Hv. apply (H1 (votesSub (fee tx)) (- f) voted); auto.
        apply list_elem_of_here.
      * intros a v Hin Hv. apply (H1 (votesAdd (amount tx)) m paid); auto.
        apply list_elem_of_further, list_elem_of_here.
    + eapply settlesWith_impl; [exact Hu|]. cbn beta. intros st1 (H1 & H2).
      split; [|split; [|assumption]].
      * intros a v Hin Hv. replace (v + f) with (v + - - f) by lia.
        apply (H1 (votesAdd (fee tx)) (- - f) voted); auto. apply list_elem_of_here.
      * intros a v Hin Hv. apply (H1 (votesSub (amount tx)) (- m) paid); auto.
        apply list_elem_of_further, list_elem_of_here.
Qed.

(** The new-vote family on any list of directives, alone or together with
    the fee family as [applyVote] and [undoVote] run it. *)
Lemma vote_general (feeCalls : bool) (st : StateStore) (tx : Transaction)
    (sender : Account) (votes0 : list string) (B F : Z) :
  let voted := if feeCalls then delegateAddressesOf sender else [] in
  let ups := directives "+" votes0 in
  let downs := directives "-" votes0 in
  type tx = TRANSACTION_TYPE_VOTE ->
  asset_votes (asset tx) = Some votes0 ->
  BUCKET_ADDRESS_ACCOUNT st !! senderId tx = Some sender ->
  BigNum.ofString (balance sender) = Some B ->
  BigNum.ofString (fee tx) = Some F ->
  NoDup (voted ++ ups ++ downs) ->
  (forall a, a ∈ voted ++ ups ++ downs -> is_Some (weightOf st a)) ->
  settlesWith (if feeCalls then applyVote tx else [applyNewVote tx]) st (fun st1 =>
    (forall a v, a ∈ voted -> weightOf st a = Some v -> weightOf st1 a = Some (v - F)) /\
    (forall a v, a ∈ ups -> weightOf st a = Some v -> weightOf st1 a = Some (v + B)) /\
    (forall a v, a ∈ downs -> weightOf st a = Some v ->
                 weightOf st1 a = Some (v + (F - B))) /\
    (forall a, a ∉ voted ++ ups ++ downs ->
        BUCKET_ADDRESS_ACCOUNT st1 !! a = BUCKET_ADDRESS_ACCOUNT st !! a) /\
    settlesWith (if feeCalls then undoVote tx else [undoNewVote tx]) st1 (fun st2 =>
      forall a v, weightOf st a = Some v -> weightOf st2 a = Some v)) /\
  settlesWith (if feeCalls then undoVote tx else [undoNewVote tx]) st (fun st1 =>
    (forall a v, a ∈ voted -> weightOf st a = Some v -> weightOf st1 a = Some (v + F)) /\
    (forall a v, a ∈ ups -> weightOf st a = Some v -> weightOf st1 a = Some (v - B)) /\
    (forall a v, a ∈ downs -> weightOf st a = Some v ->
                 weightOf st1 a = Some (v + (B - F))) /\
    (forall a, a ∉ voted ++ ups ++ downs ->
        BUCKET_ADDRESS_ACCOUNT st1 !! a = BUCKET_ADDRESS_ACCOUNT st !! a)).
Proof.
  intros voted ups downs Hty Hvotes Hs HB HF Hnd Hw.
  pose (gs := [(votesSub (fee tx), - F, voted);
               (votesAdd (balance sender), B, ups);
               (votesSubAdd (balance sender) (fee tx), F - B, downs)] : list group).
  pose (gsU := [(votesAdd (fee tx), - - F, voted);
                (votesSub (balance sender), - B, ups);
                (votesAddSub (balance sender) (fee tx), - (F - B), downs)] : list group).
  assert (HA : groupAddresses gs = voted ++ ups ++ downs).
  { unfold groupAddresses, gs. cbn [map concat snd]. now rewrite app_nil_r. }
  assert (Hspecs : forall st1 voter gFee up down,
             BUCKET_ADDRESS_ACCOUNT st1 !! senderId tx = Some voter ->
             delegateAddressesOf voter = delegateAddressesOf sender ->
             balance voter = balance sender ->
             exists specs,
               Forall2 (fun t spec => spawns st1 (fst spec) t (snd spec))
                 (if feeCalls
                  then [feeCall gFee tx; Resolve; voteCall up down votes0 tx]
                  else [voteCall up down votes0 tx]) specs /\
               concat (map snd specs)
               = jobsFor gFee voted ++ jobsFor (up (balance sender)) ups
                 ++ jobsFor (down (balance sender)) downs ++ []).
  { intros st1 voter gFee up down Hv HD Hbal.
    pose proof (spawns_voteCall st1 tx voter up down votes0 Hv) as HspV.
    rewrite Hbal in HspV. fold ups downs in HspV.
    pose proof (spawns_feeCall st1 tx voter gFee Hv) as HspF. rewrite HD in HspF.
    subst voted. destruct feeCalls.
    - destruct (spawns_specs3 st1 _ _ _ _ _ _ _ _ _ HspF (spawns_resolve st1) HspV)
        as (specs & HF' & HC).
      exists specs. split; [exact HF'|]. rewrite HC. cbn [app].
      now rewrite !app_nil_r.
    - destruct (spawns_specs1 st1 _ _ _ HspV) as (specs & HF' & HC).
      exists specs. split; [exact HF'|]. rewrite HC. cbn [jobsFor map app].
      now rewrite !app_nil_r. }
  rewrite (proj1 (vote_shapes tx votes0 feeCalls Hty Hvotes)).
  rewrite (proj2 (vote_shapes tx votes0 feeCalls Hty Hvotes)).
  destruct (both_ways st
              (if feeCalls
               then [feeCall (votesSub (fee tx)) tx; Resolve;
                     voteCall votesAdd (fun b => votesSubAdd b (fee tx)) votes0 tx]
               else [voteCall votesAdd (fun b => votesSubAdd b (fee tx)) votes0 tx])
              (if feeCalls
               then [feeCall (votesAdd (fee tx)) tx; Resolve;
                     voteCall votesSub (fun b => votesAddSub b (fee tx)) votes0 tx]
               else [voteCall votesSub (fun b => votesAddSub b (fee tx)) votes0 tx])
              gs gsU) as [Ha Hu].
  - apply (Hspecs st sender (votesSub (fee tx)) votesAdd
             (fun b => votesSubAdd b (fee tx)) Hs eq_refl eq_refl).
  - intros st1 [Hsame _]. destruct (Hsame _ _ Hs) as (sender' & Hs' & Hsd).
    apply (Hspecs st1 sender' (votesAdd (fee tx)) votesSub
             (fun b => votesAddSub b (fee tx)) Hs'
             (delegateAddressesOf_same _ _ Hsd) (balance_same _ _ Hsd)).
  - intros g d l Hg. apply elem_of_cons in Hg as [[= -> -> ->]|Hg];
      [now apply shifts_votesSub|].
    apply elem_of_cons in Hg as [[= -> -> ->]|Hg]; [now apply shifts_votesAdd|].
    apply list_elem_of_singleton in Hg as [= -> -> ->]. now apply shifts_votesSubAdd.
  - intros g d l Hg. apply elem_of_cons in Hg as [[= -> -> ->]|Hg].
    { rewrite Z.opp_involutive. now apply shifts_votesAdd. }
    apply elem_of_cons in Hg as [[= -> -> ->]|Hg]; [now apply shifts_votesSub|].
    apply list_elem_of_singleton in Hg as [= -> -> ->].
    replace (- (F - B)) with (B - F) by lia. now apply shifts_votesAddSub.
  - repeat constructor.
  - now rewrite HA.
  - now rewrite HA.
  - rewrite HA in Ha, Hu. split.
    + eapply settlesWith_impl; [exact Ha|]. cbn beta. intros st1 (H1 & H2 & H3).
      split; [|split; [|split; [|split; assumption]]].
      * intros a v Hin Hv. apply (H1 (votesSub (fee tx)) (- F) voted); auto.
        apply list_elem_of_here.
      * intros a v Hin Hv. apply (H1 (votesAdd (balance sender)) B ups); auto.
        apply list_elem_of_further, list_elem_of_here.
      * intros a v Hin Hv.
        apply (H1 (votesSubAdd (balance sender) (fee tx)) (F - B) downs); auto.
        do 2 apply list_elem_of_further. apply list_elem_of_here.
    + eapply settlesWith_impl; [exact Hu|]. cbn beta. intros st1 (H1 & H2).
      split; [|split; [|split; [|assumption]]].
      * intros a v Hin Hv. replace (v + F) with (v + - - F) by lia.
        apply (H1 (votesAdd (fee tx)) (- - F) voted); auto. apply list_elem_of_here.
      * intros a v Hin Hv. apply (H1 (votesSub (balance sender)) (- B) ups); auto.
        apply list_elem_of_further, list_elem_of_here.
      * intros a v Hin Hv. replace (v + (B - F)) with (v + - (F - B)) by lia.
        apply (H1 (votesAddSub (balance sender) (fee tx)) (- (F - B)) downs); auto.
        do 2 apply list_elem_of_further. apply list_elem_of_here.
Qed.

(** X9.  The new-vote family on a vote transaction with any list of
    directives.  In every order of the store operations, once the writes
    have settled [applyNewVote] has added the balance of the sender to the
    weight of every upvoted delegate, added the fee less the balance to
    the weight of every downvoted delegate, and left every other account
    as it was; a directive that begins with neither sign is ignored.
    [undoNewVote] after it gives every weight in the store back, and
    [undoNewVote] on its own does the opposite.  The sender is in the
    store, balance and fee read as numbers, and the delegates of the
    directives have pairwise different addresses and accounts whose
    weights read as numbers. *)
Theorem newVote_effect (st : StateStore) (tx : Transaction) (sender : Account)
    (votes0 : list string) (B F : Z) :
  let ups := directives "+" votes0 in
  let downs := directives "-" votes0 in
  type tx = TRANSACTION_TYPE_VOTE ->
  asset_votes (asset tx) = Some votes0 ->
  BUCKET_ADDRESS_ACCOUNT st !! senderId tx = Some sender ->
  BigNum.ofString (balance sender) = Some B ->
  BigNum.ofString (fee tx) = Some F ->
  NoDup (ups ++ downs) ->
  (forall a, a ∈ ups ++ downs -> is_Some (weightOf st a)) ->
  settlesWith [applyNewVote tx] st (fun st1 =>
    (forall a v, a ∈ ups -> weightOf st a = Some v -> weightOf st1 a = Some (v + B)) /\
    (forall a v, a ∈ downs -> weightOf st a = Some v ->
                 weightOf st1 a = Some (v + (F - B))) /\
    (forall a, a ∉ ups ++ downs ->
        BUCKET_ADDRESS_ACCOUNT st1 !! a = BUCKET_ADDRESS_ACCOUNT st !! a) /\
    settlesWith [undoNewVote tx] st1 (fun st2 =>
      forall a v, weightOf st a = Some v -> weightOf st2 a = Some v)) /\
  settlesWith [undoNewVote tx] st (fun st1 =>
    (forall a v, a ∈ ups -> weightOf st a = Some v -> weightOf st1 a = Some (v - B)) /\
    (forall a v, a ∈ downs -> weightOf st a = Some v ->
                 weightOf st1 a = Some (v + (B - F))) /\
    (forall a, a ∉ ups ++ downs ->
        BUCKET_ADDRESS_ACCOUNT st1 !! a = BUCKET_ADDRESS_ACCOUNT st !! a)).
Proof.
  intros ups downs Hty Hvotes Hs HB HF Hnd Hw.
  destruct (vote_general false st tx sender votes0 B F Hty Hvotes Hs HB HF Hnd Hw)
    as [Ha Hu].
  split.
  - eapply settlesWith_impl; [exact Ha|]. cbn beta. intros st1 (_ & H2 & H3 & H4 & H5).
    split; [exact H2|]. split; [exact H3|]. split; [exact H4|exact H5].
  - eapply settlesWith_impl; [exact Hu|]. cbn beta. intros st1 (_ & H2 & H3 & H4).
    split; [exact H2|]. split; [exact H3|exact H4].
Qed.

(** X10.  [applyVote] and [undoVote] on a vote transaction with any list
    of directives, when the delegates the sender votes for, the upvoted and
    the downvoted delegates are pairwise different.  In every order of the
    store operations, once the writes have settled [applyVote] has
    subtracted the fee from the weight of every delegate the sender votes
    for, added the balance of the sender to the weight of every upvoted
    delegate, added the fee less the balance to the weight of every
    downvoted delegate, and left every other account as it was; [undoVote]
    after it gives every weight in the store back, and [undoVote] on its
    own does the opposite. *)
Theorem applyVote_vote (st : StateStore) (tx : Transaction) (sender : Account)
    (votes0 : list string) (B F : Z) :
  let voted := delegateAddressesOf sender in
  let ups := directives "+" votes0 in
  let downs := directives "-" votes0 in
  type tx = TRANSACTION_TYPE_VOTE ->
  asset_votes (asset tx) = Some votes0 ->
  BUCKET_ADDRESS_ACCOUNT st !! senderId tx = Some sender ->
  BigNum.ofString (balance sender) = Some B ->
  BigNum.ofString (fee tx) = Some F ->
  NoDup (voted ++ ups ++ downs) ->
  (forall a, a ∈ voted ++ ups ++ downs -> is_Some (weightOf st a)) ->
  settlesWith (applyVote tx) st (fun st1 =>
    (forall a v, a ∈ voted -> weightOf st a = Some v -> weightOf st1 a = Some (v - F)) /\
    (forall a v, a ∈ ups -> weightOf st a = Some v -> weightOf st1 a = Some (v + B)) /\
    (forall a v, a ∈ downs -> weightOf st a = Some v ->
                 weightOf st1 a = Some (v + (F - B))) /\
    (forall a, a ∉ voted ++ ups ++ downs ->
        BUCKET_ADDRESS_ACCOUNT st1 !! a = BUCKET_ADDRESS_ACCOUNT st !! a) /\
    settlesWith (undoVote tx) st1 (fun st2 =>
      forall a v, weightOf st a = Some v -> weightOf st2 a = Some v)) /\
  settlesWith (undoVote tx) st (fun st1 =>
    (forall a v, a ∈ voted -> weightOf st a = Some v -> weightOf st1 a = Some (v + F)) /\
    (forall a v, a ∈ ups -> weightOf st a = Some v -> weightOf st1 a = Some (v - B)) /\
    (forall a v, a ∈ downs -> weightOf st a = Some v ->
                 weightOf st1 a = Some (v + (B - F))) /\
    (forall a, a ∉ voted ++ ups ++ downs ->
        BUCKET_ADDRESS_ACCOUNT st1 !! a = BUCKET_ADDRESS_ACCOUNT st !! a)).
Proof.
  intros voted ups downs Hty Hvotes Hs HB HF Hnd Hw.
  exact (vote_general true st tx sender votes0 B F Hty Hvotes Hs HB HF Hnd Hw).
Qed.

End MoreEffects.

(** ** lisk-blockchain: calls that fail *)

Section FailingCalls.
Import Blockchain Jobs Ledger Failures.

Lemma consistent_compatible st0 J roles s :
  jobsValid st0 J -> consistent st0 J roles s -> compatible st0 (store s).
Proof.
  intros [_ HJ] [_ _ Htx Ho Hsame]. split; [|split; assumption].
  intros key Hk. rewrite Ho; [exact Hk|].
  intros Hin. apply list_elem_of_fmap in Hin as (j & -> & Hj).
  destruct (HJ j Hj) as (d0 & w & Hd & _). congruence.
Qed.

Lemma perform_fails st0 st e t :
  compatible st0 st -> fails st0 e t ->
  exists t2, perform st t = (st, t2, []) /\ fails st0 e t2 /\
             (isSettled t = true -> t2 = t).
Proof.
  intros (Hnone & Hsome & Htx) Hf. destruct Hf as [e|key k Hk|e key k d0 Hk Hf|key k Hk|e key k tx0 Hk Hf].
  - exists (Reject e). repeat split. constructor.
  - exists (Reject "NotFound"). cbn [perform]. unfold store_get. rewrite (Hnone _ Hk).
    repeat split; [constructor|discriminate].
  - destruct (Hsome _ _ Hk) as (d & Hd & Hs). exists (k d).
    cbn [perform]. unfold store_get. rewrite Hd. repeat split; [auto|discriminate].
  - exists (Reject "NotFound"). cbn [perform]. unfold store_get. rewrite Htx, Hk.
    repeat split; [constructor|discriminate].
  - exists (k tx0). cbn [perform]. unfold store_get. rewrite Htx, Hk.
    repeat split; [auto|discriminate].
Qed.

Lemma fails_unresolved st0 e t : fails st0 e t -> isResolved t = false.
Proof. now destruct 1. Qed.

Lemma masks_refl st0 t : masks st0 t t.
Proof. now left. Qed.

Lemma step_masked st0 i s s' :
  compatible st0 (store s') -> masked st0 s s' -> masked st0 (step i s) (step i s').
Proof.
  intros Hc (Hst & Hj & Hp). unfold step.
  destruct (pool s !! i) as [t|] eqn:Hi.
  - destruct (Forall2_lookup_l _ _ _ _ _ Hp Hi) as (t' & Hi' & [<-|[[e Hf] ->]]).
    + rewrite Hi', <- Hst. destruct (perform (store s) t) as [[st2 t2] started].
      split; [reflexivity|]. split; [exact Hj|]. cbn [pool].
      apply Forall2_app.
      * apply Forall2_insert; [exact Hp|apply masks_refl].
      * apply Forall2_same_length_lookup_2; [reflexivity|].
        intros k x y Hx Hy. rewrite Hx in Hy. injection Hy as <-. apply masks_refl.
    + rewrite Hi'. cbn [perform]. rewrite <- Hst in Hc.
      destruct (perform_fails st0 (store s) e t Hc Hf) as (t2 & -> & Hf2 & _).
      split; [exact Hst|]. split; [exact Hj|]. cbn [pool].
      apply Forall2_app; [|constructor].
      apply Forall2_insert; [exact Hp|].
      right. split; [now exists e|reflexivity].
  - pose proof (Forall2_length _ _ _ Hp) as Hlen.
    assert (Hi' : pool s' !! i = None).
    { apply lookup_ge_None. apply lookup_ge_None in Hi. lia. }
    rewrite Hi'. split; [exact Hst|]. split; [exact Hj|exact Hp].
Qed.

Lemma step_fails st0 k i s t e :
  compatible st0 (store s) -> pool s !! i = Some t -> fails st0 e t ->
  exists t2, pool (step k s) !! i = Some t2 /\ fails st0 e t2.
Proof.
  intros Hc Hi Hf. unfold step.
  destruct (pool s !! k) as [u|] eqn:Hk; [|now exists t].
  destruct (decide (k = i)) as [->|Hne].
  - rewrite Hi in Hk. injection Hk as <-.
    destruct (perform_fails st0 (store s) e t Hc Hf) as (t2 & -> & Hf2 & _).
    exists t2. split; [|exact Hf2]. cbn [pool]. rewrite app_nil_r.
    apply list_lookup_insert_eq. now apply lookup_lt_Some in Hi.
  - destruct (perform (store s) u) as [[st2 u2] started]. exists t.
    split; [|exact Hf]. cbn [pool].
    rewrite lookup_app_l.
    + now rewrite list_lookup_insert_ne.
    + rewrite length_insert. now apply lookup_lt_Some in Hi.
Qed.

Lemma run_masked st0 J schedule : forall roles s s',
  jobsValid st0 J -> consistent st0 J roles s' -> masked st0 s s' ->
  masked st0 (run schedule s) (run schedule s') /\
  (forall i t e, pool s !! i = Some t -> fails st0 e t ->
     exists t2, pool (run schedule s) !! i = Some t2 /\ fails st0 e t2).
Proof.
  induction schedule as [|i schedule IH]; intros roles s s' HJ Hc Hm.
  - split; [exact Hm|]. intros k t e Hk Hf. now exists t.
  - cbn [run fold_left].
    pose proof (consistent_compatible st0 J roles s' HJ Hc) as Hcomp.
    destruct (step_any st0 J roles s' i HJ Hc) as (roles' & Hc' & _).
    destruct (IH roles' (step i s) (step i s') HJ Hc') as [IH1 IH2].
    { apply step_masked; [exact Hcomp|exact Hm]. }
    split; [exact IH1|].
    intros k t e Hk Hf.
    destruct Hm as (Hst & _). rewrite <- Hst in Hcomp.
    destruct (step_fails st0 i k s t e Hcomp Hk Hf) as (t1 & Hk1 & Hf1).
    apply (IH2 k t1 e Hk1 Hf1).
Qed.

Lemma joined_run schedule : forall s, joined (run schedule s) = joined s.
Proof.
  induction schedule as [|i schedule IH]; intros s; [reflexivity|].
  cbn [run fold_left]. change (joined (run schedule (step i s)) = joined s).
  rewrite IH. unfold step. destruct (pool s !! i); [|reflexivity].
  now destruct (perform (store s) _) as [[? ?] ?].
Qed.

Lemma unresolved_firstn (l : list async) : forall (n i : nat) t,
  l !! i = Some t -> (i < n)%nat -> isResolved t = false ->
  forallb isResolved (firstn n l) = false.
Proof.
  induction l as [|x l IH]; intros n i t Hi Hn Ht; [discriminate|].
  destruct n as [|n]; [lia|]. cbn [firstn forallb].
  destruct i as [|i].
  - injection Hi as ->. now rewrite Ht.
  - rewrite (IH n i t Hi); [apply andb_false_r|lia|exact Ht].
Qed.

Lemma fails_rejects st0 e t :
  fails st0 e t ->
  forall pre post st j, compatible st0 st ->
    exists schedule,
      run schedule {| store := st; pool := pre ++ t :: post; joined := j |}
      = {| store := st; pool := pre ++ Reject e :: post; joined := j |}.
Proof.
  assert (Hstep : forall t t2 pre post st j,
             perform st t = (st, t2, []) ->
             step (length pre) {| store := st; pool := pre ++ t :: post; joined := j |}
             = {| store := st; pool := pre ++ t2 :: post; joined := j |}).
  { intros u u2 pre post st j Hp. unfold step. cbn [pool store joined].
    rewrite list_lookup_middle by reflexivity. rewrite Hp. f_equal.
    rewrite app_nil_r. rewrite insert_app_r_alt by lia.
    now rewrite Nat.sub_diag. }
  induction 1 as [e|key k Hk|e key k d0 Hk Hf IH|key k Hk|e key k tx0 Hk Hf IH];
    intros pre post st j Hc.
  - now exists [].
  - exists [length pre]. cbn [run fold_left]. apply Hstep.
    destruct Hc as (Hnone & _). cbn [perform]. unfold store_get. now rewrite (Hnone _ Hk).
  - destruct Hc as (Hnone & Hsome & Htx). destruct (Hsome _ _ Hk) as (d & Hd & Hs).
    destruct (IH d Hs pre post st j (conj Hnone (conj Hsome Htx))) as (schedule & Hrun).
    exists (length pre :: schedule). cbn [run fold_left].
    rewrite (Hstep _ (k d)); [exact Hrun|].
    cbn [perform]. unfold store_get. now rewrite Hd.
  - exists [length pre]. cbn [run fold_left]. apply Hstep.
    destruct Hc as (_ & _ & Htx). cbn [perform]. unfold store_get. now rewrite Htx, Hk.
  - destruct (IH pre post st j Hc) as (schedule & Hrun).
    exists (length pre :: schedule). cbn [run fold_left].
    rewrite (Hstep _ (k tx0)); [exact Hrun|].
    destruct Hc as (_ & _ & Htx). cbn [perform]. unfold store_get. now rewrite Htx, Hk.
Qed.

Lemma drive_pool st0 st j :
  compatible st0 st ->
  forall post pre,
    forallb isSettled pre = true ->
    Forall (fun t => isSettled t = true \/ exists e, fails st0 e t) post ->
    exists schedule,
      settled (run schedule {| store := st; pool := pre ++ post; joined := j |}) = true.
Proof.
  intros Hc. induction post as [|t post IH]; intros pre Hpre Hpost.
  - exists []. cbn [run fold_left]. unfold settled. cbn [pool]. now rewrite app_nil_r.
  - apply Forall_cons in Hpost as [Ht Hpost].
    assert (Hnext : forall u, isSettled u = true ->
              exists schedule,
                settled (run schedule {| store := st; pool := pre ++ u :: post;
                                         joined := j |}) = true).
    { intros u Hu. destruct (IH (pre ++ [u])) as (schedule & Hs).
      - rewrite forallb_app, Hpre. cbn [forallb]. now rewrite Hu.
      - exact Hpost.
      - exists schedule. now rewrite <- app_assoc in Hs. }
    destruct Ht as [Ht|[e Hf]]; [now apply Hnext|].
    destruct (fails_rejects st0 e t Hf pre post st j Hc) as (schedule1 & Hrun).
    destruct (Hnext (Reject e) eq_refl) as (schedule2 & Hs).
    exists (schedule1 ++ schedule2). now rewrite run_app, Hrun.
Qed.

Lemma drive st0 s s' :
  compatible st0 (store s) -> masked st0 s s' -> settled s' = true ->
  exists more, settled (run more s) = true.
Proof.
  intros Hc (_ & _ & Hp) Hs. destruct s as [st ps j]. cbn [store pool] in *.
  apply (drive_pool st0 st j Hc ps []); [reflexivity|].
  unfold settled in Hs. cbn [pool] in Hs.
  induction Hp as [|t t' ps ps' Hm _ IH]; [constructor|].
  cbn [forallb] in Hs. apply andb_prop in Hs as [Ht Hs].
  constructor; [|now apply IH].
  destruct Hm as [<-|[Hf _]]; [now left|now right].
Qed.

Lemma masked_settled st0 s s' : masked st0 s s' -> settled s = true -> settled s' = true.
Proof.
  intros (_ & _ & Hp). unfold settled.
  induction Hp as [|t t' ps ps' Hm _ IH]; [reflexivity|].
  cbn [forallb]. intros Hs. apply andb_prop in Hs as [Ht Hs].
  rewrite (IH Hs), andb_true_r. destruct Hm as [<-|[_ ->]]; [exact Ht|reflexivity].
Qed.

Lemma fails_settled st0 e t : fails st0 e t -> isSettled t = true -> t = Reject e.
Proof. destruct 1; try discriminate. reflexivity. Qed.

(** Calls of which some fail, started together on the store [st0]: the
    failing calls reject and the others do what they do without them. *)
Lemma failing_calls_settle st0 (calls others : list async)
    (specs : list (nat * list job)) :
  let J := concat (map snd specs) in
  Forall2 (masks st0) calls others ->
  Forall2 (fun t spec => spawns st0 (fst spec) t (snd spec)) others specs ->
  jobsValid st0 J ->
  settlesWith calls st0 (fun st =>
    (forall j delta v, j ∈ J -> shifts (job_newVotes j) delta ->
        weightOf st0 (job_address j) = Some v ->
        weightOf st (job_address j) = Some (v + delta)%Z) /\
    (forall a, a ∉ map job_address J ->
        BUCKET_ADDRESS_ACCOUNT st !! a = BUCKET_ADDRESS_ACCOUNT st0 !! a) /\
    BUCKET_TX_ID_TX st = BUCKET_TX_ID_TX st0) /\
  (forall i t e, calls !! i = Some t -> fails st0 e t ->
     forall schedule,
       let s := run schedule (launch calls st0) in
       resolved s = false /\
       (settled s = true -> pool s !! i = Some (Reject e))).
Proof.
  intros J Hm Hsp HJ.
  pose proof (launch_consistent st0 others specs Hsp) as Hc. fold J in Hc.
  assert (Hm0 : masked st0 (launch calls st0) (launch others st0)).
  { split; [reflexivity|]. split; [|exact Hm].
    cbn [launch joined]. apply (Forall2_length _ _ _ Hm). }
  destruct (calls_settle st0 others specs Hsp HJ) as [Hex Hall]. fold J in Hall.
  split; [split|].
  - intros schedule. destruct (Hex schedule) as (more1 & Hs1).
    destruct (run_masked st0 J (schedule ++ more1) _ _ _ HJ Hc Hm0) as [Hm1 _].
    destruct (run_consistent st0 J (schedule ++ more1) _ _ HJ Hc) as (roles1 & Hc1).
    pose proof (consistent_compatible st0 J roles1 _ HJ Hc1) as Hcomp.
    destruct Hm1 as (Hst & Hj & Hp). rewrite <- Hst in Hcomp.
    destruct (drive st0 _ _ Hcomp (conj Hst (conj Hj Hp)) Hs1) as (more2 & Hs2).
    exists (more1 ++ more2). now rewrite app_assoc, run_app.
  - intros schedule Hs.
    destruct (run_masked st0 J schedule _ _ _ HJ Hc Hm0) as [Hm1 _].
    pose proof (masked_settled st0 _ _ Hm1 Hs) as Hs'.
    destruct Hm1 as (-> & _). destruct (Hall schedule Hs') as (H1 & H2 & _ & H4).
    repeat split; assumption.
  - intros i t e Hi Hf schedule s.
    destruct (run_masked st0 J schedule _ _ _ HJ Hc Hm0) as [_ Hfs].
    destruct (Hfs i t e Hi Hf) as (t2 & Hi2 & Hf2). fold s in Hi2. split.
    + unfold resolved. apply (unresolved_firstn _ _ i t2 Hi2).
      * subst s. rewrite joined_run. cbn [launch joined]. now apply lookup_lt_Some in Hi.
      * now apply (fails_unresolved st0 e).
    + intros Hs. rewrite Hi2. f_equal. apply (fails_settled st0 e t2 Hf2).
      unfold settled in Hs. rewrite forallb_forall in Hs. apply Hs.
      apply list_elem_of_In. now apply (list_elem_of_lookup_2 _ i).
Qed.

Context `{Cryptography}.

Lemma fails_amount st tx callback :
  isTransferType tx = true -> amountDelegates st tx = None ->
  exists e, (e = "NotFound" \/ e = "TypeError") /\
            fails st e (forRecipientDelegates tx callback).
Proof.
  unfold amountDelegates, recipientIdOf, forRecipientDelegates. intros Hty. rewrite Hty.
  cbn [negb].
  assert (Hrec : forall key,
             BUCKET_ADDRESS_ACCOUNT st !! key = None ->
             fails st "NotFound"
               (GetAccount key (fun recipient =>
                  ForEach (map callback (delegateAddressesOf recipient)) Resolve)))
    by (intros key Hk; now apply fails_noAccount).
  destruct (type tx =? TRANSACTION_TYPE_IN_TRANSFER) eqn:Hin.
  - destruct (inTransfer_dappId (asset tx)) as [dappId|];
      [|intros _; exists "TypeError"; split; [now right|constructor]].
    cbn. destruct (BUCKET_TX_ID_TX st !! dappId) as [dappTx|] eqn:Htx.
    + cbn. destruct (BUCKET_ADDRESS_ACCOUNT st !! senderId dappTx) eqn:Hk; [discriminate|].
      intros _. exists "NotFound". split; [now left|].
      apply (fails_transaction st _ _ _ dappTx Htx). now apply Hrec.
    + intros _. exists "NotFound". split; [now left|]. now apply fails_noTransaction.
  - unfold isTransferType in Hty. cbn [existsb] in Hty. rewrite Hin in Hty.
    cbn [orb] in Hty. rewrite orb_false_r in Hty. rewrite Hty.
    destruct (recipientId tx) as [key|];
      [|intros _; exists "NotFound"; split; [now left|constructor]].
    cbn. destruct (BUCKET_ADDRESS_ACCOUNT st !! key) eqn:Hk; [discriminate|].
    intros _. exists "NotFound". split; [now left|]. now apply Hrec.
Qed.

Lemma failing_groups st (calls others : list async) (specs : list (nat * list job))
    (gs : list group) :
  Forall2 (masks st) calls others ->
  Forall2 (fun t spec => spawns st (fst spec) t (snd spec)) others specs ->
  concat (map snd specs) = groupJobs gs ->
  (forall g d l, (g, d, l) ∈ gs -> shifts g d) ->
  NoDup (groupAddresses gs) ->
  (forall a, a ∈ groupAddresses gs -> is_Some (weightOf st a)) ->
  settlesWith calls st (fun st' =>
    (forall g d l a v, (g, d, l) ∈ gs -> a ∈ l -> weightOf st a = Some v ->
                       weightOf st' a = Some (v + d)) /\
    (forall a, a ∉ groupAddresses gs ->
        BUCKET_ADDRESS_ACCOUNT st' !! a = BUCKET_ADDRESS_ACCOUNT st !! a)) /\
  (forall i t e, calls !! i = Some t -> fails st e t ->
     forall schedule,
       let s := run schedule (launch calls st) in
       resolved s = false /\
       (settled s = true -> pool s !! i = Some (Reject e))).
Proof.
  intros Hm Hsp HJ Hsh Hnd Hw.
  destruct (failing_calls_settle st calls others specs Hm Hsp) as [Hs Hf].
  - rewrite HJ. apply jobsValid_intro.
    + now rewrite address_groupJobs.
    + intros j Hj. apply elem_of_groupJobs in Hj as (g & d & l & a & Hg & Ha & ->).
      cbn [job_address job_newVotes]. split.
      * apply Hw. apply elem_of_groupAddresses. exists g, d, l. auto.
      * exists d. now apply (Hsh g d l).
  - split; [|exact Hf].
    eapply settlesWith_impl; [exact Hs|].
    cbn beta zeta. rewrite HJ, address_groupJobs. intros st' (H1 & H2 & _).
    split; [|exact H2].
    intros g d l a v Hg Ha Hv.
    apply (H1 (mkJob a g) d v); [|now apply (Hsh g d l)|exact Hv].
    apply elem_of_groupJobs. exists g, d, l, a. auto.
Qed.

Lemma masks_newVote_missing st tx :
  BUCKET_ADDRESS_ACCOUNT st !! senderId tx = None ->
  masks st (applyNewVote tx) Resolve /\ masks st (undoNewVote tx) Resolve.
Proof.
  intros Hs. unfold applyNewVote, undoNewVote.
  destruct (type tx =? TRANSACTION_TYPE_VOTE); cbn [negb].
  - split; right; (split; [exists "NotFound"; now apply fails_noAccount|reflexivity]).
  - split; now left.
Qed.

(** X11.  The sender of the transaction has no account in the store, so
    that the fee family fails on its first read.  In every order of the
    store operations the promise of [applyVote] is never resolved, and once
    every call has settled its first family has rejected with NotFound;
    all the same the amount family has added the amount to the weight of
    every delegate the recipient votes for, and nothing else has changed.
    The same holds for [undoVote], which subtracts the amount.  The
    recipient of a transfer is in the store, the amount reads as a number,
    and the delegates the recipient votes for have pairwise different
    addresses and accounts whose weights read as numbers. *)
Theorem applyVote_sender_missing (st : StateStore) (tx : Transaction)
    (paid : list string) (m : Z) :
  BUCKET_ADDRESS_ACCOUNT st !! senderId tx = None ->
  amountDelegates st tx = Some paid ->
  BigNum.ofString (amount tx) = Some m ->
  NoDup paid ->
  (forall a, a ∈ paid -> is_Some (weightOf st a)) ->
  (settlesWith (applyVote tx) st (fun st1 =>
     (forall a v, a ∈ paid -> weightOf st a = Some v -> weightOf st1 a = Some (v + m)) /\
     (forall a, a ∉ paid ->
         BUCKET_ADDRESS_ACCOUNT st1 !! a = BUCKET_ADDRESS_ACCOUNT st !! a)) /\
   forall schedule,
     let s := run schedule (launch (applyVote tx) st) in
     resolved s = false /\
     (settled s = true -> pool s !! 0%nat = Some (Reject "NotFound"))) /\
  (settlesWith (undoVote tx) st (fun st1 =>
     (forall a v, a ∈ paid -> weightOf st a = Some v -> weightOf st1 a = Some (v - m)) /\
     (forall a, a ∉ paid ->
         BUCKET_ADDRESS_ACCOUNT st1 !! a = BUCKET_ADDRESS_ACCOUNT st !! a)) /\
   forall schedule,
     let s := run schedule (launch (undoVote tx) st) in
     resolved s = false /\
     (settled s = true -> pool s !! 0%nat = Some (Reject "NotFound"))).
Proof.
  intros Hs Hp Hm Hnd Hw.
  destruct (masks_newVote_missing st tx Hs) as [Hv1 Hv2].
  assert (Hgen : forall (gFee g : Account -> option string) (delta : Z) (vote : async),
             shifts g delta -> masks st vote Resolve ->
             let calls := [feeCall gFee tx;
                           forRecipientDelegates tx (updateDelegateVote g); vote] in
             settlesWith calls st (fun st1 =>
               (forall a v, a ∈ paid -> weightOf st a = Some v ->
                            weightOf st1 a = Some (v + delta)) /\
               (forall a, a ∉ paid ->
                   BUCKET_ADDRESS_ACCOUNT st1 !! a = BUCKET_ADDRESS_ACCOUNT st !! a)) /\
             forall schedule,
               let s := run schedule (launch calls st) in
               resolved s = false /\
               (settled s = true -> pool s !! 0%nat = Some (Reject "NotFound"))).
  { intros gFee g delta vote Hsh Hvote calls.
    destruct (spawns_amountDelegates st tx paid g Hp) as [n Hsp].
    destruct (failing_groups st calls
                [Resolve; forRecipientDelegates tx (updateDelegateVote g); Resolve]
                [(0%nat, []); (n, jobsFor g paid); (0%nat, [])]
                [(g, delta, paid)]) as [Hset Hfail].
    - constructor; [|constructor; [now left|constructor; [exact Hvote|constructor]]].
      right. split; [|reflexivity]. exists "NotFound". now apply fails_noAccount.
    - constructor; [apply spawns_resolve|].
      constructor; [exact Hsp|].
      constructor; [apply spawns_resolve|constructor].
    - reflexivity.
    - intros g' d l Hg. apply list_elem_of_singleton in Hg as [= -> -> ->]. exact Hsh.
    - unfold groupAddresses. cbn [map concat snd]. now rewrite app_nil_r.
    - unfold groupAddresses. cbn [map concat snd]. now rewrite app_nil_r.
    - unfold groupAddresses in Hset. cbn [map concat snd] in Hset.
      rewrite app_nil_r in Hset. split.
      + eapply settlesWith_impl; [exact Hset|]. cbn beta. intros st1 [H1 H2].
        split; [|exact H2]. intros a v Ha Hv. apply (H1 g delta paid); auto.
        apply list_elem_of_here.
      + apply (Hfail 0%nat (feeCall gFee tx) "NotFound"); [reflexivity|].
        now apply fails_noAccount. }
  split.
  - apply (Hgen (votesSub (fee tx)) (votesAdd (amount tx)) m (applyNewVote tx));
      [now apply shifts_votesAdd|exact Hv1].
  - apply (Hgen (votesAdd (fee tx)) (votesSub (amount tx)) (- m) (undoNewVote tx));
      [now apply shifts_votesSub|exact Hv2].
Qed.

Lemma isTransferType_not_vote tx :
  isTransferType tx = true -> type tx <> TRANSACTION_TYPE_VOTE.
Proof. unfold isTransferType. intros Hty E. rewrite E in Hty. discriminate. Qed.

Lemma amount_vote_resolve tx callback :
  type tx = TRANSACTION_TYPE_VOTE -> forRecipientDelegates tx callback = Resolve.
Proof. intros E. unfold forRecipientDelegates, isTransferType. now rewrite E. Qed.

(** X12.  The sender is in the store and another family fails on its
    reads: the amount family of a transfer whose recipient (or, for an
    in-transfer, whose dapp transaction) is not in the store, or the
    new-vote family of a vote whose asset carries no votes.  In every
    order of the store operations the promise of [applyVote] is never
    resolved, and once every call has settled one of its families has
    rejected; all the same the fee family has subtracted the fee from the
    weight of every delegate the sender votes for, and nothing else has
    changed.  The same holds for [undoVote], which adds the fee. *)
Theorem applyVote_partial (st : StateStore) (tx : Transaction) (sender : Account)
    (f : Z) :
  let voted := delegateAddressesOf sender in
  BUCKET_ADDRESS_ACCOUNT st !! senderId tx = Some sender ->
  (isTransferType tx = true /\ amountDelegates st tx = None) \/
  (type tx = TRANSACTION_TYPE_VOTE /\ asset_votes (asset tx) = None) ->
  BigNum.ofString (fee tx) = Some f ->
  NoDup voted ->
  (forall a, a ∈ voted -> is_Some (weightOf st a)) ->
  (settlesWith (applyVote tx) st (fun st1 =>
     (forall a v, a ∈ voted -> weightOf st a = Some v -> weightOf st1 a = Some (v - f)) /\
     (forall a, a ∉ voted ->
         BUCKET_ADDRESS_ACCOUNT st1 !! a = BUCKET_ADDRESS_ACCOUNT st !! a)) /\
   exists (i : nat) (e : string), forall schedule,
     let s := run schedule (launch (applyVote tx) st) in
     resolved s = false /\ (settled s = true -> pool s !! i = Some (Reject e))) /\
  (settlesWith (undoVote tx) st (fun st1 =>
     (forall a v, a ∈ voted -> weightOf st a = Some v -> weightOf st1 a = Some (v + f)) /\
     (forall a, a ∉ voted ->
         BUCKET_ADDRESS_ACCOUNT st1 !! a = BUCKET_ADDRESS_ACCOUNT st !! a)) /\
   exists (i : nat) (e : string), forall schedule,
     let s := run schedule (launch (undoVote tx) st) in
     resolved s = false /\ (settled s = true -> pool s !! i = Some (Reject e))).
Proof.
  intros voted Hs Hcase Hf Hnd Hw.
  assert (Hgen : forall (g : Account -> option string) (delta : Z) (c2 c3 : async),
             shifts g delta ->
             (exists e, fails st e c2) /\ c3 = Resolve \/
             c2 = Resolve /\ (exists e, fails st e c3) ->
             let calls := [feeCall g tx; c2; c3] in
             settlesWith calls st (fun st1 =>
               (forall a v, a ∈ voted -> weightOf st a = Some v ->
                            weightOf st1 a = Some (v + delta)) /\
               (forall a, a ∉ voted ->
                   BUCKET_ADDRESS_ACCOUNT st1 !! a = BUCKET_ADDRESS_ACCOUNT st !! a)) /\
             exists (i : nat) (e : string), forall schedule,
               let s := run schedule (launch calls st) in
               resolved s = false /\
               (settled s = true -> pool s !! i = Some (Reject e))).
  { intros g delta c2 c3 Hsh Hc calls.
    destruct (failing_groups st calls [feeCall g tx; Resolve; Resolve]
                [(2%nat, jobsFor g voted); (0%nat, []); (0%nat, [])]
                [(g, delta, voted)]) as [Hset Hfail].
    - constructor; [now left|].
      destruct Hc as [[He ->]|[-> He]].
      + constructor; [right; now split|]. constructor; [now left|constructor].
      + constructor; [now left|]. constructor; [right; now split|constructor].
    - constructor; [now apply spawns_feeCall|].
      constructor; [apply spawns_resolve|].
      constructor; [apply spawns_resolve|constructor].
    - reflexivity.
    - intros g' d l Hg. apply list_elem_of_singleton in Hg as [= -> -> ->]. exact Hsh.
    - unfold groupAddresses. cbn [map concat snd]. now rewrite app_nil_r.
    - unfold groupAddresses. cbn [map concat snd]. now rewrite app_nil_r.
    - unfold groupAddresses in Hset. cbn [map concat snd] in Hset.
      rewrite app_nil_r in Hset. split.
      + eapply settlesWith_impl; [exact Hset|]. cbn beta. intros st1 [H1 H2].
        split; [|exact H2]. intros a v Ha Hv. apply (H1 g delta voted); auto.
        apply list_elem_of_here.
      + destruct Hc as [[[e He] ->]|[-> [e He]]].
        * exists 1%nat, e. now apply (Hfail 1%nat c2 e).
        * exists 2%nat, e. now apply (Hfail 2%nat c3 e). }
  assert (Hcalls : forall g,
             (exists e, fails st e (forRecipientDelegates tx (updateDelegateVote g))) /\
             applyNewVote tx = Resolve /\ undoNewVote tx = Resolve \/
             forRecipientDelegates tx (updateDelegateVote g) = Resolve /\
             (exists e, fails st e (applyNewVote tx)) /\
             (exists e, fails st e (undoNewVote tx))).
  { intros g. destruct Hcase as [[Hty Hp]|[Hty Hv]].
    - left. destruct (fails_amount st tx (updateDelegateVote g) Hty Hp) as (e & _ & He).
      split; [now exists e|].
      apply applyNewVote_other. now apply isTransferType_not_vote.
    - right. split; [now apply amount_vote_resolve|].
      unfold applyNewVote, undoNewVote. rewrite Hty, Hv. cbn [Z.eqb negb].
      split; exists "TypeError"; (eapply fails_account; [exact Hs|]);
        intros d _; constructor. }
  split.
  - assert (E : forall v, v - f = v + - f) by (intros; lia).
    destruct (Hgen (votesSub (fee tx)) (- f) (applyAmount tx) (applyNewVote tx))
      as [Hset Hrej].
    + now apply shifts_votesSub.
    + destruct (Hcalls (votesAdd (amount tx))) as [(He & Hn & _)|(Ha & He & _)].
      * left. split; [exact He|exact Hn].
      * right. split; [exact Ha|exact He].
    + split; [|exact Hrej].
      eapply settlesWith_impl; [exact Hset|]. cbn beta. intros st1 [H1 H2].
      split; [|exact H2]. intros a v Ha Hv. rewrite E. now apply H1.
  - destruct (Hgen (votesAdd (fee tx)) f (undoAmount tx) (undoNewVote tx))
      as [Hset Hrej].
    + now apply shifts_votesAdd.
    + destruct (Hcalls (votesSub (amount tx))) as [(He & _ & Hn)|(Ha & _ & He)].
      * left. split; [exact He|exact Hn].
      * right. split; [exact Ha|exact He].
    + split; [exact Hset|exact Hrej].
Qed.

End FailingCalls.

(** ** lisk-blockchain: callbacks that fail *)

Section LostErrors.
Import Blockchain Jobs Ledger Failures.
Context `{Cryptography}.

Lemma compatible_refl st : compatible st st.
Proof.
  split; [auto|]. split; [|reflexivity].
  intros key d0 Hk. exists d0. split; [exact Hk|apply sameButVotes_refl].
Qed.

(** The fee family when none of the delegates the sender votes for has an
    account: the stages its pool goes through. *)
Lemma fee_missing_stages st (tx : Transaction) sender g schedule :
  let voted := delegateAddressesOf sender in
  BUCKET_ADDRESS_ACCOUNT st !! senderId tx = Some sender ->
  (forall a, a ∈ voted -> BUCKET_ADDRESS_ACCOUNT st !! a = None) ->
  let s := run schedule (launch [feeCall g tx] st) in
  store s = st /\ joined s = 1%nat /\
  (pool s = [feeCall g tx] \/
   pool s = [ForEach (map (updateDelegateVote g) voted) Resolve] \/
   exists rest, pool s = Resolve :: rest /\
     Forall2 (fun a c => c = updateDelegateVote g a \/ c = Reject "NotFound") voted rest).
Proof.
  intros voted Hs Hmiss. induction schedule as [|i schedule IH] using rev_ind.
  - cbn. repeat split. now left.
  - cbn zeta in *. rewrite run_app. cbn [run fold_left].
    destruct (run schedule (launch [feeCall g tx] st)) as [st1 ps j].
    cbn [store pool joined] in IH. destruct IH as (-> & -> & Hp).
    unfold step. cbn [store pool joined].
    destruct Hp as [->|[->|(rest & -> & Hrest)]].
    + destruct i as [|i]; [|repeat split; now left].
      cbn [lookup list_lookup perform feeCall]. unfold store_get. rewrite Hs.
      repeat split. right. now left.
    + destruct i as [|i]; [|repeat split; right; now left].
      cbn. repeat split. right. right. eexists. split; [reflexivity|].
      clear. induction voted as [|a l IH]; constructor; [now left|exact IH].
    + destruct i as [|i].
      { cbn. rewrite app_nil_r. repeat split. right. right. now exists rest. }
      cbn [lookup list_lookup]. fold (@lookup nat async (list async) _ i rest).
      destruct (rest !! i) as [c|] eqn:Hi;
        [|repeat split; right; right; now exists rest].
      destruct (Forall2_lookup_r _ _ _ _ _ Hrest Hi) as (a & Ha & Hc).
      assert (Hstep : perform st c = (st, Reject "NotFound", [])).
      { destruct Hc as [->| ->]; [|reflexivity].
        cbn [updateDelegateVote perform]. unfold store_get.
        rewrite (Hmiss a); [reflexivity|]. now apply (list_elem_of_lookup_2 _ i). }
      rewrite Hstep. cbn [store pool joined]. repeat split.
      right. right. exists (<[i := Reject "NotFound"]> rest).
      split; [now rewrite app_nil_r|].
      rewrite <- (list_insert_id voted i a Ha).
      apply Forall2_insert; [exact Hrest|now right].
Qed.

Lemma all_rejected (g : Account -> option string) (l : list string) (rest : list async) :
  Forall2 (fun a c => c = updateDelegateVote g a \/ c = Reject "NotFound") l rest ->
  forallb isSettled rest = true ->
  rest = map (fun _ => Reject "NotFound") l.
Proof.
  induction 1 as [|a c l rest Hc _ IH]; [reflexivity|].
  cbn [forallb]. intros Hset. apply andb_prop in Hset as [Hc' Hset].
  cbn [map]. rewrite <- (IH Hset). f_equal.
  destruct Hc as [->| ->]; [discriminate|reflexivity].
Qed.

Lemma fee_missing_effect st (tx : Transaction) sender g :
  let voted := delegateAddressesOf sender in
  BUCKET_ADDRESS_ACCOUNT st !! senderId tx = Some sender ->
  (forall a, a ∈ voted -> BUCKET_ADDRESS_ACCOUNT st !! a = None) ->
  (forall schedule, exists more,
      settled (run (schedule ++ more) (launch [feeCall g tx] st)) = true) /\
  (forall schedule,
      let s := run schedule (launch [feeCall g tx] st) in
      store s = st /\
      (settled s = true ->
       resolved s = true /\
       pool s = Resolve :: map (fun _ => Reject "NotFound") voted)).
Proof.
  intros voted Hs Hmiss.
  assert (Hdrive : forall rest,
             Forall2 (fun a c => c = updateDelegateVote g a \/ c = Reject "NotFound")
                     voted rest ->
             exists more, settled (run more {| store := st; pool := Resolve :: rest;
                                               joined := 1 |}) = true).
  { intros rest Hrest.
    apply (drive_pool st st 1%nat (compatible_refl st) rest [Resolve] eq_refl).
    apply Forall_forall. intros c Hc. apply list_elem_of_lookup in Hc as [i Hi].
    destruct (Forall2_lookup_r _ _ _ _ _ Hrest Hi) as (a & Ha & [->| ->]); [|now left].
    right. exists "NotFound". apply fails_noAccount, Hmiss.
    now apply (list_elem_of_lookup_2 _ i). }
  assert (Hall : Forall2 (fun a c => c = updateDelegateVote g a \/ c = Reject "NotFound")
                   voted (map (updateDelegateVote g) voted)).
  { clear. induction voted as [|a l IH]; constructor; [now left|exact IH]. }
  split.
  - intros schedule.
    pose proof (fee_missing_stages st tx sender g schedule Hs Hmiss) as Hst.
    cbn zeta in Hst.
    assert (Hrun : forall more, run (schedule ++ more) (launch [feeCall g tx] st)
                                = run more (run schedule (launch [feeCall g tx] st)))
      by (intros; apply run_app).
    destruct (run schedule (launch [feeCall g tx] st)) as [st1 ps j].
    cbn [store pool joined] in Hst. destruct Hst as (-> & -> & Hp).
    assert (H2 : step 0 {| store := st;
                           pool := [ForEach (map (updateDelegateVote g) voted) Resolve];
                           joined := 1 |}
                 = {| store := st; pool := Resolve :: map (updateDelegateVote g) voted;
                      joined := 1 |}) by reflexivity.
    assert (H1 : step 0 {| store := st; pool := [feeCall g tx]; joined := 1 |}
                 = {| store := st;
                      pool := [ForEach (map (updateDelegateVote g) voted) Resolve];
                      joined := 1 |}).
    { unfold step, feeCall. simpl. unfold store_get. now rewrite Hs. }
    subst voted.
    destruct Hp as [->|[->|(rest & -> & Hrest)]].
    + destruct (Hdrive _ Hall) as (more & Hmore). exists (0%nat :: 0%nat :: more).
      rewrite Hrun. cbn [run fold_left]. rewrite H1, H2. exact Hmore.
    + destruct (Hdrive _ Hall) as (more & Hmore). exists (0%nat :: more).
      rewrite Hrun. cbn [run fold_left]. rewrite H2. exact Hmore.
    + destruct (Hdrive _ Hrest) as (more & Hmore). exists more. now rewrite Hrun.
  - intros schedule.
    destruct (fee_missing_stages st tx sender g schedule Hs Hmiss) as (Hst & Hj & Hp).
    cbn zeta. split; [exact Hst|]. intros Hset. unfold settled, resolved in *.
    rewrite Hj. destruct Hp as [Hp|[Hp|(rest & Hp & Hrest)]]; rewrite Hp in *;
      try discriminate.
    split; [reflexivity|]. f_equal. cbn [forallb isSettled andb] in Hset.
    now apply (all_rejected g).
Qed.

(** X13.  The sender is in the store and none of the delegates the sender
    votes for has an account.  Then every callback of [applyFee], and of
    [undoFee], fails with NotFound, and the family resolves all the same:
    in every order of the store operations the store is never changed, the
    calls can always be run to completion, and once they have settled the
    promise of the family is resolved while every callback has rejected. *)
Theorem fee_errors_lost (st : StateStore) (tx : Transaction) (sender : Account) :
  let voted := delegateAddressesOf sender in
  BUCKET_ADDRESS_ACCOUNT st !! senderId tx = Some sender ->
  (forall a, a ∈ voted -> BUCKET_ADDRESS_ACCOUNT st !! a = None) ->
  forall call, call = applyFee tx \/ call = undoFee tx ->
    (forall schedule, exists more,
        settled (run (schedule ++ more) (launch [call] st)) = true) /\
    (forall schedule,
        let s := run schedule (launch [call] st) in
        store s = st /\
        (settled s = true ->
         resolved s = true /\
         pool s = Resolve :: map (fun _ => Reject "NotFound") voted)).
Proof.
  intros voted Hs Hmiss call [-> | ->].
  - exact (fee_missing_effect st tx sender (votesSub (fee tx)) Hs Hmiss).
  - exact (fee_missing_effect st tx sender (votesAdd (fee tx)) Hs Hmiss).
Qed.

End LostErrors.

(** ** lisk-blockchain: one callback, and two on one delegate *)

Section CallbackSteps.
Import Blockchain Jobs Ledger Failures Callbacks.

Lemma step_read i s g a d w :
  pool s !! i = Some (updateDelegateVote g a) ->
  BUCKET_ADDRESS_ACCOUNT (store s) !! a = Some d ->
  g d = Some w ->
  step i s = {| store := store s;
                pool := <[i := afterRead (mkJob a g) d w]> (pool s);
                joined := joined s |}.
Proof.
  intros Hi Hd Hw. unfold step. rewrite Hi.
  cbn [updateDelegateVote perform]. unfold store_get. rewrite Hd, Hw.
  now rewrite app_nil_r.
Qed.

Lemma step_write i s j d w :
  pool s !! i = Some (afterRead j d w) ->
  step i s = {| store := written (store s) (job_address j) d w;
                pool := <[i := afterSet d w]> (pool s);
                joined := joined s |}.
Proof. intros Hi. unfold step. rewrite Hi. cbn. now rewrite app_nil_r. Qed.

Lemma step_rekey i s d w :
  pool s !! i = Some (afterSet d w) ->
  step i s = {| store := rekeyed (store s) d w;
                pool := <[i := Resolve]> (pool s);
                joined := joined s |}.
Proof. intros Hi. unfold step. rewrite Hi. cbn. now rewrite app_nil_r. Qed.

Lemma step_other i s :
  pool s !! i = None \/ pool s !! i = Some Resolve -> step i s = s.
Proof.
  intros [Hi|Hi]; unfold step; rewrite Hi; [reflexivity|].
  cbn. rewrite app_nil_r, list_insert_id by exact Hi. now destruct s.
Qed.

(** One callback on its own. *)
Lemma callback_stages st g a d w schedule :
  BUCKET_ADDRESS_ACCOUNT st !! a = Some d ->
  g d = Some w ->
  let s := run schedule (launch [updateDelegateVote g a] st) in
  joined s = 1%nat /\
  ((store s = st /\ pool s = [updateDelegateVote g a]) \/
   (store s = st /\ pool s = [afterRead (mkJob a g) d w]) \/
   (store s = written st a d w /\ pool s = [afterSet d w]) \/
   (store s = rekeyed (written st a d w) d w /\ pool s = [Resolve])).
Proof.
  intros Hd Hw. induction schedule as [|i schedule IH] using rev_ind.
  - cbn. split; [reflexivity|]. now left.
  - cbn zeta in *. rewrite run_app. cbn [run fold_left].
    destruct (run schedule (launch [updateDelegateVote g a] st)) as [st1 ps j].
    cbn [store pool joined] in IH. destruct IH as (-> & Hp).
    destruct i as [|i].
    + destruct Hp as [[-> ->]|[[-> ->]|[[-> ->]|[-> ->]]]].
      * rewrite (step_read 0 _ g a d w); [|reflexivity|exact Hd|exact Hw].
        split; [reflexivity|]. right. left. split; reflexivity.
      * rewrite (step_write 0 _ (mkJob a g) d w); [|reflexivity].
        split; [reflexivity|]. right. right. left. split; reflexivity.
      * rewrite (step_rekey 0 _ d w); [|reflexivity].
        split; [reflexivity|]. right. right. right. split; reflexivity.
      * rewrite step_other; [|now right].
        split; [reflexivity|]. right. right. right. split; reflexivity.
    + rewrite step_other.
      * split; [reflexivity|exact Hp].
      * left. cbn [pool].
        destruct Hp as [[_ ->]|[[_ ->]|[[_ ->]|[_ ->]]]]; reflexivity.
Qed.

Lemma callback_fails_stages st g a d schedule :
  BUCKET_ADDRESS_ACCOUNT st !! a = Some d ->
  g d = None ->
  let s := run schedule (launch [updateDelegateVote g a] st) in
  store s = st /\ joined s = 1%nat /\
  (pool s = [updateDelegateVote g a] \/ pool s = [Reject "not a number"]).
Proof.
  intros Hd Hw. induction schedule as [|i schedule IH] using rev_ind.
  - cbn. repeat split. now left.
  - cbn zeta in *. rewrite run_app. cbn [run fold_left].
    destruct (run schedule (launch [updateDelegateVote g a] st)) as [st1 ps j].
    cbn [store pool joined] in IH. destruct IH as (-> & -> & Hp).
    unfold step. cbn [store pool joined].
    destruct i as [|i].
    + destruct Hp as [-> | ->].
      * cbn [lookup list_lookup updateDelegateVote perform]. unfold store_get.
        rewrite Hd, Hw. repeat split. now right.
      * cbn. repeat split. now right.
    + destruct Hp as [-> | ->]; cbn; repeat split; [now left|now right].
Qed.

(** X14.  One callback on its own, on a delegate that has an account.  It
    writes the account with the new [votes] string and nothing else of the
    account changed, and through [updateCandidateKey] it moves the entry
    of the delegate in the candidate bucket: the key made of the new
    weight and the public key maps to the address of the delegate, the key
    made of the old weight is gone when it differs, and every other key is
    as before.  When the new weight cannot be computed the callback rejects
    and the store is unchanged. *)
Theorem callback_effect (st : StateStore) (g : Account -> option string)
    (a : string) (d : Account) :
  BUCKET_ADDRESS_ACCOUNT st !! a = Some d ->
  settlesWith [updateDelegateVote g a] st (fun st' =>
    match g d with
    | Some w =>
        let oldKey := candidateKey (templateString (votes d))
                        (templateString (publicKey d)) in
        let newKey := candidateKey w (templateString (publicKey d)) in
        BUCKET_ADDRESS_ACCOUNT st' = <[a := withVotes d w]> (BUCKET_ADDRESS_ACCOUNT st) /\
        BUCKET_CANDIDATE st' !! newKey = Some (address d) /\
        (oldKey <> newKey -> BUCKET_CANDIDATE st' !! oldKey = None) /\
        (forall k, k <> oldKey -> k <> newKey ->
                   BUCKET_CANDIDATE st' !! k = BUCKET_CANDIDATE st !! k) /\
        BUCKET_TX_ID_TX st' = BUCKET_TX_ID_TX st
    | None => st' = st
    end).
Proof.
  intros Hd. destruct (g d) as [w|] eqn:Hw.
  - split.
    + intros schedule. exists [0; 0; 0]%nat. rewrite run_app.
      destruct (callback_stages st g a d w schedule Hd Hw) as (Hj & Hp).
      destruct (run schedule (launch [updateDelegateVote g a] st)) as [st1 ps j].
      cbn [store pool joined] in Hj, Hp. subst j. cbn [run fold_left].
      assert (H1 : step 0 {| store := st; pool := [updateDelegateVote g a]; joined := 1 |}
                   = {| store := st; pool := [afterRead (mkJob a g) d w]; joined := 1 |})
        by (now rewrite (step_read 0 _ g a d w)).
      assert (H2 : forall st1,
                 step 0 {| store := st1; pool := [afterRead (mkJob a g) d w]; joined := 1 |}
                 = {| store := written st1 a d w; pool := [afterSet d w]; joined := 1 |})
        by (intros; now rewrite (step_write 0 _ (mkJob a g) d w)).
      assert (H3 : forall st1,
                 step 0 {| store := st1; pool := [afterSet d w]; joined := 1 |}
                 = {| store := rekeyed st1 d w; pool := [Resolve]; joined := 1 |})
        by (intros; now rewrite (step_rekey 0 _ d w)).
      assert (H4 : forall st1,
                 step 0 {| store := st1; pool := [Resolve]; joined := 1 |}
                 = {| store := st1; pool := [Resolve]; joined := 1 |})
        by (intros; apply step_other; now right).
      destruct Hp as [[-> ->]|[[-> ->]|[[-> ->]|[-> ->]]]].
      * now rewrite H1, H2, H3.
      * now rewrite H2, H3, H4.
      * now rewrite H3, !H4.
      * now rewrite !H4.
    + intros schedule Hs.
      destruct (callback_stages st g a d w schedule Hd Hw) as (_ & Hp).
      unfold settled in Hs.
      destruct Hp as [[_ Hp]|[[_ Hp]|[[_ Hp]|[-> _]]]];
        try (rewrite Hp in Hs; discriminate).
      cbn [rekeyed written BUCKET_ADDRESS_ACCOUNT BUCKET_CANDIDATE BUCKET_TX_ID_TX].
      unfold store_set, store_replace.
      split; [reflexivity|]. split; [apply lookup_insert_eq|].
      split; [|split; [|reflexivity]].
      * intros Hne. rewrite lookup_insert_ne by congruence. apply lookup_delete_eq.
      * intros k Hk1 Hk2. rewrite lookup_insert_ne by congruence.
        now rewrite lookup_delete_ne by congruence.
  - split.
    + intros schedule. exists [0]%nat. rewrite run_app.
      destruct (callback_fails_stages st g a d schedule Hd Hw) as (Hst & Hj & Hp).
      destruct (run schedule (launch [updateDelegateVote g a] st)) as [st1 ps j].
      cbn [store pool joined] in Hst, Hj, Hp. subst st1 j. cbn [run fold_left].
      unfold step. cbn [store pool joined].
      destruct Hp as [-> | ->].
      * cbn [lookup list_lookup updateDelegateVote perform]. unfold store_get.
        rewrite Hd, Hw. reflexivity.
      * reflexivity.
    + intros schedule _.
      now destruct (callback_fails_stages st g a d schedule Hd Hw) as (Hst & _).
Qed.

End CallbackSteps.

Section LostUpdates.
Import Blockchain Jobs Ledger Failures Callbacks.

Lemma run_cons i schedule s : run (i :: schedule) s = run schedule (step i s).
Proof. reflexivity. Qed.

Lemma weightOf_written st a d w z :
  w = BigNum.toString z -> weightOf (written st a d w) a = Some z.
Proof.
  intros ->. unfold weightOf, written, store_set. cbn [BUCKET_ADDRESS_ACCOUNT].
  rewrite lookup_insert_eq. cbn. apply votesOrZero_withVotes.
Qed.

Lemma weightOf_rekeyed st d w a : weightOf (rekeyed st d w) a = weightOf st a.
Proof. reflexivity. Qed.

Lemma account_written st a d w :
  BUCKET_ADDRESS_ACCOUNT (written st a d w) !! a = Some (withVotes d w).
Proof. unfold written, store_set. cbn. apply lookup_insert_eq. Qed.

Local Ltac callback_read account arithmetic :=
  rewrite run_cons; erewrite step_read; [|reflexivity|account|exact arithmetic];
  cbn [store pool joined insert list_insert].

Local Ltac callback_write :=
  rewrite run_cons; erewrite step_write; [|reflexivity];
  cbn [store pool joined insert list_insert job_address].

Local Ltac callback_rekey :=
  rewrite run_cons; erewrite step_rekey; [|reflexivity];
  cbn [store pool joined insert list_insert].

(** Two callbacks on the same delegate, in three orders: one after the
    other, both reads first with the second write last, and both reads
    first with the first write last. *)
Lemma two_callbacks st a d g1 g2 v d1 d2 :
  BUCKET_ADDRESS_ACCOUNT st !! a = Some d ->
  BigNum.ofString (votesOrZero d) = Some v ->
  shifts g1 d1 -> shifts g2 d2 ->
  let s0 := {| store := st;
               pool := [Resolve; Resolve; Resolve;
                        updateDelegateVote g1 a; updateDelegateVote g2 a];
               joined := 3 |} in
  let ends := fun schedule =>
    let s := run schedule s0 in (settled s, weightOf (store s) a) in
  ends [3; 3; 3; 4; 4; 4]%nat = (true, Some (v + d1 + d2)) /\
  ends [3; 4; 3; 3; 4; 4]%nat = (true, Some (v + d2)) /\
  ends [3; 4; 4; 4; 3; 3]%nat = (true, Some (v + d1)).
Proof.
  intros Hd Hv H1 H2 s0 ends. subst ends s0. cbn beta zeta.
  pose proof (H1 d v Hv) as Hw1. pose proof (H2 d v Hv) as Hw2.
  assert (Hw12 : g2 (withVotes d (BigNum.toString (v + d1)))
                 = Some (BigNum.toString (v + d1 + d2))).
  { apply H2. apply votesOrZero_withVotes. }
  split; [|split].
  - callback_read ltac:(exact Hd) Hw1. callback_write. callback_rekey.
    callback_read ltac:(apply account_written) Hw12. callback_write. callback_rekey.
    cbn [run fold_left store]. rewrite weightOf_rekeyed.
    rewrite (weightOf_written _ _ _ _ _ eq_refl). reflexivity.
  - callback_read ltac:(exact Hd) Hw1. callback_read ltac:(exact Hd) Hw2.
    callback_write. callback_rekey. callback_write. callback_rekey.
    cbn [run fold_left store]. rewrite weightOf_rekeyed.
    rewrite (weightOf_written _ _ _ _ _ eq_refl). reflexivity.
  - callback_read ltac:(exact Hd) Hw1. callback_read ltac:(exact Hd) Hw2.
    callback_write. callback_rekey. callback_write. callback_rekey.
    cbn [run fold_left store]. rewrite weightOf_rekeyed.
    rewrite (weightOf_written _ _ _ _ _ eq_refl). reflexivity.
Qed.

Lemma length_append (s t : string) :
  String.length (s ++ t) = (String.length s + String.length t)%nat.
Proof. induction s as [|c s IH]; simpl; [reflexivity|]. f_equal. exact IH. Qed.

Lemma candidateKey_weight w1 w2 pk :
  candidateKey w1 pk = candidateKey w2 pk -> w1 = w2.
Proof.
  unfold candidateKey. intros E.
  assert (Hrev : forall s1 s2 t : string, (s1 ++ t = s2 ++ t -> s1 = s2)%string).
  { intros s1 s2 t Ht.
    assert (Hlen : String.length s1 = String.length s2).
    { apply (f_equal String.length) in Ht. rewrite !length_append in Ht. lia. }
    clear -Ht Hlen. revert s2 Ht Hlen.
    induction s1 as [|c s1 IH]; intros [|c2 s2] Ht Hlen; try discriminate; [reflexivity|].
    cbn in Ht, Hlen. injection Ht as -> Ht. f_equal. apply IH; [exact Ht|lia]. }
  now apply (Hrev w1 w2 (":" ++ pk)%string).
Qed.

Lemma old_weight_differs d v delta :
  BigNum.ofString (votesOrZero d) = Some v -> delta <> 0 ->
  BigNum.toString (v + delta) <> templateString (votes d).
Proof.
  intros Hv Hdelta E.
  pose proof (BigNum_ofString_toString (v + delta)) as Hp. rewrite E in Hp.
  unfold votesOrZero in Hv. destruct (votes d) as [s|]; cbn in Hv, Hp.
  - destruct (String.eqb s "") eqn:Es; cbn in Hv.
    + apply String.eqb_eq in Es. rewrite Es in Hp. discriminate.
    + rewrite Hp in Hv. injection Hv. lia.
  - discriminate.
Qed.

(** With both reads first, the candidate bucket keeps the key of the
    weight that the first write gave, which no account has any more. *)
Lemma two_callbacks_index st a d g1 g2 v d1 d2 :
  BUCKET_ADDRESS_ACCOUNT st !! a = Some d ->
  BigNum.ofString (votesOrZero d) = Some v ->
  shifts g1 d1 -> shifts g2 d2 -> d1 <> 0 ->
  let s := run [3; 4; 3; 3; 4; 4]%nat
             {| store := st;
                pool := [Resolve; Resolve; Resolve;
                         updateDelegateVote g1 a; updateDelegateVote g2 a];
                joined := 3 |} in
  BUCKET_CANDIDATE (store s)
    !! candidateKey (BigNum.toString (v + d1)) (templateString (publicKey d))
  = Some (address d).
Proof.
  intros Hd Hv H1 H2 Hne. cbn zeta.
  pose proof (H1 d v Hv) as Hw1. pose proof (H2 d v Hv) as Hw2.
  callback_read ltac:(exact Hd) Hw1. callback_read ltac:(exact Hd) Hw2.
  callback_write. callback_rekey. callback_write. callback_rekey.
  cbn [run fold_left store rekeyed written BUCKET_CANDIDATE].
  unfold store_replace.
  destruct (decide (candidateKey (BigNum.toString (v + d2)) (templateString (publicKey d))
                    = candidateKey (BigNum.toString (v + d1))
                        (templateString (publicKey d)))) as [E|E].
  - rewrite E. apply lookup_insert_eq.
  - rewrite lookup_insert_ne by exact E.
    rewrite lookup_delete_ne; [apply lookup_insert_eq|].
    intros E2. apply candidateKey_weight in E2.
    now apply (old_weight_differs d v d1 Hv Hne).
Qed.

Context `{Cryptography}.

Lemma transfer_starts st (tx : Transaction) sender recipient key a :
  type tx = TRANSACTION_TYPE_TRANSFER \/ type tx = TRANSACTION_TYPE_OUT_TRANSFER ->
  recipientId tx = Some key ->
  BUCKET_ADDRESS_ACCOUNT st !! senderId tx = Some sender ->
  BUCKET_ADDRESS_ACCOUNT st !! key = Some recipient ->
  delegateAddressesOf sender = [a] ->
  delegateAddressesOf recipient = [a] ->
  run [0; 0; 1; 1]%nat (launch (applyVote tx) st)
  = {| store := st;
       pool := [Resolve; Resolve; Resolve;
                updateDelegateVote (votesSub (fee tx)) a;
                updateDelegateVote (votesAdd (amount tx)) a];
       joined := 3 |}.
Proof.
  intros Hty Hr Hs Hk Hds Hdr.
  assert (Hcalls : applyVote tx
                   = [feeCall (votesSub (fee tx)) tx;
                      GetAccount key (fun recipient =>
                        ForEach (map (updateDelegateVote (votesAdd (amount tx)))
                                     (delegateAddressesOf recipient)) Resolve);
                      Resolve]).
  { unfold applyVote, applyAmount, applyNewVote, forRecipientDelegates, isTransferType.
    rewrite Hr. destruct Hty as [-> | ->]; reflexivity. }
  rewrite Hcalls. unfold launch. cbn [length].
  rewrite run_cons. unfold step at 1. cbn [pool store joined lookup list_lookup].
  cbn [feeCall perform]. unfold store_get. rewrite Hs, Hds.
  cbn [map insert list_insert app].
  rewrite run_cons. unfold step at 1. cbn [pool store joined lookup list_lookup perform].
  cbn [insert list_insert app].
  rewrite run_cons. unfold step at 1. cbn [pool store joined lookup list_lookup perform].
  unfold store_get. rewrite Hk, Hdr. cbn [map insert list_insert app].
  rewrite run_cons. unfold step at 1. cbn [pool store joined lookup list_lookup perform].
  reflexivity.
Qed.

(** X15.  A transfer or out-transfer whose sender and recipient both vote
    for the one delegate [a] starts two callbacks on [a].  When the store
    performs them one after the other, [applyVote] changes the weight of
    [a] by the amount less the fee.  When both callbacks read before either
    writes, the later write wins: the weight ends up as the old weight plus
    the amount, or as the old weight less the fee.  In the first of these
    orders the candidate bucket is left, for a fee that is not zero, with
    the key of the weight less the fee, a weight the delegate does not
    have. *)
Theorem shared_delegate_lost_update (st : StateStore) (tx : Transaction)
    (sender recipient d : Account) (key a : string) (v f m : Z) :
  type tx = TRANSACTION_TYPE_TRANSFER \/ type tx = TRANSACTION_TYPE_OUT_TRANSFER ->
  recipientId tx = Some key ->
  BUCKET_ADDRESS_ACCOUNT st !! senderId tx = Some sender ->
  BUCKET_ADDRESS_ACCOUNT st !! key = Some recipient ->
  delegateAddressesOf sender = [a] ->
  delegateAddressesOf recipient = [a] ->
  BUCKET_ADDRESS_ACCOUNT st !! a = Some d ->
  BigNum.ofString (votesOrZero d) = Some v ->
  BigNum.ofString (fee tx) = Some f ->
  BigNum.ofString (amount tx) = Some m ->
  let ends := fun schedule =>
    let s := run schedule (launch (applyVote tx) st) in
    (settled s, weightOf (store s) a) in
  ends [0; 0; 1; 1; 3; 3; 3; 4; 4; 4]%nat = (true, Some (v - f + m)) /\
  ends [0; 0; 1; 1; 3; 4; 3; 3; 4; 4]%nat = (true, Some (v + m)) /\
  ends [0; 0; 1; 1; 3; 4; 4; 4; 3; 3]%nat = (true, Some (v - f)) /\
  (f <> 0 ->
   BUCKET_CANDIDATE
     (store (run [0; 0; 1; 1; 3; 4; 3; 3; 4; 4]%nat (launch (applyVote tx) st)))
     !! candidateKey (BigNum.toString (v - f)) (templateString (publicKey d))
   = Some (address d)).
Proof.
  intros Hty Hr Hs Hk Hds Hdr Hd Hv Hf Hm ends. subst ends. cbn beta zeta.
  pose proof (transfer_starts st tx sender recipient key a Hty Hr Hs Hk Hds Hdr)
    as Hstart.
  destruct (two_callbacks st a d (votesSub (fee tx)) (votesAdd (amount tx)) v (- f) m
              Hd Hv (shifts_votesSub _ _ Hf) (shifts_votesAdd _ _ Hm))
    as (E1 & E2 & E3).
  cbn beta zeta in E1, E2, E3.
  change [0; 0; 1; 1; 3; 3; 3; 4; 4; 4]%nat
    with ([0; 0; 1; 1] ++ [3; 3; 3; 4; 4; 4])%nat.
  change [0; 0; 1; 1; 3; 4; 3; 3; 4; 4]%nat
    with ([0; 0; 1; 1] ++ [3; 4; 3; 3; 4; 4])%nat.
  change [0; 0; 1; 1; 3; 4; 4; 4; 3; 3]%nat
    with ([0; 0; 1; 1] ++ [3; 4; 4; 4; 3; 3])%nat.
  rewrite !run_app, Hstart.
  split; [exact E1|]. split; [exact E2|]. split; [exact E3|].
  intros Hne.
  apply (two_callbacks_index st a d (votesSub (fee tx)) (votesAdd (amount tx)) v (- f) m
           Hd Hv (shifts_votesSub _ _ Hf) (shifts_votesAdd _ _ Hm)).
  lia.
Qed.

End LostUpdates.

(** ** lisk-blockchain: candidate keys and the candidate bucket *)

Section CandidateKeys.
Import Blockchain.

Lemma digits_tail c s :
  is_Some (NilEmpty.uint_of_string (String c s)) ->
  c <> ":"%char /\ c <> "-"%char /\ is_Some (NilEmpty.uint_of_string s).
Proof.
  cbn [NilEmpty.uint_of_string]. intros [u Hu].
  destruct (NilEmpty.uint_of_string s) as [u'|]; [|discriminate].
  split; [|split; [|now exists u']]; intros ->; discriminate.
Qed.

Lemma digits_split w1 : forall w2 p1 p2,
  is_Some (NilEmpty.uint_of_string w1) -> is_Some (NilEmpty.uint_of_string w2) ->
  (w1 ++ ":" ++ p1 = w2 ++ ":" ++ p2)%string -> w1 = w2 /\ p1 = p2.
Proof.
  induction w1 as [|c1 w1 IH]; intros [|c2 w2] p1 p2 H1 H2 E; simpl in E.
  - injection E as E. auto.
  - injection E as Ec _. subst c2. now apply digits_tail in H2 as [? _].
  - injection E as Ec _. subst c1. now apply digits_tail in H1 as [? _].
  - injection E as Ec E. subst c2.
    apply digits_tail in H1 as (_ & _ & H1). apply digits_tail in H2 as (_ & _ & H2).
    destruct (IH w2 p1 p2 H1 H2 E) as [-> ->]. auto.
Qed.

Lemma numeral_shape w :
  is_Some (BigNum.ofString w) ->
  (exists w', w = String "-" w' /\ is_Some (NilEmpty.uint_of_string w')) \/
  (String.get 0 w <> Some "-"%char /\ is_Some (NilEmpty.uint_of_string w)).
Proof.
  unfold BigNum.ofString, NilZero.int_of_string. intros [z Hz].
  destruct w as [|c w]; [discriminate|].
  destruct (Ascii.eqb c "-") eqn:Ec.
  - apply Ascii.eqb_eq in Ec. subst c. left. exists w. split; [reflexivity|].
    destruct w as [|c' w]; [discriminate|].
    change (NilZero.uint_of_string (String c' w))
      with (NilEmpty.uint_of_string (String c' w)) in Hz.
    destruct (NilEmpty.uint_of_string (String c' w)) as [u|]; [now exists u|discriminate].
  - right. apply Ascii.eqb_neq in Ec. split; [cbn; congruence|].
    change (NilZero.uint_of_string (String c w))
      with (NilEmpty.uint_of_string (String c w)) in Hz.
    destruct (NilEmpty.uint_of_string (String c w)) as [u|]; [now exists u|discriminate].
Qed.

(** Candidate keys made of numerals. *)
Lemma numeral_keys (w1 w2 pk1 pk2 : string) :
  is_Some (BigNum.ofString w1) ->
  is_Some (BigNum.ofString w2) ->
  candidateKey w1 pk1 = candidateKey w2 pk2 ->
  w1 = w2 /\ pk1 = pk2.
Proof.
  intros H1 H2 E. unfold candidateKey in E.
  destruct (numeral_shape w1 H1) as [(w1' & -> & D1)|[N1 D1]];
    destruct (numeral_shape w2 H2) as [(w2' & -> & D2)|[N2 D2]].
  - simpl in E. injection E as E.
    destruct (digits_split w1' w2' pk1 pk2 D1 D2 E) as [-> ->]. auto.
  - destruct w2 as [|c w2]; simpl in E; injection E as Ec _.
    + discriminate.
    + subst c. now contradiction N2.
  - destruct w1 as [|c w1]; simpl in E; injection E as Ec _.
    + discriminate.
    + subst c. now contradiction N1.
  - now apply digits_split.
Qed.

(** X16.  A candidate key determines the weight and the public key it was
    made of: two keys made of weights that read as numbers are equal only
    if the weights are the same string and the public keys are the same.
    So the keys the callbacks write, whose weights are printed numbers,
    are equal only for the same number and the same public key. *)
Theorem candidateKey_injective :
  (forall w1 w2 pk1 pk2 : string,
      is_Some (BigNum.ofString w1) ->
      is_Some (BigNum.ofString w2) ->
      candidateKey w1 pk1 = candidateKey w2 pk2 ->
      w1 = w2 /\ pk1 = pk2) /\
  (forall (z1 z2 : Z) (pk1 pk2 : string),
      candidateKey (BigNum.toString z1) pk1 = candidateKey (BigNum.toString z2) pk2 ->
      z1 = z2 /\ pk1 = pk2).
Proof.
  split; [exact numeral_keys|].
  intros z1 z2 pk1 pk2 E.
  destruct (numeral_keys (BigNum.toString z1) (BigNum.toString z2) pk1 pk2) as [Hz Hpk].
  - exists z1. apply BigNum_ofString_toString.
  - exists z2. apply BigNum_ofString_toString.
  - exact E.
  - split; [now apply BigNum_toString_inj|exact Hpk].
Qed.

End CandidateKeys.

Section IndexSteps.
Import Blockchain Jobs Index.
Local Open Scope nat_scope.

Lemma doneJobs_app r1 r2 : doneJobs (r1 ++ r2) = doneJobs r1 ++ doneJobs r2.
Proof. unfold doneJobs. now rewrite map_app, concat_app. Qed.

Lemma doneJobs_workers js : doneJobs (map (Worker 3) js) = [].
Proof. induction js as [|j js IH]; [reflexivity|exact IH]. Qed.

Lemma doneJobs_split (roles : list role) i r :
  roles !! i = Some r ->
  doneJobs roles = doneJobs (take i roles) ++ doneJob r ++ doneJobs (drop (S i) roles).
Proof.
  intros Hi. rewrite <- (take_drop_middle roles i r Hi) at 1.
  rewrite doneJobs_app. unfold doneJobs at 2. now cbn [map concat].
Qed.

Lemma doneJobs_insert (roles : list role) i r r' news :
  roles !! i = Some r ->
  doneJobs (<[i:=r']> roles ++ news)
  = doneJobs (take i roles) ++ doneJob r' ++ doneJobs (drop (S i) roles) ++ doneJobs news.
Proof.
  intros Hi. rewrite insert_take_drop by (eapply lookup_lt_Some; eauto).
  rewrite !doneJobs_app. unfold doneJobs at 2. cbn [map concat].
  now rewrite <- !app_assoc.
Qed.

(** A step that does not finish a callback leaves the done jobs as they
    are. *)
Lemma doneJobs_same (roles : list role) i r r' js :
  roles !! i = Some r -> doneJob r = [] -> doneJob r' = [] ->
  doneJobs (<[i:=r']> roles ++ map (Worker 3) js) = doneJobs roles.
Proof.
  intros Hi Hr Hr'.
  rewrite (doneJobs_insert roles i r r' _ Hi), (doneJobs_split roles i r Hi).
  now rewrite Hr, Hr', doneJobs_workers, app_nil_r.
Qed.

Lemma doneJobs_finish (roles : list role) i j :
  roles !! i = Some (Worker 1 j) ->
  doneJobs (<[i:=Worker 0 j]> roles ++ []) ≡ₚ j :: doneJobs roles.
Proof.
  intros Hi.
  rewrite (doneJobs_insert roles i _ _ _ Hi), (doneJobs_split roles i _ Hi).
  cbn [doneJob app]. unfold doneJobs at 3. cbn [map concat]. rewrite app_nil_r.
  symmetry. apply Permutation_middle.
Qed.

Lemma doneJobs_sub (roles : list role) j :
  j ∈ doneJobs roles -> j ∈ concat (map roleJobs roles).
Proof.
  induction roles as [|r roles IH]; [intros Hj; now apply elem_of_nil in Hj|].
  unfold doneJobs. cbn [map concat]. fold (doneJobs roles).
  rewrite !elem_of_app. intros [Hj|Hj]; [left|right; now apply IH].
  destruct r as [n js|[|n] j']; cbn in Hj; try (now apply elem_of_nil in Hj).
  exact Hj.
Qed.

(** One step of a call that is not settled, with what it does to the
    candidate bucket: nothing, or the rekey of one job, which is done
    from then on. *)
Lemma step_roles st0 J roles s i t :
  jobsValid st0 J -> consistent st0 J roles s ->
  pool s !! i = Some t -> isSettled t = false ->
  exists roles',
    consistent st0 J roles' (step i s) /\
    ((BUCKET_CANDIDATE (store (step i s)) = BUCKET_CANDIDATE (store s) /\
      doneJobs roles' = doneJobs roles) \/
     (exists j d0 w,
        j ∈ J /\
        BUCKET_ADDRESS_ACCOUNT st0 !! job_address j = Some d0 /\
        job_newVotes j d0 = Some w /\
        BUCKET_CANDIDATE (store (step i s))
        = store_replace (BUCKET_CANDIDATE (store s)) (oldKey d0) (newKey d0 w)
            (address d0) /\
        doneJobs roles' ≡ₚ j :: doneJobs roles)).
Proof.
  intros [Hnd Hval] [Hr Hj Htx Ho Hsame] Hi Ht.
  destruct (Forall2_lookup_r _ _ _ _ _ Hr Hi) as (r & Hri & Hplay).
  unfold step. rewrite Hi.
  destruct r as [n js | n j].
  - destruct Hplay as [Hsp Hpend].
    inversion Hsp as [| n0 cbs k js0 js' Hcbs Hk | n0 key k d0 js0 H0 Hk | n0 key k tx0 js0 H0 Hk];
      subst.
    + discriminate.
    + exists (<[i := Main n0 js']> roles ++ map (Worker 3) js0).
      cbn [perform]. split.
      * constructor; cbn [store pool].
        -- eapply rebuild; [exact Hr|exact Hri|exact Hi|reflexivity| |].
           ++ split; [exact Hk|]. intros j Hj'. apply Hpend. apply elem_of_app. now right.
           ++ apply workers_play. intros j Hj'.
              destruct (Hval j) as (d0 & w & H0 & Hw).
              { eapply job_in_J; eauto. simpl. apply elem_of_app. now left. }
              exists d0, w. split; [exact H0|]. split; [exact Hw|].
              rewrite Hpend; [exact H0|]. apply elem_of_app. now left.
        -- rewrite (concat_roles_insert roles i _ _ _ Hri), concat_workers.
           rewrite <- Hj, (concat_roles_split roles i _ Hri). simpl.
           apply Permutation_app_head.
           rewrite (Permutation_app_comm js0 js'), <- app_assoc.
           apply Permutation_app_head. apply Permutation_app_comm.
        -- exact Htx.
        -- exact Ho.
        -- exact Hsame.
      * left. split; [reflexivity|].
        now apply (doneJobs_same roles i (Main (S n0) (js0 ++ js'))).
    + destruct (Hsame key d0 H0) as (d & Hd & Hsb).
      exists (<[i := Main n0 js]> roles ++ map (Worker 3) []).
      cbn [perform]. unfold store_get. rewrite Hd. split.
      * constructor; cbn [store pool map]; auto.
        -- eapply rebuild; [exact Hr|exact Hri|exact Hi|reflexivity| |constructor].
           split; [now apply Hk|exact Hpend].
        -- rewrite (concat_roles_insert roles i _ _ _ Hri).
           rewrite <- Hj, (concat_roles_split roles i _ Hri). simpl.
           now rewrite app_nil_r.
      * left. split; [reflexivity|].
        now apply (doneJobs_same roles i (Main (S n0) js)).
    + exists (<[i := Main n0 js]> roles ++ map (Worker 3) []).
      cbn [perform]. unfold store_get. rewrite Htx, H0. split.
      * constructor; cbn [store pool map]; auto.
        -- eapply rebuild; [exact Hr|exact Hri|exact Hi|reflexivity| |constructor].
           split; [exact Hk|exact Hpend].
        -- rewrite (concat_roles_insert roles i _ _ _ Hri).
           rewrite <- Hj, (concat_roles_split roles i _ Hri). simpl.
           now rewrite app_nil_r.
      * left. split; [reflexivity|].
        now apply (doneJobs_same roles i (Main (S n0) js)).
  - destruct Hplay as (d0 & w & H0 & Hw & Hn).
    assert (Hperm : forall n', concat (map roleJobs (<[i:=Worker n' j]> roles ++ [])) ≡ₚ J).
    { intros n'. rewrite (concat_roles_insert roles i _ _ _ Hri).
      rewrite <- Hj, (concat_roles_split roles i _ Hri). simpl.
      now rewrite app_nil_r. }
    destruct n as [|[|[|[|n]]]]; try contradiction; destruct Hn as [-> Hacc].
    + discriminate.
    + exists (<[i := Worker 0 j]> roles ++ []).
      cbn [perform afterSet]. split.
      * constructor; cbn [store pool BUCKET_ADDRESS_ACCOUNT BUCKET_TX_ID_TX]; auto.
        eapply rebuild; [exact Hr|exact Hri|exact Hi|reflexivity| |constructor].
        exists d0, w. auto.
      * right. exists j, d0, w.
        split; [eapply job_in_J; eauto; simpl; apply list_elem_of_here|].
        split; [exact H0|]. split; [exact Hw|].
        split; [reflexivity|]. now apply doneJobs_finish.
    + exists (<[i := Worker 1 j]> roles ++ map (Worker 3) []).
      cbn [perform afterRead]. unfold store_set. split.
      * constructor; cbn [store pool map BUCKET_ADDRESS_ACCOUNT BUCKET_TX_ID_TX]; auto.
        -- eapply rebuild; [exact Hr|exact Hri|exact Hi| | |constructor].
           ++ intros j' Hj'. apply lookup_insert_ne. intros Heq.
              eapply (others_distinct J roles i (Worker 2 j) j j'); eauto.
              simpl. apply list_elem_of_here.
           ++ exists d0, w. split; [exact H0|]. split; [exact Hw|].
              split; [reflexivity|]. apply lookup_insert_eq.
        -- intros a Ha. rewrite lookup_insert_ne; [now apply Ho|].
           intros <-. apply Ha. apply list_elem_of_fmap. exists j. split; [reflexivity|].
           eapply job_in_J; eauto. simpl. apply list_elem_of_here.
        -- intros a d1 Ha. destruct (decide (job_address j = a)) as [<-|Hne].
           ++ rewrite lookup_insert_eq. eexists. split; [reflexivity|].
              rewrite H0 in Ha. injection Ha as <-.
              apply sameButVotes_withVotes, sameButVotes_refl.
           ++ rewrite lookup_insert_ne by exact Hne. now apply Hsame.
      * left. split; [reflexivity|].
        now apply (doneJobs_same roles i (Worker 2 j)).
    + exists (<[i := Worker 2 j]> roles ++ map (Worker 3) []).
      unfold jobCall, updateDelegateVote. cbn [perform]. unfold store_get.
      rewrite Hacc, Hw. split.
      * constructor; cbn [store pool map]; auto.
        eapply rebuild; [exact Hr|exact Hri|exact Hi|reflexivity| |constructor].
        exists d0, w. split; [exact H0|]. split; [exact Hw|].
        split; [reflexivity|exact Hacc].
      * left. split; [reflexivity|].
        now apply (doneJobs_same roles i (Worker 3 j)).
Qed.

Lemma doneJobs_sublist (roles : list role) :
  doneJobs roles `sublist_of` concat (map roleJobs roles).
Proof.
  induction roles as [|r roles IH]; [constructor|].
  unfold doneJobs. cbn [map concat]. apply sublist_app; [|exact IH].
  destruct r as [n js|[|n] j]; cbn [doneJob roleJobs];
    [apply sublist_nil_l|reflexivity|apply sublist_nil_l].
Qed.

Lemma doneJobs_NoDup st0 J roles s :
  jobsValid st0 J -> consistent st0 J roles s ->
  NoDup (map job_address (doneJobs roles)) /\
  (forall j, j ∈ doneJobs roles -> j ∈ J).
Proof.
  intros [Hnd _] [_ Hj _ _ _]. split.
  - apply (sublist_NoDup _ (map job_address (concat (map roleJobs roles)))).
    + now rewrite Hj.
    + apply fmap_sublist, doneJobs_sublist.
  - intros j Hin. rewrite <- Hj. now apply doneJobs_sub.
Qed.

Lemma rekeys_perm st0 D D' candidates :
  D ≡ₚ D' -> rekeys st0 D candidates -> rekeys st0 D' candidates.
Proof.
  intros HD [H1 H2]. split.
  - intros j d0 w Hj. apply H1. now rewrite HD.
  - intros k Hk. apply H2. intros j d0 w Hj. apply Hk. now rewrite <- HD.
Qed.

Lemma rekeys_cons st0 J D candidates j d0 w :
  distinctKeys st0 J -> j ∈ J ->
  (forall j', j' ∈ D -> j' ∈ J) ->
  (forall j', j' ∈ D -> job_address j' <> job_address j) ->
  BUCKET_ADDRESS_ACCOUNT st0 !! job_address j = Some d0 ->
  job_newVotes j d0 = Some w ->
  rekeys st0 D candidates ->
  rekeys st0 (j :: D)
    (store_replace candidates (oldKey d0) (newKey d0 w) (address d0)).
Proof.
  intros Hdist Hj HD Hne H0 Hw [H1 H2]. unfold store_replace. split.
  - intros j1 d1 w1 Hj1 Hd1 Hw1. apply elem_of_cons in Hj1 as [->|Hj1].
    + rewrite H0 in Hd1. injection Hd1 as <-. rewrite Hw in Hw1. injection Hw1 as <-.
      split; [apply lookup_insert_eq|].
      intros Hk. rewrite lookup_insert_ne by congruence. apply lookup_delete_eq.
    + destruct (Hdist j1 j d1 d0 w1 w (HD _ Hj1) Hj (Hne _ Hj1) Hd1 H0 Hw1 Hw)
        as [Hnn Hno].
      destruct (Hdist j j1 d0 d1 w w1 Hj (HD _ Hj1)
                  (fun E => Hne _ Hj1 (eq_sym E)) H0 Hd1 Hw Hw1) as [_ Hno'].
      destruct (H1 j1 d1 w1 Hj1 Hd1 Hw1) as [Hnew Hold]. split.
      * rewrite lookup_insert_ne by congruence.
        rewrite lookup_delete_ne by congruence. exact Hnew.
      * intros Hk. rewrite lookup_insert_ne by congruence.
        destruct (decide (oldKey d0 = oldKey d1)) as [E|E].
        -- rewrite E. apply lookup_delete_eq.
        -- rewrite lookup_delete_ne by exact E. now apply Hold.
  - intros k Hk.
    destruct (Hk j d0 w (list_elem_of_here _ _) H0 Hw) as [Hko Hkn].
    rewrite lookup_insert_ne by congruence. rewrite lookup_delete_ne by congruence.
    apply H2. intros j1 d1 w1 Hj1. apply Hk. now apply list_elem_of_further.
Qed.

Lemma run_rekeys st0 J schedule : forall roles s,
  jobsValid st0 J -> distinctKeys st0 J ->
  consistent st0 J roles s ->
  rekeys st0 (doneJobs roles) (BUCKET_CANDIDATE (store s)) ->
  exists roles',
    consistent st0 J roles' (run schedule s) /\
    rekeys st0 (doneJobs roles') (BUCKET_CANDIDATE (store (run schedule s))).
Proof.
  induction schedule as [|i schedule IH]; intros roles s HJ Hdist Hc Hk.
  - now exists roles.
  - cbn [run fold_left].
    assert (Hnext : exists roles1, consistent st0 J roles1 (step i s) /\
              rekeys st0 (doneJobs roles1) (BUCKET_CANDIDATE (store (step i s)))).
    { destruct (pool s !! i) as [t|] eqn:Hi;
        [|rewrite (step_none i s Hi); now exists roles].
      destruct (isSettled t) eqn:Ht;
        [rewrite (step_settled i s t Hi Ht); now exists roles|].
      destruct (step_roles st0 J roles s i t HJ Hc Hi Ht)
        as (roles1 & Hc1 & [[Hcand Hdone]|(j & d0 & w & Hj & H0 & Hw & Hcand & Hdone)]).
      - exists roles1. split; [exact Hc1|]. now rewrite Hcand, Hdone.
      - exists roles1. split; [exact Hc1|]. rewrite Hcand.
        apply (rekeys_perm st0 (j :: doneJobs roles)); [now symmetry|].
        destruct (doneJobs_NoDup st0 J roles s HJ Hc) as [_ Hsub].
        destruct (doneJobs_NoDup st0 J roles1 _ HJ Hc1) as [Hnd1 _].
        rewrite Hdone in Hnd1. cbn [map] in Hnd1. apply NoDup_cons in Hnd1 as [Hnot _].
        apply (rekeys_cons st0 J); auto.
        intros j' Hj' E. apply Hnot. rewrite <- E. apply list_elem_of_fmap. eauto. }
    destruct Hnext as (roles1 & Hc1 & Hk1).
    now apply (IH roles1).
Qed.

Lemma settled_done st0 acc roles ps :
  Forall2 (plays st0 acc) roles ps -> forallb isSettled ps = true ->
  doneJobs roles = concat (map roleJobs roles).
Proof.
  induction 1 as [|r t roles ps Hrt _ IH]; [reflexivity|].
  cbn [forallb]. intros Hs. apply andb_prop in Hs as [Ht Hs].
  unfold doneJobs. cbn [map concat]. fold (doneJobs roles). rewrite (IH Hs). f_equal.
  destruct r as [n js|n j]; cbn [doneJob roleJobs].
  - destruct Hrt as [Hsp _]. inversion Hsp; subst; try discriminate. reflexivity.
  - destruct Hrt as (d0 & w & _ & _ & Hn).
    destruct n as [|[|[|[|n]]]]; try contradiction; destruct Hn as [-> _];
      try discriminate.
    reflexivity.
Qed.

(** Calls started together on the store [st0] whose jobs touch pairwise
    different accounts with pairwise different keys: once they have
    settled, every job has written its account and moved the entry of its
    delegate in the candidate bucket, and the bucket is otherwise as it
    was. *)
Lemma calls_rekey st0 (calls : list async) (specs : list (nat * list job)) :
  let J := concat (map snd specs) in
  Forall2 (fun t spec => spawns st0 (fst spec) t (snd spec)) calls specs ->
  jobsValid st0 J -> distinctKeys st0 J ->
  forall schedule,
    settled (run schedule (launch calls st0)) = true ->
    let st := store (run schedule (launch calls st0)) in
    (forall j d0 w, j ∈ J ->
       BUCKET_ADDRESS_ACCOUNT st0 !! job_address j = Some d0 ->
       job_newVotes j d0 = Some w ->
       BUCKET_ADDRESS_ACCOUNT st !! job_address j = Some (withVotes d0 w)) /\
    rekeys st0 J (BUCKET_CANDIDATE st).
Proof.
  intros J Hsp HJ Hdist schedule Hs st.
  pose proof (launch_consistent st0 calls specs Hsp) as Hc. fold J in Hc.
  destruct (run_rekeys st0 J schedule _ _ HJ Hdist Hc) as (roles & [Hr Hj Htx Ho Hsame] & Hk).
  { assert (E : doneJobs (map (fun spec : nat * list job => Main (fst spec) (snd spec))
                            specs) = []).
    { clear. induction specs as [|spec specs IH]; [reflexivity|exact IH]. }
    rewrite E. split.
    - intros j d0 w Hin. now apply elem_of_nil in Hin.
    - reflexivity. }
  split.
  - intros j d0 w Hin H0 Hw.
    destruct (settled_roles _ _ _ _ Hr Hs j) as (d0' & w' & H0' & Hw' & Hacc).
    { now rewrite Hj. }
    rewrite H0 in H0'. injection H0' as <-. rewrite Hw in Hw'. injection Hw' as <-.
    exact Hacc.
  - apply (rekeys_perm st0 (doneJobs roles)); [|exact Hk].
    now rewrite (settled_done _ _ _ _ Hr Hs).
Qed.

End IndexSteps.

Section Reindexing.
Import Blockchain Jobs Ledger Index.

Lemma numeral_head w :
  is_Some (BigNum.ofString w) ->
  exists c rest, w = String c rest /\ c <> ":"%char /\ c <> "u"%char.
Proof.
  intros Hw. destruct (numeral_shape w Hw) as [(w' & -> & _)|[_ [u Hu]]].
  - exists "-"%char, w'. repeat split; discriminate.
  - destruct w as [|c rest]; [destruct Hw; discriminate|].
    exists c, rest. split; [reflexivity|].
    cbn [NilEmpty.uint_of_string] in Hu.
    destruct (NilEmpty.uint_of_string rest); [|discriminate].
    split; intros ->; discriminate.
Qed.

Lemma numeral_key_old w pk d pk' :
  is_Some (BigNum.ofString w) ->
  is_Some (BigNum.ofString (votesOrZero d)) ->
  candidateKey w pk = candidateKey (templateString (votes d)) pk' -> pk = pk'.
Proof.
  intros Hw Hv E. unfold votesOrZero in Hv.
  destruct (numeral_head w Hw) as (c & rest & -> & Hc1 & Hc2).
  destruct (votes d) as [s|]; cbn [templateString default truthy] in *.
  - destruct (String.eqb s "") eqn:Es; cbn [negb] in Hv.
    + apply String.eqb_eq in Es. subst s. unfold candidateKey in E. simpl in E.
      injection E as E _. contradiction.
    + now apply (numeral_keys (String c rest) s pk pk' Hw Hv).
  - unfold candidateKey in E. simpl in E. injection E as E _. contradiction.
Qed.

Lemma NoDup_fmap_ne {A B : Type} (f : A -> B) (l : list A) (x y : A) :
  NoDup (map f l) -> x ∈ l -> y ∈ l -> x <> y -> f x <> f y.
Proof.
  induction l as [|z l IH]; cbn [map]; intros Hnd Hx Hy Hne;
    [now apply elem_of_nil in Hx|].
  apply NoDup_cons in Hnd as [Hz Hnd].
  apply elem_of_cons in Hx as [->|Hx]; apply elem_of_cons in Hy as [->|Hy].
  - contradiction.
  - intros E. apply Hz. rewrite E. apply list_elem_of_fmap. eauto.
  - intros E. apply Hz. rewrite <- E. apply list_elem_of_fmap. eauto.
  - now apply IH.
Qed.

Lemma newKey_oldKey d0 w : newKey d0 w = oldKey (withVotes d0 w).
Proof. reflexivity. Qed.

(** Calls whose jobs come in groups: when the groups name pairwise
    different delegates with pairwise different public keys, the candidate
    bucket follows the accounts. *)
Lemma groups_reindex st (calls : list async) (specs : list (nat * list job))
    (gs : list group) :
  Forall2 (fun t spec => spawns st (fst spec) t (snd spec)) calls specs ->
  concat (map snd specs) = groupJobs gs ->
  (forall g d l, (g, d, l) ∈ gs -> shifts g d) ->
  NoDup (groupAddresses gs) ->
  (forall a, a ∈ groupAddresses gs -> is_Some (weightOf st a)) ->
  NoDup (map (publicKeyAt st) (groupAddresses gs)) ->
  settlesWith calls st (reindexed st (groupAddresses gs)).
Proof.
  intros Hsp HJ Hsh Hnd Hw Hpk.
  assert (Hjob : forall j, j ∈ groupJobs gs ->
            job_address j ∈ groupAddresses gs /\
            exists delta, shifts (job_newVotes j) delta).
  { intros j Hj. apply elem_of_groupJobs in Hj as (g & d & l & a & Hg & Ha & ->).
    cbn [job_address job_newVotes]. split.
    - apply elem_of_groupAddresses. exists g, d, l. auto.
    - exists d. now apply (Hsh g d l). }
  assert (Hval : jobsValid st (groupJobs gs)).
  { apply jobsValid_intro; [now rewrite address_groupJobs|].
    intros j Hj. destruct (Hjob j Hj) as [Ha Hd]. split; [now apply Hw|exact Hd]. }
  assert (Hnum : forall j d0 w, j ∈ groupJobs gs ->
            BUCKET_ADDRESS_ACCOUNT st !! job_address j = Some d0 ->
            job_newVotes j d0 = Some w ->
            is_Some (BigNum.ofString w) /\ is_Some (BigNum.ofString (votesOrZero d0))).
  { intros j d0 w Hj H0 Hjw. destruct (Hjob j Hj) as [Ha [delta Hd]].
    destruct (Hw _ Ha) as [v Hv]. apply weightOf_Some in Hv as (d & Hd0 & Hv).
    rewrite H0 in Hd0. injection Hd0 as <-.
    rewrite (Hd d0 v Hv) in Hjw. injection Hjw as <-.
    split; [|now exists v]. exists (v + delta)%Z. apply BigNum_ofString_toString. }
  assert (Hdist : distinctKeys st (groupJobs gs)).
  { intros j j' d0 d0' w w' Hj Hj' Hne H0 H0' Hjw Hjw'.
    destruct (Hnum j d0 w Hj H0 Hjw) as [Nw _].
    destruct (Hnum j' d0' w' Hj' H0' Hjw') as [Nw' Nv'].
    assert (Hp : templateString (publicKey d0) <> templateString (publicKey d0')).
    { pose proof (NoDup_fmap_ne (publicKeyAt st) _ _ _ Hpk
                    (proj1 (Hjob j Hj)) (proj1 (Hjob j' Hj')) Hne) as Hp.
      unfold publicKeyAt in Hp. rewrite H0, H0' in Hp. cbn in Hp. congruence. }
    unfold newKey, oldKey. split; intros E; apply Hp.
    - now apply (numeral_keys w w' _ _ Nw Nw').
    - now apply (numeral_key_old w _ d0' _ Nw Nv'). }
  destruct (calls_settle st calls specs Hsp) as [Hex _]; [now rewrite HJ|].
  split; [exact Hex|].
  intros schedule Hs.
  destruct (calls_rekey st calls specs Hsp) with (schedule := schedule)
    as [Hacc [Hk1 Hk2]]; [now rewrite HJ|now rewrite HJ|exact Hs|].
  rewrite HJ in Hacc, Hk1, Hk2.
  assert (Hfind : forall a d0, a ∈ groupAddresses gs ->
            BUCKET_ADDRESS_ACCOUNT st !! a = Some d0 ->
            exists j w, j ∈ groupJobs gs /\ job_address j = a /\
                        job_newVotes j d0 = Some w).
  { intros a d0 Ha H0.
    apply elem_of_groupAddresses in Ha as (g & d & l & Hg & Ha).
    assert (Hj : mkJob a g ∈ groupJobs gs)
      by (apply elem_of_groupJobs; exists g, d, l, a; auto).
    destruct Hval as [_ Hv]. destruct (Hv _ Hj) as (d0' & w & H0' & Hjw).
    cbn [job_address job_newVotes] in H0', Hjw.
    rewrite H0 in H0'. injection H0' as <-. exists (mkJob a g), w. auto. }
  split.
  - intros a d0 Ha H0. destruct (Hfind a d0 Ha H0) as (j & w & Hj & <- & Hjw).
    exists (withVotes d0 w). split; [now apply (Hacc j d0 w)|].
    rewrite <- newKey_oldKey. now apply (Hk1 j d0 w).
  - intros k Hk. apply Hk2. intros j d0 w Hj H0 Hjw.
    rewrite newKey_oldKey.
    apply (Hk (job_address j) d0 (withVotes d0 w));
      [apply (proj1 (Hjob j Hj))|exact H0|now apply (Hacc j d0 w)].
Qed.

Context `{Cryptography}.

(** X18.  [applyVote] and [undoVote] keep the candidate bucket in step
    with the accounts they write, for every type of transaction.  The
    delegates they update are those the sender votes for, those the
    recipient votes for and those the directives name.  When these have
    pairwise different addresses and public keys and weights that read as
    numbers, then in every order of the store operations, once the writes
    have settled, the candidate key of each updated delegate (its new
    weight, a colon, its public key) maps to the address of the delegate,
    the key of its old weight is gone unless the weight is unchanged, and
    every other key of the bucket is as before.  Sender and recipient are
    in the store; fee, amount and the balance of the sender read as
    numbers. *)
Theorem applyVote_reindexes (st : StateStore) (tx : Transaction) (sender : Account)
    (addresses : list string) (f m b : Z) :
  BUCKET_ADDRESS_ACCOUNT st !! senderId tx = Some sender ->
  targets st tx = Some addresses ->
  BigNum.ofString (fee tx) = Some f ->
  BigNum.ofString (amount tx) = Some m ->
  BigNum.ofString (balance sender) = Some b ->
  NoDup addresses ->
  (forall a, a ∈ addresses -> is_Some (weightOf st a)) ->
  NoDup (map (publicKeyAt st) addresses) ->
  settlesWith (applyVote tx) st (reindexed st addresses) /\
  settlesWith (undoVote tx) st (reindexed st addresses).
Proof.
  intros Hs HT Hf Hm Hb Hnd Hw Hpk.
  unfold targets in HT. rewrite Hs in HT. cbn in HT.
  destruct (amountDelegates st tx) as [paid|] eqn:Hp; [|discriminate]. cbn in HT.
  destruct (voteDelegates tx) as [named|] eqn:Hv; [|discriminate]. cbn in HT.
  injection HT as <-.
  set (voted := delegateAddressesOf sender) in *.
  unfold voteDelegates in Hv.
  destruct (Z.eqb_spec (type tx) TRANSACTION_TYPE_VOTE) as [Hty|Hty].
  - destruct (asset_votes (asset tx)) as [votes0|] eqn:Hvotes; [|discriminate].
    cbn in Hv. injection Hv as <-.
    assert (Hpaid : paid = []).
    { unfold amountDelegates, isTransferType in Hp. rewrite Hty in Hp.
      cbn in Hp. now injection Hp as <-. }
    subst paid. cbn [app] in *.
    set (ups := directives "+" votes0) in *. set (downs := directives "-" votes0) in *.
    assert (Hgen : forall gFee up down dF dU dD,
               shifts gFee dF -> shifts (up (balance sender)) dU ->
               shifts (down (balance sender)) dD ->
               settlesWith [feeCall gFee tx; Resolve; voteCall up down votes0 tx] st
                 (reindexed st (voted ++ ups ++ downs))).
    { intros gFee up down dF dU dD HsF HsU HsD.
      pose (gs := [(gFee, dF, voted); (up (balance sender), dU, ups);
                   (down (balance sender), dD, downs)] : list group).
      assert (HA : groupAddresses gs = voted ++ ups ++ downs).
      { unfold groupAddresses, gs. cbn [map concat snd]. now rewrite app_nil_r. }
      rewrite <- HA.
      apply (groups_reindex st _
               [(2%nat, jobsFor gFee voted); (0%nat, []);
                (3%nat, jobsFor (up (balance sender)) ups
                        ++ jobsFor (down (balance sender)) downs)] gs).
      - constructor; [now apply spawns_feeCall|].
        constructor; [apply spawns_resolve|].
        constructor; [now apply spawns_voteCall|constructor].
      - unfold groupJobs, gs. cbn [map concat snd fst app].
        now rewrite !app_nil_r.
      - intros g d l Hg. apply elem_of_cons in Hg as [[= -> -> ->]|Hg]; [exact HsF|].
        apply elem_of_cons in Hg as [[= -> -> ->]|Hg]; [exact HsU|].
        apply list_elem_of_singleton in Hg as [= -> -> ->]. exact HsD.
      - now rewrite HA.
      - now rewrite HA.
      - now rewrite HA. }
    rewrite (proj1 (vote_shapes tx votes0 true Hty Hvotes)).
    rewrite (proj2 (vote_shapes tx votes0 true Hty Hvotes)).
    split.
    + apply (Hgen (votesSub (fee tx)) votesAdd (fun x => votesSubAdd x (fee tx))
               (- f)%Z b (f - b)%Z);
        [now apply shifts_votesSub|now apply shifts_votesAdd
        |now apply shifts_votesSubAdd].
    + apply (Hgen (votesAdd (fee tx)) votesSub (fun x => votesAddSub x (fee tx))
               f (- b)%Z (b - f)%Z);
        [now apply shifts_votesAdd|now apply shifts_votesSub
        |now apply shifts_votesAddSub].
  - injection Hv as <-.
    destruct (applyNewVote_other tx Hty) as [Hn1 Hn2].
    assert (Hgen : forall gFee gAmount dF dA,
               shifts gFee dF -> shifts gAmount dA ->
               settlesWith [feeCall gFee tx;
                            forRecipientDelegates tx (updateDelegateVote gAmount);
                            Resolve] st
                 (reindexed st (voted ++ paid ++ []))).
    { intros gFee gAmount dF dA HsF HsA.
      pose (gs := [(gFee, dF, voted); (gAmount, dA, paid)] : list group).
      change (voted ++ paid ++ []) with (groupAddresses gs).
      destruct (spawns_amountDelegates st tx paid gAmount Hp) as [n Hsp].
      apply (groups_reindex st _
               [(2%nat, jobsFor gFee voted); (n, jobsFor gAmount paid); (0%nat, [])] gs).
      - constructor; [now apply spawns_feeCall|].
        constructor; [exact Hsp|].
        constructor; [apply spawns_resolve|constructor].
      - reflexivity.
      - intros g d l Hg. apply elem_of_cons in Hg as [[= -> -> ->]|Hg]; [exact HsF|].
        apply list_elem_of_singleton in Hg as [= -> -> ->]. exact HsA.
      - exact Hnd.
      - exact Hw.
      - exact Hpk. }
    unfold applyVote, undoVote. rewrite Hn1, Hn2. split.
    + apply (Hgen (votesSub (fee tx)) (votesAdd (amount tx)) (- f)%Z m);
        [now apply shifts_votesSub|now apply shifts_votesAdd].
    + apply (Hgen (votesAdd (fee tx)) (votesSub (amount tx)) f (- m)%Z);
        [now apply shifts_votesAdd|now apply shifts_votesSub].
Qed.

End Reindexing.

(** ** Instances on the sample data *)

Lemma thread_balance_witness :
  exists s',
    Lifecycle.thread [Lifecycle.DoUndo; Lifecycle.DoApply; Lifecycle.DoApply;
                      Lifecycle.DoUndo; Lifecycle.DoUndo]
      (Samples.freshTx 10) (Samples.alice "1000")
    = (Returned s', Transactions.setApplied true (Samples.freshTx 10)) /\
    BigNum.ofString (Transactions.balance s') = Some (1000 - 10 + 10 * 2) /\
    (true = false -> s' = Samples.alice "1000") /\
    Transactions.withBalance s' "1000" = Samples.alice "1000".
Proof.
  exact (thread_balance
           [Lifecycle.DoUndo; Lifecycle.DoApply; Lifecycle.DoApply;
            Lifecycle.DoUndo; Lifecycle.DoUndo]
           (Samples.freshTx 10) (Samples.alice "1000") 1000 eq_refl eq_refl).
Defined.

Lemma constructor_toJSON_witness :
  exists rebuilt,
    Lifecycle.constructor Cases.accept
      (Transactions.toJSON (Samples.usedTx 10)) = Returned rebuilt /\
    Transactions.applied rebuilt = false /\
    Transactions.applied (Samples.usedTx 10) = true /\
    Transactions.toJSON rebuilt = Transactions.toJSON (Samples.usedTx 10).
Proof.
  destruct (constructor_toJSON Cases.accept (Samples.usedTx 10) tt eq_refl)
    as (rebuilt & H1 & H2 & _ & _ & H5 & _).
  exists rebuilt. split; [exact H1|]. split; [exact H2|]. split; [reflexivity|exact H5].
Defined.

Lemma constructor_roundtrip_witness :
  exists this,
    Lifecycle.constructor Cases.accept
      (Transactions.toJSON (Samples.signedTx 500 100 (Some Samples.goodSignature) None))
    = Returned this /\
    Transactions.applied this = false /\
    Transactions.amount this = 500 /\
    Transactions.fee this = 10 /\
    Transactions.toJSON this
    = Transactions.toJSON (Samples.signedTx 500 100 (Some Samples.goodSignature) None).
Proof.
  apply (constructor_roundtrip Cases.accept
           (Transactions.toJSON
              (Samples.signedTx 500 100 (Some Samples.goodSignature) None)) tt 500 10).
  - reflexivity.
  - vm_compute. reflexivity.
  - vm_compute. reflexivity.
  - vm_compute. reflexivity.
  - vm_compute. reflexivity.
  - vm_compute. reflexivity.
  - vm_compute. reflexivity.
  - right. vm_compute. reflexivity.
  - left. vm_compute. reflexivity.
Defined.

Lemma getBytes_separates_witness :
  (500 = 500 /\ 100 = 100) /\
  @Transactions.getBytes Samples.imports
    (Lifecycle.setAmount 500 (Samples.signedTx 0 100 None None))
  <> @Transactions.getBytes Samples.imports
       (Lifecycle.setAmount 501 (Samples.signedTx 0 100 None None)).
Proof.
  destruct (@getBytes_separates Samples.imports (Samples.signedTx 0 100 None None))
    as [Hamount Htimestamp].
  split; [split|].
  - apply (Hamount 500 500); [cbn; lia|lia|lia|reflexivity].
  - apply (Htimestamp 100 100); [cbn; lia|lia|lia|reflexivity].
  - intros E. apply (Hamount 500 501) in E; [discriminate|cbn; lia|lia|lia].
Defined.

Lemma getBytes_returns_witness :
  (exists bytes,
      @Transactions.getBytes Samples.imports (Samples.signedTx (2 ^ 64) 100 None None)
      = Returned bytes) /\
  @Transactions.getBytes Samples.imports (Samples.signedTx 500 (2 ^ 31) None None)
  = Thrown "RangeError" /\
  @Transactions.getBytes Samples.imports (Samples.signedTx (-1) 100 None None)
  = Thrown "converting negative numbers to Buffers not supported yet".
Proof.
  split; [|split].
  - apply (proj1 (@getBytes_returns Samples.imports
                    (Samples.signedTx (2 ^ 64) 100 None None))).
    cbn. lia.
  - apply (proj1 (proj2 (@getBytes_returns Samples.imports
                           (Samples.signedTx 500 (2 ^ 31) None None)))).
    cbn. lia.
  - apply (proj2 (proj2 (@getBytes_returns Samples.imports
                           (Samples.signedTx (-1) 100 None None)))); cbn; lia.
Defined.

Lemma getBytes_reads_witness :
  @Transactions.getBytes Samples.imports Cases.lookalike
  = @Transactions.getBytes Samples.imports (Samples.signedTx 500 100 None None) /\
  Transactions.asset Cases.lookalike
  <> Transactions.asset (Samples.signedTx 500 100 None None).
Proof.
  split; [|discriminate].
  apply (@getBytes_reads Samples.imports Cases.lookalike
           (Samples.signedTx 500 100 None None)); reflexivity.
Defined.

Lemma amount_effect_witness :
  let st1 :=
    Blockchain.store
      (Blockchain.run [0; 0; 1; 1; 1]%nat
         (Blockchain.launch [@Blockchain.applyAmount Samples.crypto Cases.transferTx]
            Samples.ledger)) in
  let st2 :=
    Blockchain.store
      (Blockchain.run [0; 0; 1; 1; 1]%nat
         (Blockchain.launch [@Blockchain.undoAmount Samples.crypto Cases.transferTx]
            st1)) in
  Blockchain.weightOf st1 "dYL" = Some (2000 + 500) /\
  Blockchain.weightOf st2 "dYL" = Some 2000.
Proof.
  assert (Hnd : NoDup (@Blockchain.delegateAddressesOf Samples.crypto
                         (Samples.account "recipient" "70" None (Some ["dY"])))).
  { apply (bool_decide_unpack _). vm_compute. exact I. }
  assert (Hw : forall a,
             a ∈ @Blockchain.delegateAddressesOf Samples.crypto
                   (Samples.account "recipient" "70" None (Some ["dY"])) ->
             is_Some (Blockchain.weightOf Samples.ledger a)).
  { intros a Ha. apply list_elem_of_singleton in Ha as ->. exists 2000.
    vm_compute. reflexivity. }
  destruct (@amount_effect Samples.crypto Samples.ledger Cases.transferTx "recipientL"
              (Samples.account "recipient" "70" None (Some ["dY"])) 500
              ltac:(vm_compute; reflexivity) ltac:(vm_compute; reflexivity)
              ltac:(vm_compute; reflexivity) Hnd Hw)
    as [[_ Happly] _].
  intros st1 st2.
  destruct (Happly [0; 0; 1; 1; 1]%nat ltac:(vm_compute; reflexivity))
    as (H1 & _ & [_ Hundo]).
  split.
  - apply (H1 "dYL" 2000); [apply list_elem_of_here|vm_compute; reflexivity].
  - apply (Hundo [0; 0; 1; 1; 1]%nat ltac:(vm_compute; reflexivity) "dYL" 2000).
    vm_compute. reflexivity.
Defined.

Lemma applyVote_nonvote_witness :
  let st1 :=
    Blockchain.store
      (Blockchain.run [0; 1; 0; 1; 3; 4; 4; 3; 3; 4]%nat
         (Blockchain.launch (@Blockchain.applyVote Samples.crypto Cases.transferTx)
            Samples.ledger)) in
  Blockchain.weightOf st1 "dXL" = Some (5000 - 10) /\
  Blockchain.weightOf st1 "dYL" = Some (2000 + 500).
Proof.
  assert (Hnd : NoDup (@Blockchain.delegateAddressesOf Samples.crypto
                         (Samples.account "sender" "1000" None (Some ["dX"]))
                       ++ ["dYL"])).
  { apply (bool_decide_unpack _). vm_compute. exact I. }
  assert (Hw : forall a,
             a ∈ @Blockchain.delegateAddressesOf Samples.crypto
                   (Samples.account "sender" "1000" None (Some ["dX"])) ++ ["dYL"] ->
             is_Some (Blockchain.weightOf Samples.ledger a)).
  { intros a Ha. apply elem_of_cons in Ha as [->|Ha].
    - exists 5000. vm_compute. reflexivity.
    - apply list_elem_of_singleton in Ha as ->. exists 2000. vm_compute. reflexivity. }
  destruct (@applyVote_nonvote Samples.crypto Samples.ledger Cases.transferTx
              (Samples.account "sender" "1000" None (Some ["dX"])) ["dYL"] 10 500
              ltac:(discriminate) ltac:(vm_compute; reflexivity)
              ltac:(vm_compute; reflexivity) ltac:(vm_compute; reflexivity)
              ltac:(vm_compute; reflexivity) Hnd Hw)
    as [[_ Happly] _].
  intros st1.
  destruct (Happly [0; 1; 0; 1; 3; 4; 4; 3; 3; 4]%nat ltac:(vm_compute; reflexivity))
    as (H1 & H2 & _).
  split.
  - apply (H1 "dXL" 5000); [apply list_elem_of_here|vm_compute; reflexivity].
  - apply (H2 "dYL" 2000); [apply list_elem_of_here|vm_compute; reflexivity].
Defined.

Lemma newVote_effect_witness :
  let st1 :=
    Blockchain.store
      (Blockchain.run [0; 0; 0; 2; 1; 2; 1; 1; 2]%nat
         (Blockchain.launch [@Blockchain.applyNewVote Samples.crypto Samples.voteTx]
            Samples.ledger)) in
  Blockchain.weightOf st1 "d1L" = Some (400 + 1000) /\
  Blockchain.weightOf st1 "d2L" = Some (0 + (10 - 1000)).
Proof.
  assert (Hnd : NoDup (@Blockchain.directives Samples.crypto "+" ["+d1"; "-d2"]
                       ++ @Blockchain.directives Samples.crypto "-" ["+d1"; "-d2"])).
  { apply (bool_decide_unpack _). vm_compute. exact I. }
  assert (Hw : forall a,
             a ∈ @Blockchain.directives Samples.crypto "+" ["+d1"; "-d2"]
                 ++ @Blockchain.directives Samples.crypto "-" ["+d1"; "-d2"] ->
             is_Some (Blockchain.weightOf Samples.ledger a)).
  { intros a Ha. apply elem_of_cons in Ha as [->|Ha].
    - exists 400. vm_compute. reflexivity.
    - apply list_elem_of_singleton in Ha as ->. exists 0. vm_compute. reflexivity. }
  destruct (@newVote_effect Samples.crypto Samples.ledger Samples.voteTx
              (Samples.account "sender" "1000" None (Some ["dX"]))
              ["+d1"; "-d2"] 1000 10
              eq_refl eq_refl ltac:(vm_compute; reflexivity)
              ltac:(vm_compute; reflexivity) ltac:(vm_compute; reflexivity) Hnd Hw)
    as [[_ Happly] _].
  intros st1.
  destruct (Happly [0; 0; 0; 2; 1; 2; 1; 1; 2]%nat ltac:(vm_compute; reflexivity))
    as (H1 & H2 & _).
  split.
  - apply (H1 "d1L" 400); [apply list_elem_of_here|vm_compute; reflexivity].
  - apply (H2 "d2L" 0); [apply list_elem_of_here|vm_compute; reflexivity].
Defined.

Lemma applyVote_vote_witness :
  let st1 :=
    Blockchain.store
      (Blockchain.run [0; 0; 2; 2; 2; 3; 4; 5; 3; 4; 5; 3; 4; 5]%nat
         (Blockchain.launch (@Blockchain.applyVote Samples.crypto Samples.voteTx)
            Samples.ledger)) in
  Blockchain.weightOf st1 "dXL" = Some (5000 - 10) /\
  Blockchain.weightOf st1 "d1L" = Some (400 + 1000) /\
  Blockchain.weightOf st1 "d2L" = Some (0 + (10 - 1000)).
Proof.
  assert (Hnd : NoDup (@Blockchain.delegateAddressesOf Samples.crypto
                         (Samples.account "sender" "1000" None (Some ["dX"]))
                       ++ @Blockchain.directives Samples.crypto "+" ["+d1"; "-d2"]
                       ++ @Blockchain.directives Samples.crypto "-" ["+d1"; "-d2"])).
  { apply (bool_decide_unpack _). vm_compute. exact I. }
  assert (Hw : forall a,
             a ∈ @Blockchain.delegateAddressesOf Samples.crypto
                   (Samples.account "sender" "1000" None (Some ["dX"]))
                 ++ @Blockchain.directives Samples.crypto "+" ["+d1"; "-d2"]
                 ++ @Blockchain.directives Samples.crypto "-" ["+d1"; "-d2"] ->
             is_Some (Blockchain.weightOf Samples.ledger a)).
  { intros a Ha. apply elem_of_cons in Ha as [->|Ha].
    - exists 5000. vm_compute. reflexivity.
    - apply elem_of_cons in Ha as [->|Ha].
      + exists 400. vm_compute. reflexivity.
      + apply list_elem_of_singleton in Ha as ->. exists 0. vm_compute. reflexivity. }
  destruct (@applyVote_vote Samples.crypto Samples.ledger Samples.voteTx
              (Samples.account "sender" "1000" None (Some ["dX"]))
              ["+d1"; "-d2"] 1000 10
              eq_refl eq_refl ltac:(vm_compute; reflexivity)
              ltac:(vm_compute; reflexivity) ltac:(vm_compute; reflexivity) Hnd Hw)
    as [[_ Happly] _].
  intros st1.
  destruct (Happly [0; 0; 2; 2; 2; 3; 4; 5; 3; 4; 5; 3; 4; 5]%nat
              ltac:(vm_compute; reflexivity))
    as (H1 & H2 & H3 & _).
  split; [|split].
  - apply (H1 "dXL" 5000); [apply list_elem_of_here|vm_compute; reflexivity].
  - apply (H2 "d1L" 400); [apply list_elem_of_here|vm_compute; reflexivity].
  - apply (H3 "d2L" 0); [apply list_elem_of_here|vm_compute; reflexivity].
Defined.

Lemma applyVote_sender_missing_witness :
  let s :=
    Blockchain.run [0; 1; 1; 3; 3; 3]%nat
      (Blockchain.launch (@Blockchain.applyVote Samples.crypto Cases.orphanTx)
         Samples.ledger) in
  Blockchain.weightOf (Blockchain.store s) "dYL" = Some (2000 + 500) /\
  Blockchain.resolved s = false /\
  Blockchain.pool s !! 0%nat = Some (Blockchain.Reject "NotFound").
Proof.
  assert (Hnd : NoDup ["dYL"]).
  { apply (bool_decide_unpack _). vm_compute. exact I. }
  assert (Hw : forall a, a ∈ ["dYL"] -> is_Some (Blockchain.weightOf Samples.ledger a)).
  { intros a Ha. apply list_elem_of_singleton in Ha as ->. exists 2000.
    vm_compute. reflexivity. }
  destruct (@applyVote_sender_missing Samples.crypto Samples.ledger Cases.orphanTx
              ["dYL"] 500
              ltac:(vm_compute; reflexivity) ltac:(vm_compute; reflexivity)
              ltac:(vm_compute; reflexivity) Hnd Hw)
    as [[[_ Happly] Hrej] _].
  intros s.
  destruct (Happly [0; 1; 1; 3; 3; 3]%nat ltac:(vm_compute; reflexivity)) as (H1 & _).
  destruct (Hrej [0; 1; 1; 3; 3; 3]%nat) as (H2 & H3).
  split; [|split].
  - apply (H1 "dYL" 2000); [apply list_elem_of_here|vm_compute; reflexivity].
  - exact H2.
  - apply H3. vm_compute. reflexivity.
Defined.

Lemma applyVote_partial_witness :
  let s :=
    Blockchain.run [1; 0; 0; 3; 3; 3]%nat
      (Blockchain.launch (@Blockchain.applyVote Samples.crypto Cases.strayTx)
         Samples.ledger) in
  Blockchain.settled s = true /\
  Blockchain.resolved s = false /\
  Blockchain.weightOf (Blockchain.store s) "dXL" = Some (5000 - 10).
Proof.
  assert (Hnd : NoDup (@Blockchain.delegateAddressesOf Samples.crypto
                         (Samples.account "sender" "1000" None (Some ["dX"])))).
  { apply (bool_decide_unpack _). vm_compute. exact I. }
  assert (Hw : forall a,
             a ∈ @Blockchain.delegateAddressesOf Samples.crypto
                   (Samples.account "sender" "1000" None (Some ["dX"])) ->
             is_Some (Blockchain.weightOf Samples.ledger a)).
  { intros a Ha. apply list_elem_of_singleton in Ha as ->. exists 5000.
    vm_compute. reflexivity. }
  destruct (@applyVote_partial Samples.crypto Samples.ledger Cases.strayTx
              (Samples.account "sender" "1000" None (Some ["dX"])) 10
              ltac:(vm_compute; reflexivity)
              ltac:(left; split; vm_compute; reflexivity)
              ltac:(vm_compute; reflexivity) Hnd Hw)
    as [[[_ Happly] (i & e & Hrej)] _].
  intros s.
  destruct (Happly [1; 0; 0; 3; 3; 3]%nat ltac:(vm_compute; reflexivity)) as (H1 & _).
  destruct (Hrej [1; 0; 0; 3; 3; 3]%nat) as (H2 & _).
  split; [vm_compute; reflexivity|]. split; [exact H2|].
  apply (H1 "dXL" 5000); [apply list_elem_of_here|vm_compute; reflexivity].
Defined.

Lemma fee_errors_lost_witness :
  let s :=
    Blockchain.run [0; 0; 1]%nat
      (Blockchain.launch [@Blockchain.applyFee Samples.crypto Samples.voteTx]
         Cases.bareLedger) in
  Blockchain.store s = Cases.bareLedger /\
  Blockchain.resolved s = true /\
  Blockchain.pool s = [Blockchain.Resolve; Blockchain.Reject "NotFound"].
Proof.
  assert (Hmiss : forall a,
             a ∈ @Blockchain.delegateAddressesOf Samples.crypto
                   (Samples.account "sender" "1000" None (Some ["dQ"])) ->
             Blockchain.BUCKET_ADDRESS_ACCOUNT Cases.bareLedger !! a = None).
  { intros a Ha. apply list_elem_of_singleton in Ha as ->. vm_compute. reflexivity. }
  destruct (@fee_errors_lost Samples.crypto Cases.bareLedger Samples.voteTx
              (Samples.account "sender" "1000" None (Some ["dQ"]))
              ltac:(vm_compute; reflexivity) Hmiss
              (@Blockchain.applyFee Samples.crypto Samples.voteTx)
              ltac:(left; reflexivity))
    as [_ Hall].
  intros s. destruct (Hall [0; 0; 1]%nat) as (H1 & H2).
  split; [exact H1|]. apply H2. vm_compute. reflexivity.
Defined.

Lemma callback_effect_witness :
  let st' :=
    Blockchain.store
      (Blockchain.run [0; 0; 0]%nat
         (Blockchain.launch
            [Blockchain.updateDelegateVote (Blockchain.votesSub "10") "dXL"]
            Samples.ledger)) in
  Blockchain.BUCKET_CANDIDATE st' !! "4990:dX" = Some "dXL" /\
  Blockchain.BUCKET_CANDIDATE st' !! "5000:dX" = None /\
  Blockchain.BUCKET_CANDIDATE Samples.ledger !! "5000:dX" = Some "dXL".
Proof.
  destruct (callback_effect Samples.ledger (Blockchain.votesSub "10") "dXL"
              (Samples.account "dX" "0" (Some "5000") None)
              ltac:(vm_compute; reflexivity))
    as [_ Hall].
  intros st'.
  pose proof (Hall [0; 0; 0]%nat ltac:(vm_compute; reflexivity)) as Hst.
  change (Blockchain.votesSub "10" (Samples.account "dX" "0" (Some "5000") None))
    with (Some "4990") in Hst.
  destruct Hst as (_ & H2 & H3 & _).
  split; [exact H2|]. split; [apply H3; discriminate|vm_compute; reflexivity].
Defined.

Lemma shared_delegate_lost_update_witness :
  let ends := fun schedule =>
    let s := Blockchain.run schedule
               (Blockchain.launch (@Blockchain.applyVote Samples.crypto Cases.transferTx)
                  Cases.sharedLedger) in
    (Blockchain.settled s, Blockchain.weightOf (Blockchain.store s) "dXL") in
  ends [0; 0; 1; 1; 3; 3; 3; 4; 4; 4]%nat = (true, Some (5000 - 10 + 500)) /\
  ends [0; 0; 1; 1; 3; 4; 3; 3; 4; 4]%nat = (true, Some (5000 + 500)) /\
  ends [0; 0; 1; 1; 3; 4; 4; 4; 3; 3]%nat = (true, Some (5000 - 10)).
Proof.
  destruct (@shared_delegate_lost_update Samples.crypto Cases.sharedLedger
              Cases.transferTx
              (Samples.account "sender" "1000" None (Some ["dX"]))
              (Samples.account "recipient" "70" None (Some ["dX"]))
              (Samples.account "dX" "0" (Some "5000") None)
              "recipientL" "dXL" 5000 10 500
              ltac:(left; reflexivity) eq_refl
              ltac:(vm_compute; reflexivity) ltac:(vm_compute; reflexivity)
              eq_refl eq_refl
              ltac:(vm_compute; reflexivity) ltac:(vm_compute; reflexivity)
              ltac:(vm_compute; reflexivity) ltac:(vm_compute; reflexivity))
    as (H1 & H2 & H3 & _).
  split; [exact H1|]. split; [exact H2|exact H3].
Defined.

Lemma candidateKey_injective_witness :
  ("10" = "10" /\ "dX" = "dX") /\
  Blockchain.candidateKey "10" "dX" <> Blockchain.candidateKey "1" "0:dX" /\
  Blockchain.candidateKey (BigNum.toString 9) "dX"
  <> Blockchain.candidateKey (BigNum.toString 10) "dX".
Proof.
  destruct candidateKey_injective as [Hstrings Hnumbers].
  split; [|split].
  - apply (Hstrings "10" "10" "dX" "dX");
      [eexists; vm_compute; reflexivity|eexists; vm_compute; reflexivity|reflexivity].
  - intros E. apply Hstrings in E as [E _];
      [discriminate|eexists; vm_compute; reflexivity|eexists; vm_compute; reflexivity].
  - intros E. apply Hnumbers in E as [E _]. discriminate.
Defined.

Lemma applyVote_reindexes_witness :
  let st1 :=
    Blockchain.store
      (Blockchain.run [0; 1; 0; 1; 3; 4; 4; 3; 3; 4]%nat
         (Blockchain.launch (@Blockchain.applyVote Samples.crypto Cases.transferTx)
            Samples.ledger)) in
  Blockchain.BUCKET_CANDIDATE Samples.ledger !! "5000:dX" = Some "dXL" /\
  Blockchain.BUCKET_CANDIDATE st1 !! "4990:dX" = Some "dXL" /\
  Blockchain.BUCKET_CANDIDATE st1 !! "5000:dX" = None /\
  Blockchain.BUCKET_CANDIDATE st1 !! "2500:dY" = Some "dYL".
Proof.
  assert (Hnd : NoDup ["dXL"; "dYL"]).
  { apply (bool_decide_unpack _). vm_compute. exact I. }
  assert (Hpk : NoDup (map (Index.publicKeyAt Samples.ledger) ["dXL"; "dYL"])).
  { apply (bool_decide_unpack _). vm_compute. exact I. }
  assert (Hw : forall a, a ∈ ["dXL"; "dYL"] ->
                         is_Some (Blockchain.weightOf Samples.ledger a)).
  { intros a Ha. apply elem_of_cons in Ha as [->|Ha].
    - exists 5000. vm_compute. reflexivity.
    - apply list_elem_of_singleton in Ha as ->. exists 2000. vm_compute. reflexivity. }
  destruct (@applyVote_reindexes Samples.crypto Samples.ledger Cases.transferTx
              (Samples.account "sender" "1000" None (Some ["dX"]))
              ["dXL"; "dYL"] 10 500 1000
              ltac:(vm_compute; reflexivity) ltac:(vm_compute; reflexivity)
              ltac:(vm_compute; reflexivity) ltac:(vm_compute; reflexivity)
              ltac:(vm_compute; reflexivity) Hnd Hw Hpk)
    as [[_ Happly] _].
  intros st1.
  destruct (Happly [0; 1; 0; 1; 3; 4; 4; 3; 3; 4]%nat ltac:(vm_compute; reflexivity))
    as [H1 _].
  fold st1 in H1.
  destruct (H1 "dXL" (Samples.account "dX" "0" (Some "5000") None)
              ltac:(apply list_elem_of_here) ltac:(vm_compute; reflexivity))
    as (dX1 & HdX & HkX & HoldX).
  destruct (H1 "dYL" (Samples.account "dY" "0" (Some "2000") None)
              ltac:(apply list_elem_of_further, list_elem_of_here)
              ltac:(vm_compute; reflexivity))
    as (dY1 & HdY & HkY & _).
  assert (EX : dX1 = Samples.account "dX" "0" (Some "4990") None).
  { vm_compute in HdX. injection HdX as <-. reflexivity. }
  assert (EY : dY1 = Samples.account "dY" "0" (Some "2500") None).
  { vm_compute in HdY. injection HdY as <-. reflexivity. }
  subst dX1 dY1.
  split; [vm_compute; reflexivity|]. split; [exact HkX|].
  split; [apply HoldX; discriminate|exact HkY].
Defined.
